(** * VAR: next-scale autoregressive image generation

    A shallow embedding of the Python sources [src/var/utils.py],
    [src/var/vqvae.py] and [src/var/var_model.py].

    Conventions.
    - Python integers are [Z] (hyper-parameters, which may be zero or
      negative) or [nat] (indices and token ids, which cannot).
    - Tensor entries are real numbers ([R]): torch floats are idealised as
      exact reals, so rounding, overflow and NaN are outside the model.
      Where the code itself writes minus infinity into a tensor the entry
      type is the extended real [xreal]. The values that the quantizer
      computes depend on rounding; for them module [VQFloat] has the
      quantizer over IEEE 754 binary32 entries ([SpecFloat.spec_float]).
    - Sequences of vectors and logits are nested lists; the 4-dimensional
      tensors of the tokenizer are a shape with the entries in row-major
      order. [tabulate n f] builds the list [f 0; ...; f (n-1)], which is how
      index formulas of torch operations (matmul, permute, view) are written
      down.
    - Entries that take part in back-propagation are dual numbers, so that
      [detach] has a meaning.
    - A tensor that the code updates in place lives in an explicit store.
    - A Python exception is the result [None]; behaviour of torch itself
      (constructors, [topk], [argmin], [multinomial], [MultiheadAttention])
      follows its documentation. *)

From Stdlib Require Import ZArith List Lia Bool Arith.
From Stdlib Require Import Reals Lra.
From Stdlib Require Import Permutation Sorting.Sorted Sorting.Mergesort Orders.
From Stdlib Require SpecFloat.
Import ListNotations.

(* ================================================================= *)
(** ** Shared list helpers *)

Definition tabulate {A : Type} (n : nat) (f : nat -> A) : list A :=
  map f (seq 0 n).

Lemma tabulate_length {A} n (f : nat -> A) : length (tabulate n f) = n.
Proof. unfold tabulate. now rewrite length_map, length_seq. Qed.

Lemma tabulate_nth {A} n (f : nat -> A) i d :
  (i < n)%nat -> nth i (tabulate n f) d = f i.
Proof.
  intros Hi. unfold tabulate.
  rewrite (nth_indep _ d (f 0%nat)) by now rewrite length_map, length_seq.
  rewrite map_nth, seq_nth; auto.
Qed.

Lemma tabulate_ext {A} n (f g : nat -> A) :
  (forall i, (i < n)%nat -> f i = g i) -> tabulate n f = tabulate n g.
Proof.
  intros H. unfold tabulate. apply map_ext_in.
  intros i Hi. apply in_seq in Hi. apply H. lia.
Qed.

Lemma tabulate_split {A} n k (f : nat -> A) :
  tabulate (n + k) f = tabulate n f ++ map f (seq n k).
Proof. unfold tabulate. now rewrite seq_app, map_app. Qed.

Lemma firstn_seq_min k start len :
  firstn k (seq start len) = seq start (Nat.min k len).
Proof.
  revert start len; induction k as [|k IH]; intros start [|len]; simpl; auto.
  now rewrite IH.
Qed.

Lemma map_seq_offset {A} (f : nat -> A) start len :
  map f (seq start len) = map (fun c => f (start + c)%nat) (seq 0 len).
Proof.
  revert start; induction len as [|len IH]; intros start; simpl; auto.
  rewrite Nat.add_0_r. f_equal.
  rewrite (IH (S start)), <- seq_shift, map_map. apply map_ext. intros c.
  f_equal. lia.
Qed.

Lemma tabulate_firstn {A} n k (f : nat -> A) :
  (k <= n)%nat -> firstn k (tabulate n f) = tabulate k f.
Proof.
  intros Hk. replace n with (k + (n - k))%nat by lia.
  rewrite tabulate_split, firstn_app, tabulate_length.
  replace (k - k)%nat with 0%nat by lia.
  rewrite firstn_all2 by (rewrite tabulate_length; lia).
  simpl. now rewrite app_nil_r.
Qed.

(** [mapM f l] applies [f] to every element, and fails as soon as one
    application fails. *)
Fixpoint mapM {A B : Type} (f : A -> option B) (l : list A) : option (list B) :=
  match l with
  | [] => Some []
  | x :: l' =>
      match f x, mapM f l' with
      | Some y, Some ys => Some (y :: ys)
      | _, _ => None
      end
  end.

Lemma mapM_length {A B} (f : A -> option B) l ys :
  mapM f l = Some ys -> length ys = length l.
Proof.
  revert ys; induction l as [|x l IH]; simpl; intros ys H.
  - now inversion H.
  - destruct (f x); [|easy]. destruct (mapM f l); [|easy].
    inversion H; subst. simpl. f_equal. now apply IH.
Qed.

Lemma mapM_Forall2 {A B} (f : A -> option B) l ys :
  mapM f l = Some ys -> Forall2 (fun x y => f x = Some y) l ys.
Proof.
  revert ys; induction l as [|x l IH]; simpl; intros ys H.
  - inversion H. constructor.
  - destruct (f x) eqn:Hx; [|easy]. destruct (mapM f l); [|easy].
    inversion H; subst. constructor; auto.
Qed.

Lemma mapM_total {A B} (f : A -> option B) l :
  Forall (fun x => exists y, f x = Some y) l -> exists ys, mapM f l = Some ys.
Proof.
  induction 1 as [|x l [y Hy] _ [ys Hys]]; simpl.
  - now exists [].
  - rewrite Hy, Hys. now eexists.
Qed.

Lemma mapM_nth {A B} (f : A -> option B) l ys n da db :
  mapM f l = Some ys -> n < length l ->
  f (nth n l da) = Some (nth n ys db).
Proof.
  revert ys n; induction l as [|x l IH]; simpl; intros ys n H Hn; [lia|].
  destruct (f x) eqn:Hx; [|easy]. destruct (mapM f l); [|easy].
  inversion H; subst. destruct n; simpl; auto. apply IH; auto. lia.
Qed.

(* ================================================================= *)
(** ** ScaleSchedule ([utils.py]) *)

Module ScaleSchedule.
Local Open Scope Z_scope.

(** [get_multi_scale_patches]: [list(range(1, max_patches + 1))]. *)
Definition get_multi_scale_patches (max_patches : Z) : list Z :=
  map Z.of_nat (seq 1 (Z.to_nat max_patches)).

(** One iteration of the loop of [compute_scale_positions]; the state is
    [(start_positions, end_positions, cumulative)]. *)
Definition positions_step (st : list Z * list Z * Z) (scale : Z)
  : list Z * list Z * Z :=
  let '(start_positions, end_positions, cumulative) := st in
  let num_tokens := scale * scale in
  let start_positions := start_positions ++ [cumulative] in
  let cumulative := cumulative + num_tokens in
  (start_positions, end_positions ++ [cumulative], cumulative).

Definition positions_loop (scales : list Z) : list Z * list Z * Z :=
  fold_left positions_step scales ([], [], 0).

(** [compute_scale_positions]. *)
Definition compute_scale_positions (max_scale : Z) : list Z * list Z :=
  let '(start_positions, end_positions, _) :=
    positions_loop (get_multi_scale_patches max_scale) in
  (start_positions, end_positions).

(** [VAR.__init__], line 160: [sum(s * s for s in self.scales)]. *)
Definition total_seq_len_of (scales : list Z) : Z :=
  fold_left Z.add (map (fun s => s * s) scales) 0.

Definition total_seq_len (max_scale : Z) : Z :=
  total_seq_len_of (get_multi_scale_patches max_scale).

(** [scale_to_patches]. *)
Definition scale_to_patches (scale_idx : Z) : Z := scale_idx + 1.

(** The sum of the first [n] squares, written independently of the code. *)
Fixpoint sum_squares (n : nat) : Z :=
  match n with
  | O => 0
  | S k => sum_squares k + Z.of_nat (S k) * Z.of_nat (S k)
  end.

Lemma patches_succ (n : nat) :
  get_multi_scale_patches (Z.of_nat (S n)) =
  get_multi_scale_patches (Z.of_nat n) ++ [Z.of_nat (S n)].
Proof.
  unfold get_multi_scale_patches. rewrite !Nat2Z.id.
  rewrite seq_S, map_app. reflexivity.
Qed.

Lemma patches_length (n : nat) :
  length (get_multi_scale_patches (Z.of_nat n)) = n.
Proof.
  unfold get_multi_scale_patches.
  now rewrite length_map, length_seq, Nat2Z.id.
Qed.

Lemma patches_nth (n k : nat) :
  (k < n)%nat ->
  nth k (get_multi_scale_patches (Z.of_nat n)) 0 = Z.of_nat (S k).
Proof.
  intros Hk. unfold get_multi_scale_patches. rewrite Nat2Z.id.
  change 0 with (Z.of_nat 0). rewrite map_nth, seq_nth by lia.
  f_equal.
Qed.

Lemma fold_add_shift (l : list Z) (a : Z) :
  fold_left Z.add l a = a + fold_left Z.add l 0.
Proof.
  revert a. induction l as [|x l IH]; intros a; simpl; [lia|].
  rewrite (IH (a + x)), (IH x). lia.
Qed.

Lemma total_seq_len_sum (n : nat) :
  total_seq_len (Z.of_nat n) = sum_squares n.
Proof.
  unfold total_seq_len. induction n as [|n IH].
  - reflexivity.
  - rewrite patches_succ. unfold total_seq_len_of in *.
    rewrite map_app, fold_left_app. simpl. rewrite IH. reflexivity.
Qed.

(** The loop invariant of [compute_scale_positions] after [n] scales. *)
Record schedule_inv (n : nat) (st : list Z * list Z * Z) : Prop := {
  inv_len_start : length (fst (fst st)) = n;
  inv_len_end : length (snd (fst st)) = n;
  inv_cumulative : snd st = sum_squares n;
  inv_start : forall k, (k < n)%nat -> nth k (fst (fst st)) 0 = sum_squares k;
  inv_end : forall k, (k < n)%nat -> nth k (snd (fst st)) 0 = sum_squares (S k)
}.

Lemma positions_loop_succ (n : nat) :
  positions_loop (get_multi_scale_patches (Z.of_nat (S n))) =
  positions_step (positions_loop (get_multi_scale_patches (Z.of_nat n)))
                 (Z.of_nat (S n)).
Proof.
  unfold positions_loop. rewrite patches_succ, fold_left_app. reflexivity.
Qed.

Lemma positions_loop_inv (n : nat) :
  schedule_inv n (positions_loop (get_multi_scale_patches (Z.of_nat n))).
Proof.
  induction n as [|n IH].
  - split; simpl; auto; intros; lia.
  - rewrite positions_loop_succ.
    destruct (positions_loop (get_multi_scale_patches (Z.of_nat n)))
      as [[starts ends] cum].
    destruct IH as [Hls Hle Hc Hs He]. simpl in *. subst cum.
    split; simpl.
    + rewrite length_app. simpl. lia.
    + rewrite length_app. simpl. lia.
    + reflexivity.
    + intros k Hk. destruct (Nat.eq_dec k n) as [->|Hne].
      * rewrite app_nth2 by lia. rewrite Hls, Nat.sub_diag. reflexivity.
      * rewrite app_nth1 by lia. apply Hs. lia.
    + intros k Hk. destruct (Nat.eq_dec k n) as [->|Hne].
      * rewrite app_nth2 by lia. rewrite Hle, Nat.sub_diag. reflexivity.
      * rewrite app_nth1 by lia. apply He. lia.
Qed.

(** C2. For every [max_scale = S >= 1] the schedule enumerates the scales
    [1..S] and its intervals tile [[0, total_seq_len)]: the first interval
    starts at 0, interval [k+1] starts where interval [k] ends, interval [k]
    holds [k * k] positions, and the last one ends at
    [total_seq_len = 1^2 + ... + S^2], which is 30 for [S = 4] and 204 for
    [S = 8]. Scales are numbered from 1; scale [k] sits at list index [k-1]. *)
Theorem scale_schedule_tiles (max_scale : Z) (HS : 1 <= max_scale) :
  let scales := get_multi_scale_patches max_scale in
  let starts := fst (compute_scale_positions max_scale) in
  let ends := snd (compute_scale_positions max_scale) in
  (Z.of_nat (length scales) = max_scale /\
   forall k, (1 <= k)%nat -> Z.of_nat k <= max_scale ->
             nth (k - 1) scales 0 = Z.of_nat k) /\
  Z.of_nat (length starts) = max_scale /\ Z.of_nat (length ends) = max_scale /\
  nth 0 starts 0 = 0 /\
  (forall k, (1 <= k)%nat -> Z.of_nat k < max_scale ->
             nth k starts 0 = nth (k - 1) ends 0) /\
  (forall k, (1 <= k)%nat -> Z.of_nat k <= max_scale ->
             nth (k - 1) ends 0 - nth (k - 1) starts 0 =
             Z.of_nat k * Z.of_nat k) /\
  nth (Z.to_nat max_scale - 1) ends 0 = total_seq_len max_scale /\
  total_seq_len max_scale = sum_squares (Z.to_nat max_scale) /\
  total_seq_len 4 = 30 /\ total_seq_len 8 = 204.
Proof.
  intros scales starts ends. subst scales starts ends.
  rewrite <- (Z2Nat.id max_scale) in * by lia.
  set (n := Z.to_nat max_scale) in *. assert (Hn : (1 <= n)%nat) by lia.
  clearbody n. clear HS. rewrite Nat2Z.id.
  unfold compute_scale_positions.
  pose proof (positions_loop_inv n) as Hinv.
  destruct (positions_loop (get_multi_scale_patches (Z.of_nat n)))
    as [[starts ends] cum].
  destruct Hinv as [Hls Hle Hc Hs He]. cbn [fst snd] in *.
  repeat split.
  - now rewrite patches_length.
  - intros k Hk1 Hk. rewrite patches_nth by lia. f_equal. lia.
  - now rewrite Hls.
  - now rewrite Hle.
  - now rewrite Hs by lia.
  - intros k Hk1 Hk. rewrite Hs, He by lia. f_equal. lia.
  - intros k Hk1 Hk. destruct k as [|k]; [lia|].
    replace (S k - 1)%nat with k by lia.
    rewrite Hs, He by lia. cbn [sum_squares]. lia.
  - rewrite He by lia. rewrite total_seq_len_sum. f_equal. lia.
  - apply total_seq_len_sum.
Qed.

Lemma scale_schedule_tiles_witness :
  fst (compute_scale_positions 4) = [0; 1; 5; 14] /\
  snd (compute_scale_positions 4) = [1; 5; 14; 30] /\
  nth (Z.to_nat 4 - 1) (snd (compute_scale_positions 4)) 0 = total_seq_len 4.
Proof.
  split; [reflexivity|]. split; [reflexivity|].
  apply (scale_schedule_tiles 4). lia.
Defined.

End ScaleSchedule.

(* ================================================================= *)
(** ** Real-valued tensors *)

Module Tensor.
Local Open Scope R_scope.

Definition vec := list R.

(** Comparisons of tensor entries as booleans. *)
Definition Rltb (a b : R) : bool := if Rlt_dec a b then true else false.

Lemma Rltb_true a b : Rltb a b = true <-> a < b.
Proof. unfold Rltb. destruct (Rlt_dec a b); split; intros; try easy. Qed.

Lemma Rltb_false a b : Rltb a b = false <-> b <= a.
Proof.
  unfold Rltb. destruct (Rlt_dec a b); split; intros; try easy; lra.
Qed.

(** Decides the comparisons of concrete numbers met when a definition is
    evaluated on an example. *)
Ltac eval_Rltb :=
  repeat match goal with
  | |- context [Rltb ?a ?b] =>
      first [ replace (Rltb a b) with true by (symmetry; apply Rltb_true; lra)
            | replace (Rltb a b) with false by (symmetry; apply Rltb_false; lra) ]
  end.

Definition Rsum (l : list R) : R := fold_right Rplus 0 l.

Lemma Rsum_app l1 l2 : Rsum (l1 ++ l2) = Rsum l1 + Rsum l2.
Proof. induction l1 as [|x l1 IH]; simpl; [lra|]. rewrite IH. lra. Qed.

Lemma Rsum_zero l : (forall x, In x l -> x = 0) -> Rsum l = 0.
Proof.
  induction l as [|x l IH]; simpl; intros H; [reflexivity|].
  rewrite (H x) by auto. rewrite IH by auto. lra.
Qed.

Lemma Rsum_nonneg l : (forall x, In x l -> 0 <= x) -> 0 <= Rsum l.
Proof.
  induction l as [|x l IH]; simpl; intros H; [lra|].
  specialize (H x (or_introl eq_refl)) as Hx.
  assert (0 <= Rsum l) by auto. lra.
Qed.

Lemma Rsum_pos l :
  (forall x, In x l -> 0 <= x) -> (exists x, In x l /\ 0 < x) -> 0 < Rsum l.
Proof.
  induction l as [|x l IH]; simpl; intros H [y [Hy Hpos]]; [easy|].
  assert (0 <= Rsum l) by (apply Rsum_nonneg; auto).
  assert (0 <= x) by auto.
  destruct Hy as [->|Hy]; [lra|].
  assert (0 < Rsum l) by (apply IH; eauto). lra.
Qed.

(** Elementwise operations on vectors (equal lengths by construction). *)
Fixpoint vmap2 (f : R -> R -> R) (a b : vec) : vec :=
  match a, b with
  | x :: a', y :: b' => f x y :: vmap2 f a' b'
  | _, _ => []
  end.

Definition vadd : vec -> vec -> vec := vmap2 Rplus.
Definition vmul : vec -> vec -> vec := vmap2 Rmult.
Definition vscale (c : R) (a : vec) : vec := map (Rmult c) a.
Definition dot (a b : vec) : R := Rsum (vmul a b).

(** The sum of two sequences of vectors, position by position. *)
Fixpoint add_rows (a b : list vec) : list vec :=
  match a, b with
  | x :: a', y :: b' => vadd x y :: add_rows a' b'
  | _, _ => []
  end.

(** [torch.cumsum] along the last dimension. *)
Fixpoint cumsum_from (acc : R) (l : list R) : list R :=
  match l with
  | [] => []
  | x :: l' => (acc + x) :: cumsum_from (acc + x) l'
  end.

Definition cumsum (l : list R) : list R := cumsum_from 0 l.

Lemma cumsum_from_length acc l : length (cumsum_from acc l) = length l.
Proof. revert acc; induction l; intros; simpl; auto. Qed.

(** Entries that may be minus infinity. *)
Inductive xreal : Type :=
| NInf : xreal
| Fin : R -> xreal.

Definition is_fin (x : xreal) : bool :=
  match x with NInf => false | Fin _ => true end.

(** [a < b] on extended reals. *)
Definition xltb (a b : xreal) : bool :=
  match a, b with
  | _, NInf => false
  | NInf, Fin _ => true
  | Fin x, Fin y => Rltb x y
  end.

(** [exp], with [exp(-inf) = 0]. *)
Definition xexp (a : xreal) : R :=
  match a with NInf => 0 | Fin r => exp r end.

Lemma xexp_nonneg a : 0 <= xexp a.
Proof. destruct a; simpl; [lra|]. left. apply exp_pos. Qed.

(** [torch.softmax] along the last dimension: [exp(x_j) / sum_k exp(x_k)]
    (torch subtracts the row maximum first, which cancels in the quotient). *)
Definition softmax (l : list xreal) : list R :=
  let es := map xexp l in
  let total := Rsum es in
  map (fun e => e / total) es.

Lemma softmax_length l : length (softmax l) = length l.
Proof. unfold softmax. now rewrite !length_map. Qed.

Lemma xltb_irrefl a : xltb a a = false.
Proof. destruct a; simpl; auto. apply Rltb_false. lra. Qed.

Lemma xltb_trans a b c : xltb a b = true -> xltb b c = true -> xltb a c = true.
Proof.
  destruct a, b, c; simpl; try easy.
  rewrite !Rltb_true. lra.
Qed.

Lemma xltb_fin_lower a r : xltb a (Fin r) = false -> is_fin a = true.
Proof. destruct a; simpl; easy. Qed.

End Tensor.

(* ================================================================= *)
(** ** Sampler ([utils.py], [top_k_top_p_filtering]) *)

(** The order of [torch.sort(..., descending=True)] on (value, index)
    pairs: [a] may stand before [b] when [a]'s value is not below [b]'s. *)
Module DescOrder <: TotalLeBool.
Definition t : Type := (Tensor.xreal * nat)%type.
Definition leb (a b : t) : bool := negb (Tensor.xltb (fst a) (fst b)).
Theorem leb_total : forall a1 a2 : t, leb a1 a2 = true \/ leb a2 a1 = true.
Proof.
  intros [a i] [b j]. unfold leb. simpl.
  destruct (Tensor.xltb a b) eqn:Hab; [right|left; reflexivity].
  destruct (Tensor.xltb b a) eqn:Hba; [|reflexivity].
  pose proof (Tensor.xltb_trans _ _ _ Hab Hba) as H.
  now rewrite Tensor.xltb_irrefl in H.
Qed.
End DescOrder.

Module DescSort := Sort DescOrder.

Module Sampler.
Import Tensor.

(** A logits tensor of shape [[batch_size, vocab_size]]. *)
Definition tensor2 : Type := list (list xreal).

(** Torch tensors are mutable objects passed by reference: the store maps a
    location to the tensor it currently holds. *)
Definition loc : Type := nat.
Definition heap : Type := list tensor2.

Definition heap_get (h : heap) (l : loc) : option tensor2 := nth_error h l.

Fixpoint list_set {A : Type} (l : list A) (i : nat) (v : A) : list A :=
  match l, i with
  | [], _ => []
  | _ :: l', O => v :: l'
  | x :: l', S i' => x :: list_set l' i' v
  end.

Definition heap_set (h : heap) (l : loc) (t : tensor2) : heap := list_set h l t.

(** [torch.sort(row, descending=True)]: the sorted values and, for each,
    the index it came from. *)
Definition sort_desc (row : list xreal) : list xreal * list nat :=
  let s := DescSort.sort (combine row (seq 0 (length row))) in
  (map fst s, map snd s).

(** [torch.topk(logits, top_k)[0][..., -1, None]] for one row: the
    [top_k]-th largest value; [torch.topk] raises when [top_k] exceeds the
    size of the last dimension. *)
Definition topk_threshold (row : list xreal) (top_k : nat) : option xreal :=
  if (top_k <=? length row)%nat
  then Some (nth (top_k - 1) (fst (sort_desc row)) NInf)
  else None.

(** Line 111: [indices_to_remove = logits < threshold]. *)
Definition topk_remove_row (top_k : nat) (row : list xreal) : option (list bool) :=
  match topk_threshold row top_k with
  | Some thr => Some (map (fun x => xltb x thr) row)
  | None => None
  end.

Definition topk_indices_to_remove (t : tensor2) (top_k : nat)
  : option (list (list bool)) :=
  mapM (topk_remove_row top_k) t.

(** [Tensor.scatter(1, index, src)] on one row: a copy of [self] in which
    position [index[j]] holds [src[j]], for [j] in increasing order. *)
Definition scatter {A : Type} (self : list A) (index : list nat) (src : list A)
  : list A :=
  fold_left (fun out (js : nat * A) => list_set out (fst js) (snd js))
            (combine index src) self.

(** Lines 115-127 for one row. Assigning to [sorted_indices_to_remove[..., 0]]
    raises on a row with no entry. *)
Definition topp_remove_row (top_p : R) (row : list xreal) : option (list bool) :=
  let '(sorted_logits, sorted_indices) := sort_desc row in
  let cumulative_probs := cumsum (softmax sorted_logits) in
  let sorted_indices_to_remove := map (fun c => Rltb top_p c) cumulative_probs in
  match sorted_indices_to_remove with
  | [] => None
  | _ :: _ =>
      let sorted_indices_to_remove := false :: removelast sorted_indices_to_remove in
      Some (scatter sorted_indices_to_remove sorted_indices sorted_indices_to_remove)
  end.

Definition topp_indices_to_remove (t : tensor2) (top_p : R)
  : option (list (list bool)) :=
  mapM (topp_remove_row top_p) t.

(** [logits[indices_to_remove] = filter_value]. *)
Definition index_put_row (row : list xreal) (mask : list bool) (v : xreal)
  : list xreal :=
  map (fun xm : xreal * bool => if snd xm then v else fst xm) (combine row mask).

Definition index_put (t : tensor2) (mask : list (list bool)) (v : xreal) : tensor2 :=
  map (fun rm : list xreal * list bool => index_put_row (fst rm) (snd rm) v)
      (combine t mask).

(** [top_k_top_p_filtering]. [logits] is a reference into the store; both
    assignments write through it and the function returns that reference. *)
Definition top_k_top_p_filtering
    (h : heap) (logits : loc) (top_k : Z) (top_p : R) (filter_value : xreal)
  : option (heap * loc) :=
  let store_after_top_k :=
    if (0 <? top_k)%Z then
      match heap_get h logits with
      | Some t =>
          match topk_indices_to_remove t (Z.to_nat top_k) with
          | Some indices_to_remove =>
              Some (heap_set h logits (index_put t indices_to_remove filter_value))
          | None => None
          end
      | None => None
      end
    else Some h in
  match store_after_top_k with
  | None => None
  | Some h1 =>
      if Rltb top_p 1 then
        match heap_get h1 logits with
        | Some t =>
            match topp_indices_to_remove t top_p with
            | Some indices_to_remove =>
                Some (heap_set h1 logits (index_put t indices_to_remove filter_value),
                      logits)
            | None => None
            end
        | None => None
        end
      else Some (h1, logits)
  end.

(** *** Store and list-update lemmas *)

Lemma list_set_length {A} (l : list A) i v : length (list_set l i v) = length l.
Proof. revert i; induction l; intros [|i]; simpl; auto. Qed.

Lemma list_set_nth_same {A} (l : list A) i v d :
  (i < length l)%nat -> nth i (list_set l i v) d = v.
Proof.
  revert i; induction l; intros [|i]; simpl; intros H; try lia; auto.
  apply IHl. lia.
Qed.

Lemma list_set_nth_other {A} (l : list A) i j v d :
  i <> j -> nth j (list_set l i v) d = nth j l d.
Proof.
  revert i j; induction l; intros [|i] [|j]; simpl; intros H; auto; try easy.
Qed.

Lemma list_set_nth_error_same {A} (l : list A) i v :
  (i < length l)%nat -> nth_error (list_set l i v) i = Some v.
Proof.
  revert i; induction l; intros [|i]; simpl; intros H; try lia; auto.
  apply IHl. lia.
Qed.

Lemma list_set_nth_error_other {A} (l : list A) i j v :
  i <> j -> nth_error (list_set l i v) j = nth_error l j.
Proof.
  revert i j; induction l; intros [|i] [|j]; simpl; intros H; auto; try easy.
Qed.

Lemma list_set_twice {A} (l : list A) i v w :
  list_set (list_set l i v) i w = list_set l i w.
Proof. revert i; induction l; intros [|i]; simpl; auto. now rewrite IHl. Qed.

Lemma heap_get_set_same h l t :
  heap_get h l <> None -> heap_get (heap_set h l t) l = Some t.
Proof.
  intros H. apply list_set_nth_error_same. now apply nth_error_Some.
Qed.

Lemma heap_get_set_other h l l' t :
  l <> l' -> heap_get (heap_set h l t) l' = heap_get h l'.
Proof. apply list_set_nth_error_other. Qed.

Lemma index_put_row_map (f : xreal -> bool) row v :
  index_put_row row (map f row) v = map (fun x => if f x then v else x) row.
Proof.
  unfold index_put_row. induction row as [|x row IH]; simpl; auto.
  now rewrite IH.
Qed.


(** *** The descending sort *)

Lemma desc_leb_trans : Transitive (fun a b => is_true (DescOrder.leb a b)).
Proof.
  intros [a i] [b j] [c k]. unfold is_true, DescOrder.leb. simpl.
  rewrite !negb_true_iff. intros Hab Hbc.
  destruct (xltb a c) eqn:Hac; [|reflexivity].
  destruct a as [|a], b as [|b], c as [|c]; simpl in *; try easy.
  apply Rltb_false in Hab, Hbc. apply Rltb_true in Hac. lra.
Qed.

Lemma combine_seq_in {A} (row : list A) start v i :
  In (v, i) (combine row (seq start (length row))) ->
  (start <= i < start + length row)%nat /\ nth_error row (i - start) = Some v.
Proof.
  revert start; induction row as [|x row IH]; simpl; intros start H; [easy|].
  destruct H as [H|H].
  - inversion H; subst. rewrite Nat.sub_diag. split; [lia|reflexivity].
  - apply IH in H. destruct H as [Hr Hn]. split; [lia|].
    replace (i - start)%nat with (S (i - S start)) by lia. exact Hn.
Qed.

Lemma combine_seq_nth {A} (row : list A) start i v :
  nth_error row i = Some v ->
  In (v, (start + i)%nat) (combine row (seq start (length row))).
Proof.
  revert start i; induction row as [|x row IH]; intros start [|i]; simpl;
    intros H; try easy.
  - inversion H; subst. left. f_equal. lia.
  - right. replace (start + S i)%nat with (S start + i)%nat by lia.
    now apply IH.
Qed.

Lemma combine_seq_snd {A} (row : list A) start :
  map snd (combine row (seq start (length row))) = seq start (length row).
Proof.
  revert start; induction row as [|x row IH]; simpl; intros; auto.
  now rewrite IH.
Qed.

Section SortDesc.
Variable row : list xreal.
Let s := DescSort.sort (combine row (seq 0 (length row))).

Lemma sort_desc_perm : Permutation (combine row (seq 0 (length row))) s.
Proof. apply DescSort.Permuted_sort. Qed.

Lemma sort_desc_length : length s = length row.
Proof.
  rewrite <- (Permutation_length sort_desc_perm), length_combine, length_seq.
  lia.
Qed.

Lemma sort_desc_in v i : In (v, i) s -> nth_error row i = Some v.
Proof.
  intros H. apply (Permutation_in _ (Permutation_sym sort_desc_perm)) in H.
  apply combine_seq_in in H. now rewrite Nat.sub_0_r in H.
Qed.

Lemma sort_desc_complete v i : nth_error row i = Some v -> In (v, i) s.
Proof.
  intros H. apply (Permutation_in _ sort_desc_perm).
  now apply (combine_seq_nth row 0).
Qed.

Lemma sort_desc_nodup : NoDup (map snd s).
Proof.
  apply (Permutation_NoDup (l := seq 0 (length row))); [|apply seq_NoDup].
  rewrite <- (combine_seq_snd row 0). apply Permutation_map, sort_desc_perm.
Qed.

Lemma sort_desc_head_max v0 i0 rest v i :
  s = (v0, i0) :: rest -> In (v, i) s -> xltb v0 v = false.
Proof.
  intros Hs Hin.
  pose proof (DescSort.StronglySorted_sort
                (combine row (seq 0 (length row))) desc_leb_trans) as Hss.
  fold s in Hss. rewrite Hs in Hss, Hin. inversion Hss as [|a l _ Hall]; subst.
  destruct Hin as [Hin|Hin].
  - inversion Hin; subst. apply xltb_irrefl.
  - rewrite Forall_forall in Hall. specialize (Hall _ Hin).
    unfold is_true, DescOrder.leb in Hall. simpl in Hall.
    now apply negb_true_iff in Hall.
Qed.

End SortDesc.

(** *** Each filter keeps the largest logit of a row *)

(** A row is alive when some entry is not minus infinity. *)
Definition row_alive (row : list xreal) : Prop :=
  exists i x, nth_error row i = Some (Fin x).

Lemma index_put_row_nth_error row mask v i :
  length mask = length row ->
  nth_error (index_put_row row mask v) i =
  option_map (fun x => if nth i mask false then v else x) (nth_error row i).
Proof.
  unfold index_put_row. revert mask i.
  induction row as [|y row IH]; intros [|m mask] [|i]; simpl; intros Hl;
    try easy.
  apply IH; auto.
Qed.

Lemma sort_desc_head (row : list xreal) :
  row_alive row ->
  exists v0 i0 rest,
    DescSort.sort (combine row (seq 0 (length row))) = (Fin v0, i0) :: rest /\
    nth_error row i0 = Some (Fin v0).
Proof.
  intros (i & x & Hx).
  destruct (DescSort.sort (combine row (seq 0 (length row))))
    as [|[v0 i0] rest] eqn:Hs.
  - apply sort_desc_complete in Hx. rewrite Hs in Hx. easy.
  - pose proof (sort_desc_complete row _ _ Hx) as Hin.
    pose proof (sort_desc_head_max row v0 i0 rest _ _ Hs Hin) as Hmax.
    apply xltb_fin_lower in Hmax. destruct v0 as [|v0]; [easy|].
    exists v0, i0, rest. split; auto.
    apply sort_desc_in. rewrite Hs. now left.
Qed.

Lemma topk_row_total top_k row :
  (top_k <= length row)%nat -> exists mask, topk_remove_row top_k row = Some mask.
Proof.
  intros H. unfold topk_remove_row, topk_threshold.
  apply Nat.leb_le in H. rewrite H. now eexists.
Qed.

Lemma topk_row_shape top_k row mask :
  topk_remove_row top_k row = Some mask ->
  (top_k <= length row)%nat /\ length mask = length row.
Proof.
  unfold topk_remove_row, topk_threshold.
  destruct (top_k <=? length row)%nat eqn:Hk; [|easy].
  intros H; inversion H; subst. rewrite length_map.
  apply Nat.leb_le in Hk. auto.
Qed.

Lemma topk_row_survivor top_k row mask v :
  (1 <= top_k)%nat -> row_alive row ->
  topk_remove_row top_k row = Some mask ->
  row_alive (index_put_row row mask v).
Proof.
  intros Hk1 Halive Hmask.
  destruct (topk_row_shape _ _ _ Hmask) as [Hk _].
  destruct (sort_desc_head row Halive) as (v0 & i0 & rest & Hs & Hi0).
  unfold topk_remove_row, topk_threshold, sort_desc in Hmask.
  apply Nat.leb_le in Hk. rewrite Hk in Hmask. apply Nat.leb_le in Hk.
  inversion Hmask; subst mask; clear Hmask. cbn [fst].
  rewrite index_put_row_map.
  set (thr := nth (top_k - 1) _ NInf).
  assert (Hthr : xltb (Fin v0) thr = false).
  { assert (Hin : In thr (map fst (DescSort.sort (combine row (seq 0 (length row)))))).
    { apply nth_In. rewrite length_map, sort_desc_length. lia. }
    apply in_map_iff in Hin. destruct Hin as ([w j] & Hw & Hin). simpl in Hw.
    subst w. eapply sort_desc_head_max; eauto. }
  exists i0, v0. rewrite nth_error_map, Hi0. cbn [option_map]. now rewrite Hthr.
Qed.

Lemma scatter_step_length {A} (l : list (nat * A)) out :
  length (fold_left (fun out (js : nat * A) => list_set out (fst js) (snd js)) l out)
  = length out.
Proof.
  revert out; induction l as [|[j x] l IH]; simpl; intros; auto.
  now rewrite IH, list_set_length.
Qed.

Lemma scatter_step_untouched {A} (l : list (nat * A)) out i d :
  ~ In i (map fst l) ->
  nth i (fold_left (fun out (js : nat * A) => list_set out (fst js) (snd js)) l out) d
  = nth i out d.
Proof.
  revert out; induction l as [|[j x] l IH]; simpl; intros out H; auto.
  rewrite IH by tauto. apply list_set_nth_other. tauto.
Qed.

(** [scatter] along a permutation puts [src[0]] at position [index[0]]. *)
Lemma scatter_head {A} (self : list A) i0 idx x0 src d :
  (i0 < length self)%nat -> ~ In i0 idx ->
  nth i0 (scatter self (i0 :: idx) (x0 :: src)) d = x0.
Proof.
  intros Hi Hnot. unfold scatter. simpl.
  rewrite scatter_step_untouched.
  - now apply list_set_nth_same.
  - intros Hin. apply Hnot. apply in_map_iff in Hin.
    destruct Hin as ([j y] & Hj & Hin). simpl in Hj. subst j.
    eapply in_combine_l; eauto.
Qed.

Lemma removelast_length {A} (l : list A) :
  length (removelast l) = (length l - 1)%nat.
Proof.
  induction l as [|x [|y l] IH]; simpl in *; auto. rewrite IH. lia.
Qed.

Lemma topp_row_shape top_p row mask :
  topp_remove_row top_p row = Some mask -> length mask = length row.
Proof.
  unfold topp_remove_row, sort_desc.
  set (s := DescSort.sort _).
  destruct (map _ (cumsum _)) as [|b bs] eqn:Hm; [easy|].
  intros H; inversion H; subst mask; clear H.
  unfold scatter. rewrite scatter_step_length.
  change (length (false :: removelast (b :: bs)) = length row).
  cbn [length]. rewrite removelast_length.
  apply (f_equal (@length bool)) in Hm.
  unfold cumsum in Hm.
  rewrite length_map, cumsum_from_length, softmax_length, length_map in Hm.
  subst s. rewrite sort_desc_length in Hm. cbn [length] in *. lia.
Qed.

Lemma topp_row_total top_p row :
  row <> [] -> exists mask, topp_remove_row top_p row = Some mask.
Proof.
  intros Hne. unfold topp_remove_row, sort_desc.
  destruct (map _ (cumsum _)) as [|b bs] eqn:Hm; [|now eexists].
  apply (f_equal (@length bool)) in Hm. unfold cumsum in Hm.
  rewrite length_map, cumsum_from_length, softmax_length, length_map,
    sort_desc_length in Hm.
  destruct row; simpl in *; easy.
Qed.

Lemma topp_row_survivor top_p row mask v :
  row_alive row ->
  topp_remove_row top_p row = Some mask ->
  row_alive (index_put_row row mask v).
Proof.
  intros Halive Hmask.
  pose proof (topp_row_shape _ _ _ Hmask) as Hlen.
  destruct (sort_desc_head row Halive) as (v0 & i0 & rest & Hs & Hi0).
  assert (Hfalse : nth i0 mask false = false).
  { pose proof (sort_desc_nodup row) as Hnd.
    unfold topp_remove_row, sort_desc in Hmask. cbv zeta in Hnd.
    rewrite Hs in Hmask, Hnd.
    destruct (map _ (cumsum _)) as [|b bs] eqn:Hm; [easy|].
    inversion Hmask as [Hmask']. cbn [map snd fst] in *.
    inversion Hnd as [|? ? Hnot _]; subst.
    apply scatter_head; auto.
    unfold scatter in Hlen. rewrite scatter_step_length in Hlen.
    rewrite Hlen. apply nth_error_Some. congruence. }
  exists i0, v0.
  rewrite index_put_row_nth_error, Hi0 by auto. cbn [option_map].
  now rewrite Hfalse.
Qed.

(** *** The whole tensor *)

(** The value [logits] holds after the [top_k] block, and after the [top_p]
    block, as functions of the value it held before. *)
Definition after_top_k (t : tensor2) (top_k : Z) (filter_value : xreal)
  : option tensor2 :=
  if (0 <? top_k)%Z
  then option_map (fun m => index_put t m filter_value)
                  (topk_indices_to_remove t (Z.to_nat top_k))
  else Some t.

Definition after_top_p (t : tensor2) (top_p : R) (filter_value : xreal)
  : option tensor2 :=
  if Rltb top_p 1
  then option_map (fun m => index_put t m filter_value)
                  (topp_indices_to_remove t top_p)
  else Some t.

(** Entry [(b, v)] is marked in [indices_to_remove] of the [top_k] block,
    respectively of the [top_p] block. *)
Definition topk_flags (t : tensor2) (top_k : Z) (b v : nat) : Prop :=
  (0 < top_k)%Z /\
  exists m, topk_indices_to_remove t (Z.to_nat top_k) = Some m /\
            nth v (nth b m []) false = true.

Definition topp_flags (t : tensor2) (top_p : R) (b v : nat) : Prop :=
  (top_p < 1)%R /\
  exists m, topp_indices_to_remove t top_p = Some m /\
            nth v (nth b m []) false = true.

Definition entry (t : tensor2) (b v : nat) : option xreal :=
  nth_error (nth b t []) v.

Lemma list_set_same {A} (l : list A) i x :
  nth_error l i = Some x -> list_set l i x = l.
Proof.
  revert i; induction l as [|y l IH]; intros [|i]; simpl; intros H; auto.
  - now inversion H.
  - f_equal. now apply IH.
Qed.

Lemma filtering_heap h l t top_k top_p fv :
  heap_get h l = Some t ->
  top_k_top_p_filtering h l top_k top_p fv =
  match after_top_k t top_k fv with
  | Some t1 =>
      match after_top_p t1 top_p fv with
      | Some t2 => Some (heap_set h l t2, l)
      | None => None
      end
  | None => None
  end.
Proof.
  intros Hget. unfold top_k_top_p_filtering, after_top_k, after_top_p.
  assert (Hsome : heap_get h l <> None) by congruence.
  destruct (0 <? top_k)%Z.
  - rewrite Hget.
    destruct (topk_indices_to_remove t (Z.to_nat top_k)) as [m|]; [|reflexivity].
    cbn [option_map]. destruct (Rltb top_p 1).
    + rewrite heap_get_set_same by auto.
      destruct (topp_indices_to_remove _ top_p); [|reflexivity].
      cbn [option_map]. unfold heap_set. now rewrite list_set_twice.
    + reflexivity.
  - destruct (Rltb top_p 1).
    + rewrite Hget. destruct (topp_indices_to_remove t top_p); reflexivity.
    + unfold heap_set. now rewrite (list_set_same h l t).
Qed.

Definition same_shape (t : tensor2) (m : list (list bool)) : Prop :=
  Forall2 (fun row mask => length mask = length row) t m.

Lemma topk_masks_shape t k m :
  topk_indices_to_remove t k = Some m -> same_shape t m.
Proof.
  intros H. apply mapM_Forall2 in H.
  eapply Forall2_impl; [|exact H]. intros row mask Hr.
  now apply topk_row_shape in Hr.
Qed.

Lemma topp_masks_shape t p m :
  topp_indices_to_remove t p = Some m -> same_shape t m.
Proof.
  intros H. apply mapM_Forall2 in H.
  eapply Forall2_impl; [|exact H]. intros row mask Hr.
  now apply topp_row_shape in Hr.
Qed.

Lemma index_put_length t m v :
  same_shape t m -> length (index_put t m v) = length t.
Proof.
  intros H. unfold index_put. rewrite length_map, length_combine.
  apply Forall2_length in H. lia.
Qed.

Lemma index_put_nth t m v b :
  same_shape t m ->
  nth b (index_put t m v) [] = index_put_row (nth b t []) (nth b m []) v.
Proof.
  intros H. revert b. unfold index_put.
  induction H as [|row mask t m Hrm _ IH]; intros [|b]; simpl; auto.
Qed.

Lemma index_put_entry t m v b i :
  same_shape t m ->
  entry (index_put t m v) b i =
  option_map (fun x => if nth i (nth b m []) false then v else x) (entry t b i).
Proof.
  intros H. unfold entry. rewrite index_put_nth by auto.
  apply index_put_row_nth_error.
  revert b. induction H; intros [|b]; simpl; auto.
Qed.

Lemma index_put_alive (f : list xreal -> option (list bool)) t m v :
  (forall row mask, row_alive row -> f row = Some mask ->
                    row_alive (index_put_row row mask v)) ->
  mapM f t = Some m -> Forall row_alive t ->
  Forall row_alive (index_put t m v).
Proof.
  intros Hf Hm Halive. apply mapM_Forall2 in Hm. unfold index_put.
  induction Hm as [|row mask t m Hrm _ IH]; simpl; [constructor|].
  inversion Halive; subst. constructor; eauto.
Qed.

Lemma after_top_k_alive t top_k fv t1 :
  Forall row_alive t -> after_top_k t top_k fv = Some t1 ->
  Forall row_alive t1 /\ length t1 = length t.
Proof.
  unfold after_top_k. intros Halive H.
  destruct (0 <? top_k)%Z eqn:Hk; [|inversion H; subst; auto].
  destruct (topk_indices_to_remove t (Z.to_nat top_k)) as [m|] eqn:Hm; [|easy].
  inversion H; subst. split.
  - eapply index_put_alive; eauto. intros row mask Hr Hmask.
    apply (topk_row_survivor (Z.to_nat top_k) row mask fv); auto.
    apply Z.ltb_lt in Hk. lia.
  - eapply index_put_length, topk_masks_shape; eauto.
Qed.

Lemma after_top_p_alive t top_p fv t2 :
  Forall row_alive t -> after_top_p t top_p fv = Some t2 ->
  Forall row_alive t2 /\ length t2 = length t.
Proof.
  unfold after_top_p. intros Halive H.
  destruct (Rltb top_p 1); [|inversion H; subst; auto].
  destruct (topp_indices_to_remove t top_p) as [m|] eqn:Hm; [|easy].
  inversion H; subst. split.
  - eapply index_put_alive; eauto. intros row mask Hr Hmask.
    eapply topp_row_survivor; eauto.
  - eapply index_put_length, topp_masks_shape; eauto.
Qed.

Lemma row_alive_nonempty row : row_alive row -> row <> [].
Proof. intros (i & x & H) ->. now destruct i. Qed.

Lemma after_top_k_total t top_k fv :
  Forall (fun row => (Z.to_nat top_k <= length row)%nat) t ->
  exists t1, after_top_k t top_k fv = Some t1.
Proof.
  intros H. unfold after_top_k. destruct (0 <? top_k)%Z; [|now eexists].
  destruct (mapM_total (topk_remove_row (Z.to_nat top_k)) t) as [m Hm].
  - eapply Forall_impl; [|exact H]. intros row. apply topk_row_total.
  - unfold topk_indices_to_remove. rewrite Hm. now eexists.
Qed.

Lemma after_top_p_total t top_p fv :
  Forall row_alive t -> exists t2, after_top_p t top_p fv = Some t2.
Proof.
  intros H. unfold after_top_p. destruct (Rltb top_p 1); [|now eexists].
  destruct (mapM_total (topp_remove_row top_p) t) as [m Hm].
  - eapply Forall_impl; [|exact H]. intros row Hr.
    apply topp_row_total. now apply row_alive_nonempty.
  - unfold topp_indices_to_remove. rewrite Hm. now eexists.
Qed.





(** C5. Top-k filtering followed by top-p filtering never masks a whole row:
    when every row of the logits holds an entry that is not minus infinity,
    so does every row of the tensor the call leaves behind, for any [top_k]
    and any [top_p]; and the call does return whenever [top_k] does not
    exceed the row size (for a larger [top_k], [torch.topk] raises and no
    filtered tensor exists). *)
Theorem filtering_keeps_a_logit
    (h : heap) (logits : loc) (t : tensor2) (top_k : Z) (top_p : R) :
  heap_get h logits = Some t ->
  Forall row_alive t ->
  (Forall (fun row => (Z.to_nat top_k <= length row)%nat) t ->
   exists h', top_k_top_p_filtering h logits top_k top_p NInf = Some (h', logits))
  /\
  (forall h' r,
     top_k_top_p_filtering h logits top_k top_p NInf = Some (h', r) ->
     exists t', heap_get h' r = Some t' /\ length t' = length t /\
                Forall row_alive t').
Proof.
  intros Hget Halive. rewrite (filtering_heap h logits t) by auto. split.
  - intros Hk. destruct (after_top_k_total t top_k NInf Hk) as [t1 H1].
    rewrite H1. destruct (after_top_k_alive _ _ _ _ Halive H1) as [Ha1 _].
    destruct (after_top_p_total t1 top_p NInf Ha1) as [t2 H2].
    rewrite H2. now eexists.
  - intros h' r H.
    destruct (after_top_k t top_k NInf) as [t1|] eqn:H1; [|easy].
    destruct (after_top_p t1 top_p NInf) as [t2|] eqn:H2; [|easy].
    inversion H; subst. exists t2.
    destruct (after_top_k_alive _ _ _ _ Halive H1) as [Ha1 Hl1].
    destruct (after_top_p_alive _ _ _ _ Ha1 H2) as [Ha2 Hl2].
    split; [|split; [congruence|auto]].
    apply heap_get_set_same. congruence.
Qed.

Lemma filtering_keeps_a_logit_witness :
  exists h', top_k_top_p_filtering [[[Fin 1; Fin 2]]] 0 1 (1 / 2) NInf
             = Some (h', 0%nat).
Proof.
  apply (filtering_keeps_a_logit [[[Fin 1; Fin 2]]] 0 [[Fin 1; Fin 2]] 1 (1 / 2)).
  - reflexivity.
  - constructor; [|constructor]. exists 0%nat, 1%R. reflexivity.
  - constructor; [|constructor]. simpl. lia.
Defined.

Lemma after_top_p_flagged t top_p fv t2 b v :
  after_top_p t top_p fv = Some t2 ->
  (topp_flags t top_p b v -> entry t2 b v = Some fv) /\
  (entry t b v = Some fv -> entry t2 b v = Some fv).
Proof.
  unfold after_top_p, topp_flags. intros H.
  destruct (Rltb top_p 1) eqn:Hp.
  - destruct (topp_indices_to_remove t top_p) as [m|] eqn:Hm; [|easy].
    inversion H; subst. pose proof (topp_masks_shape _ _ _ Hm) as Hshape.
    split.
    + intros [_ (m' & Hm' & Hflag)]. inversion Hm'; subst m'.
      rewrite index_put_entry, Hflag by auto.
      destruct (entry t b v) as [x|] eqn:He; [reflexivity|].
      exfalso. unfold entry in He. apply nth_error_None in He.
      assert (Hl : length (nth b m []) = length (nth b t [])).
      { clear -Hshape. revert b. induction Hshape; intros [|b]; simpl; auto. }
      rewrite nth_overflow in Hflag by lia. easy.
    + intros He. rewrite index_put_entry, He by auto. simpl.
      now destruct (nth v (nth b m []) false).
  - inversion H; subst. split; [|auto].
    intros [Hlt _]. apply Rltb_false in Hp. lra.
Qed.

Lemma after_top_k_flagged t top_k fv t1 b v :
  after_top_k t top_k fv = Some t1 ->
  topk_flags t top_k b v -> entry t1 b v = Some fv.
Proof.
  unfold after_top_k, topk_flags. intros H [Hk (m & Hm & Hflag)].
  apply Z.ltb_lt in Hk. rewrite Hk, Hm in H. inversion H; subst.
  pose proof (topk_masks_shape _ _ _ Hm) as Hshape.
  rewrite index_put_entry, Hflag by auto.
  destruct (entry t b v) as [x|] eqn:He; [reflexivity|].
  exfalso. unfold entry in He. apply nth_error_None in He.
  assert (Hl : length (nth b m []) = length (nth b t [])).
  { clear -Hshape. revert b. induction Hshape; intros [|b]; simpl; auto. }
  rewrite nth_overflow in Hflag by lia. easy.
Qed.

(** C10. [top_k_top_p_filtering] works in place. The reference it returns
    is the caller's [logits]; no other tensor of the store changes; every
    entry that [indices_to_remove] marks, in the [top_k] block or in the
    [top_p] block, holds [filter_value] in the caller's tensor afterwards;
    so as soon as one marked entry held another value before the call, the
    caller's tensor no longer has its original contents. *)
Theorem filtering_mutates_argument
    (h h' : heap) (logits r : loc) (t : tensor2)
    (top_k : Z) (top_p : R) (filter_value : xreal) :
  heap_get h logits = Some t ->
  top_k_top_p_filtering h logits top_k top_p filter_value = Some (h', r) ->
  r = logits /\
  (forall l, l <> logits -> heap_get h' l = heap_get h l) /\
  exists t1 t',
    after_top_k t top_k filter_value = Some t1 /\
    heap_get h' logits = Some t' /\
    (forall b v,
       topk_flags t top_k b v \/ topp_flags t1 top_p b v ->
       entry t' b v = Some filter_value) /\
    ((exists b v, (topk_flags t top_k b v \/ topp_flags t1 top_p b v) /\
                  entry t b v <> Some filter_value) ->
     heap_get h' logits <> heap_get h logits).
Proof.
  intros Hget Hcall. rewrite (filtering_heap h logits t) in Hcall by auto.
  destruct (after_top_k t top_k filter_value) as [t1|] eqn:H1; [|easy].
  destruct (after_top_p t1 top_p filter_value) as [t2|] eqn:H2; [|easy].
  inversion Hcall; subst h' r; clear Hcall.
  assert (Hnew : heap_get (heap_set h logits t2) logits = Some t2)
    by (apply heap_get_set_same; congruence).
  assert (Hflag : forall b v,
             topk_flags t top_k b v \/ topp_flags t1 top_p b v ->
             entry t2 b v = Some filter_value).
  { intros b v Hf.
    destruct (after_top_p_flagged t1 top_p filter_value t2 b v H2)
      as [Hmarked Hkept].
    destruct Hf as [Hk|Hp]; [|now apply Hmarked].
    apply Hkept. eapply after_top_k_flagged; eauto. }
  split; [reflexivity|]. split.
  - intros l Hl. apply heap_get_set_other. auto.
  - exists t1, t2. repeat split; auto.
    intros (b & v & Hf & Hold) Heq. rewrite Hnew, Hget in Heq.
    inversion Heq; subst t2. apply Hold. now apply Hflag.
Qed.

(** [top_k = 1] on the row [1, 2]: the caller's tensor becomes [-inf, 2]. *)
Example filtering_top1 :
  top_k_top_p_filtering [[[Fin 1; Fin 2]]] 0 1 1 NInf
  = Some ([[[NInf; Fin 2]]], 0%nat).
Proof.
  unfold top_k_top_p_filtering. change (Z.to_nat 1) with 1%nat.
  unfold topk_indices_to_remove, topk_remove_row, topk_threshold, sort_desc.
  cbn. unfold DescOrder.leb. cbn. eval_Rltb. cbn. eval_Rltb. reflexivity.
Qed.

(** [top_k = 2] on the row [1, 3, 2] removes the entry below the
    second largest. *)
Example after_top_k_example :
  after_top_k [[Fin 1; Fin 3; Fin 2]] 2 NInf = Some [[NInf; Fin 3; Fin 2]].
Proof.
  unfold after_top_k. change (Z.to_nat 2) with 2%nat.
  unfold topk_indices_to_remove, topk_remove_row, topk_threshold, sort_desc.
  cbn. unfold DescOrder.leb. repeat (progress (cbn; eval_Rltb)). reflexivity.
Qed.

(** [top_p = 1/4] on the row [0, 0, -inf]: the sorted probabilities are
    1/2, 1/2, 0 and all three cumulative sums exceed 1/4; after the shift
    only the first sorted entry is kept. *)
Example after_top_p_example :
  after_top_p [[Fin 0; Fin 0; NInf]] (1 / 4) NInf = Some [[Fin 0; NInf; NInf]].
Proof.
  unfold after_top_p. eval_Rltb.
  unfold topp_indices_to_remove, topp_remove_row, sort_desc.
  cbn. unfold DescOrder.leb. cbn. eval_Rltb. cbn.
  rewrite exp_0. eval_Rltb. reflexivity.
Qed.

Lemma filtering_mutates_argument_witness :
  heap_get [[[NInf; Fin 2]]] 0 <> heap_get [[[Fin 1; Fin 2]]] 0.
Proof.
  destruct (filtering_mutates_argument
              [[[Fin 1; Fin 2]]] [[[NInf; Fin 2]]] 0 0 [[Fin 1; Fin 2]]
              1 1 NInf eq_refl filtering_top1)
    as (_ & _ & t1 & t' & _ & _ & _ & Hchanged).
  apply Hchanged. exists 0%nat, 0%nat. split; [left|discriminate].
  split; [lia|]. exists [[true; false]]. split; [|reflexivity].
  change (Z.to_nat 1) with 1%nat.
  unfold topk_indices_to_remove, topk_remove_row, topk_threshold, sort_desc.
  cbn. unfold DescOrder.leb. cbn. eval_Rltb. cbn. eval_Rltb. reflexivity.
Defined.

End Sampler.

(* ================================================================= *)
(** ** Differentiable tensor entries *)

(** An entry that takes part in back-propagation is a dual number: its value
    and its derivative along one fixed, arbitrary perturbation of the leaves
    (the encoder output and the codebook). [detach] keeps the value and
    cuts the derivative: it is torch's stop-gradient. *)
Module Autograd.
Local Open Scope R_scope.

Record dual : Type := mkdual { val : R; tan : R }.

Definition dconst (r : R) : dual := mkdual r 0.
Definition dadd (a b : dual) : dual := mkdual (val a + val b) (tan a + tan b).
Definition dsub (a b : dual) : dual := mkdual (val a - val b) (tan a - tan b).
Definition dmul (a b : dual) : dual :=
  mkdual (val a * val b) (val a * tan b + tan a * val b).
Definition dscale (c : R) (a : dual) : dual := mkdual (c * val a) (c * tan a).
Definition detach (a : dual) : dual := mkdual (val a) 0.
Definition dsum (l : list dual) : dual := fold_right dadd (dconst 0) l.

Fixpoint dmap2 (f : dual -> dual -> dual) (a b : list dual) : list dual :=
  match a, b with
  | x :: a', y :: b' => f x y :: dmap2 f a' b'
  | _, _ => []
  end.

(** [F.mse_loss(input, target)] with the default mean reduction, on the
    entries of two tensors of one shape. *)
Definition mse_loss (input target : list dual) : dual :=
  dscale (/ INR (length input))
         (dsum (dmap2 (fun p q => dmul (dsub p q) (dsub p q)) input target)).

Lemma val_dsum l : val (dsum l) = Tensor.Rsum (map val l).
Proof. induction l as [|x l IH]; simpl; auto. now rewrite IH. Qed.

Lemma tan_dsum l : tan (dsum l) = Tensor.Rsum (map tan l).
Proof. induction l as [|x l IH]; simpl; auto. now rewrite IH. Qed.

Lemma map_detach_val l : map val (map detach l) = map val l.
Proof. rewrite map_map. reflexivity. Qed.

End Autograd.

(* ================================================================= *)
(** ** Quantizer and tokenizer ([vqvae.py]) *)

Module VQVAE.
Import Tensor Autograd.
Local Open Scope nat_scope.

(** A contiguous tensor: its shape and its entries in row-major order
    (as many as the product of the sizes). *)
Record tensor (A : Type) : Type := mktensor { shape : list nat; data : list A }.
Arguments mktensor {A} _ _.
Arguments shape {A} _.
Arguments data {A} _.

Definition numel (sh : list nat) : nat := fold_right Nat.mul 1 sh.

Definition tmap {A B} (f : A -> B) (t : tensor A) : tensor B :=
  mktensor (shape t) (map f (data t)).

Definition tvals (t : tensor dual) : tensor R := tmap val t.

(** The four sizes of a 4-dimensional shape. *)
Definition dims4 (sh : list nat) : nat * nat * nat * nat :=
  (nth 0 sh 0, nth 1 sh 0, nth 2 sh 0, nth 3 sh 0).

(** [x.permute(0, 2, 3, 1).contiguous()]: from [[B, C, H, W]] to
    [[B, H, W, C]]; entry [(b, h, w, c)] of the result is entry
    [(b, c, h, w)] of [x]. *)
Definition permute_0231 {A} (d : A) (x : tensor A) : tensor A :=
  let '(B, C, H, W) := dims4 (shape x) in
  mktensor [B; H; W; C]
    (tabulate (B * H * W * C) (fun m =>
       let c := m mod C in
       let w := (m / C) mod W in
       let h := (m / (C * W)) mod H in
       let b := m / (C * W * H) in
       nth (((b * C + c) * H + h) * W + w) (data x) d)).

(** [x.permute(0, 3, 1, 2).contiguous()]: from [[B, H, W, C]] to
    [[B, C, H, W]]. *)
Definition permute_0312 {A} (d : A) (x : tensor A) : tensor A :=
  let '(B, H, W, C) := dims4 (shape x) in
  mktensor [B; C; H; W]
    (tabulate (B * C * H * W) (fun m =>
       let w := m mod W in
       let h := (m / W) mod H in
       let c := (m / (W * H)) mod C in
       let b := m / (W * H * C) in
       nth (((b * H + h) * W + w) * C + c) (data x) d)).

(** Row [n] of a tensor viewed as [[-1, D]]. *)
Definition row {A} (D : nat) (l : list A) (n : nat) : list A :=
  firstn D (skipn (n * D) l).

(** [argmin] of a row: the index of the first minimal value. *)
Fixpoint argmin_from (best_i : nat) (best : R) (i : nat) (l : list R) : nat :=
  match l with
  | [] => best_i
  | y :: l' =>
      if Rltb y best then argmin_from i y (S i) l'
      else argmin_from best_i best (S i) l'
  end.

Definition argmin (l : list R) : option nat :=
  match l with
  | [] => None
  | y :: l' => Some (argmin_from 0 y 1 l')
  end.

Record VectorQuantizer : Type := {
  num_embeddings : nat;
  embedding_dim : nat;
  commitment_cost : R;
  (** [self.embeddings.weight], one row per code *)
  embeddings_weight : list (list dual)
}.

(** [self.embeddings(indices)]: the rows of the codebook, one after another. *)
Definition embedding (weight : list (list dual)) (indices : list nat) : list dual :=
  concat (map (fun i => nth i weight []) indices).

Definition dsq (a : dual) : dual := dmul a a.
Definition ddot (a b : list dual) : dual := dsum (dmap2 dmul a b).

(** One entry of [distances] (lines 50-54):
    [sum(x**2) + sum(w**2) - 2 * (x . w)]. *)
Definition distance (x w : list dual) : dual :=
  dsub (dadd (dsum (map dsq x)) (dsum (map dsq w)))
       (dscale 2 (ddot x w)).

Definition distances_row (weight : list (list dual)) (x : list dual) : list dual :=
  map (distance x) weight.

(** [x.view(-1, embedding_dim)] as the list of its rows; the view does not
    exist when the number of entries is no multiple of [embedding_dim]. *)
Definition view_rows {A} (D : nat) (l : list A) : option (list (list A)) :=
  if (D =? 0) || negb (length l mod D =? 0) then None
  else Some (tabulate (length l / D) (row D l)).

(** Lines 44-57: the permuted input and, for each of its feature vectors,
    the index of the nearest code. *)
Definition nearest_codes (vq : VectorQuantizer) (flat_x : list (list dual))
  : option (list nat) :=
  mapM
    (fun r => argmin (map val (distances_row (embeddings_weight vq) r)))
    flat_x.

(** Lines 63-65, on the entries of [quantized] and [x]:
    [e_latent_loss = mse(quantized.detach(), x)],
    [q_latent_loss = mse(quantized, x.detach())],
    [vq_loss = q_latent_loss + commitment_cost * e_latent_loss]. *)
Definition vq_loss_of (commitment_cost : R) (quantized x : list dual) : dual :=
  let e_latent_loss := mse_loss (map detach quantized) x in
  let q_latent_loss := mse_loss quantized (map detach x) in
  dadd q_latent_loss (dscale commitment_cost e_latent_loss).

(** Line 68, the straight-through estimator [x + (quantized - x).detach()]. *)
Definition straight_through (quantized x : list dual) : list dual :=
  dmap2 dadd x (map detach (dmap2 dsub quantized x)).

(** [VectorQuantizer.forward]: the quantized tensor, the loss and the
    encodings. [permute] raises on a tensor that has not four dimensions,
    and the last [view] when the number of encodings is not [B * H * W]. *)
Definition forward (vq : VectorQuantizer) (x : tensor dual)
  : option (tensor dual * dual * tensor nat) :=
  if negb (length (shape x) =? 4) then None else
  let x := permute_0231 (dconst 0) x in
  let input_shape := shape x in
  match view_rows (embedding_dim vq) (data x) with
  | None => None
  | Some flat_x =>
      match nearest_codes vq flat_x with
      | None => None
      | Some encoding_indices =>
          let quantized :=
            mktensor input_shape (embedding (embeddings_weight vq) encoding_indices) in
          let vq_loss := vq_loss_of (commitment_cost vq) (data quantized) (data x) in
          let quantized :=
            mktensor input_shape (straight_through (data quantized) (data x)) in
          let quantized := permute_0312 (dconst 0) quantized in
          if length encoding_indices =? numel (firstn 3 input_shape) then
            let encodings := mktensor (firstn 3 input_shape) encoding_indices in
            Some (quantized, vq_loss, encodings)
          else None
      end
  end.

(** *** The tokenizer *)

Section Tokenizer.

(** The convolutional encoder and decoder are opaque feature transforms. *)
Variable encoder : tensor dual -> tensor dual.
Variable decoder : tensor dual -> tensor dual.
Variable quantizer : VectorQuantizer.

(** [VQVAE.encode]. *)
Definition encode (x : tensor dual) : option (tensor dual * tensor nat) :=
  let z := encoder x in
  match forward quantizer z with
  | Some (quantized, vq_loss, encodings) => Some (quantized, encodings)
  | None => None
  end.

(** [VQVAE.decode]. *)
Definition decode (quantized : tensor dual) : tensor dual := decoder quantized.

(** [VQVAE.forward]. *)
Definition vqvae_forward (x : tensor dual) : option (tensor dual * dual) :=
  let z := encoder x in
  match forward quantizer z with
  | Some (quantized, vq_loss, encodings) => Some (decoder quantized, vq_loss)
  | None => None
  end.

(** [VQVAE.get_codebook_indices]. *)
Definition get_codebook_indices (x : tensor dual) : option (tensor nat) :=
  match encode x with
  | Some (_, encodings) => Some encodings
  | None => None
  end.

(** [VQVAE.decode_from_indices]; the codebook lookup raises on an index that
    is no row of the codebook, and [permute] unless [indices] has three
    dimensions. *)
Definition decode_from_indices (indices : tensor nat) : option (tensor dual) :=
  if (length (shape indices) =? 3) &&
     forallb (fun i => i <? length (embeddings_weight quantizer)) (data indices)
  then
    let quantized :=
      mktensor (shape indices ++ [embedding_dim quantizer])
               (embedding (embeddings_weight quantizer) (data indices)) in
    let quantized := permute_0312 (dconst 0) quantized in
    Some (decoder quantized)
  else None.

End Tokenizer.

(** The loss as the specification words it: [mse(stopgrad(quantized), input)]
    with weight 1 plus [mse(quantized, stopgrad(input))] scaled by
    [commitment_cost]. *)
Definition spec_vq_loss (commitment_cost : R) (quantized input : list dual) : dual :=
  dadd (dscale 1 (mse_loss (map detach quantized) input))
       (dscale commitment_cost (mse_loss quantized (map detach input))).

(** The mean squared error of two lists of values, and its derivative when
    the first list moves along [da] while the second stays fixed. *)
Fixpoint sq_errors (a b : list R) : list R :=
  match a, b with
  | x :: a', y :: b' => ((x - y) * (x - y))%R :: sq_errors a' b'
  | _, _ => []
  end.

Fixpoint sq_error_slopes (a b da : list R) : list R :=
  match a, b, da with
  | x :: a', y :: b', dx :: da' =>
      (2 * (x - y) * dx)%R :: sq_error_slopes a' b' da'
  | _, _, _ => []
  end.

Definition mse (n : nat) (a b : list R) : R :=
  (/ INR n * Rsum (sq_errors a b))%R.

Definition mse_slope (n : nat) (a b da : list R) : R :=
  (/ INR n * Rsum (sq_error_slopes a b da))%R.

(** The squared Euclidean distance of two vectors of values. *)
Definition sq_dist (a b : list R) : R := Rsum (sq_errors a b).

(** A codebook with at least one code, every code of [embedding_dim]
    entries, [embedding_dim] being positive. *)
Definition codebook_ok (vq : VectorQuantizer) : Prop :=
  length (embeddings_weight vq) = num_embeddings vq /\
  1 <= num_embeddings vq /\ 1 <= embedding_dim vq /\
  Forall (fun w => length w = embedding_dim vq) (embeddings_weight vq).

(** *** The loss *)

Lemma mse_loss_val a b :
  val (mse_loss a b) = mse (length a) (map val a) (map val b).
Proof.
  unfold mse_loss, mse. simpl. f_equal. rewrite val_dsum. f_equal.
  revert b; induction a as [|p a IH]; intros [|q b]; simpl; auto.
  now rewrite IH.
Qed.

Lemma mse_loss_tan_left q x :
  tan (mse_loss q (map detach x)) =
  mse_slope (length q) (map val q) (map val x) (map tan q).
Proof.
  unfold mse_loss, mse_slope. simpl. f_equal. rewrite tan_dsum. f_equal.
  revert x; induction q as [|p q IH]; intros [|y x]; simpl; auto.
  rewrite IH. f_equal. ring.
Qed.

Lemma mse_loss_tan_right q x :
  tan (mse_loss (map detach q) x) =
  mse_slope (length q) (map val x) (map val q) (map tan x).
Proof.
  unfold mse_loss, mse_slope. rewrite length_map. simpl. f_equal.
  rewrite tan_dsum. f_equal.
  revert x; induction q as [|p q IH]; intros [|y x]; simpl; auto.
  rewrite IH. f_equal. ring.
Qed.

Lemma forward_inv vq x q loss enc :
  forward vq x = Some (q, loss, enc) ->
  let xp := permute_0231 (dconst 0) x in
  let qs := embedding (embeddings_weight vq) (data enc) in
  exists flat_x,
    view_rows (embedding_dim vq) (data xp) = Some flat_x /\
    nearest_codes vq flat_x = Some (data enc) /\
    shape enc = firstn 3 (shape xp) /\
    loss = vq_loss_of (commitment_cost vq) qs (data xp) /\
    q = permute_0312 (dconst 0)
          (mktensor (shape xp) (straight_through qs (data xp))).
Proof.
  unfold forward. intros H.
  destruct (negb (length (shape x) =? 4)); [easy|].
  destruct (view_rows _ _) as [flat_x|] eqn:Hview; [|easy].
  destruct (nearest_codes vq flat_x) as [idx|] eqn:Hidx; [|easy].
  destruct (length idx =? _); [|easy].
  injection H as Hq Hloss Henc. subst q loss enc. exists flat_x.
  cbn [data shape]. repeat split; auto.
Qed.

(** C3, as the code has it. The loss is
    [mse(quantized, stopgrad(input)) + commitment_cost * mse(stopgrad(quantized), input)].
    Its value is [(1 + commitment_cost)] times the mean squared error; its
    derivative is the derivative of that error with respect to [quantized]
    (the term that moves the codebook), unscaled, plus [commitment_cost]
    times its derivative with respect to [input] (the commitment term, which
    moves the encoder output). *)
Theorem vq_loss_terms (vq : VectorQuantizer) (x q : tensor dual) (loss : dual)
    (enc : tensor nat) :
  forward vq x = Some (q, loss, enc) ->
  let input := data (permute_0231 (dconst 0) x) in
  let quantized := embedding (embeddings_weight vq) (data enc) in
  let n := length quantized in
  let Q := map val quantized in
  let X := map val input in
  quantized <> [] ->
  loss = dadd (mse_loss quantized (map detach input))
              (dscale (commitment_cost vq) (mse_loss (map detach quantized) input)) /\
  val loss = (mse n Q X + commitment_cost vq * mse n Q X)%R /\
  tan loss = (mse_slope n Q X (map tan quantized)
              + commitment_cost vq * mse_slope n X Q (map tan input))%R.
Proof.
  intros H input quantized n Q X _.
  destruct (forward_inv _ _ _ _ _ H) as (flat_x & _ & _ & _ & Hloss & _).
  subst loss. unfold vq_loss_of. fold input quantized.
  split; [reflexivity|]. split.
  - unfold dadd, dscale. cbn [val].
    rewrite !mse_loss_val, length_map, !map_detach_val. reflexivity.
  - unfold dadd, dscale. cbn [tan].
    rewrite mse_loss_tan_left, mse_loss_tan_right. reflexivity.
Qed.

(** A one-entry input with value 1 that moves at unit speed, and a codebook
    with the single code 0 that stays fixed. *)
Definition vq_one_code : VectorQuantizer :=
  {| num_embeddings := 1; embedding_dim := 1; commitment_cost := (1 / 4)%R;
     embeddings_weight := [[mkdual 0 0]] |}.

Definition x_unit : tensor dual := mktensor [1; 1; 1; 1] [mkdual 1 1].

Example forward_x_unit :
  forward vq_one_code x_unit =
  Some (mktensor [1; 1; 1; 1] [dadd (mkdual 1 1) (detach (dsub (mkdual 0 0) (mkdual 1 1)))],
        vq_loss_of (1 / 4) [mkdual 0 0] [mkdual 1 1],
        mktensor [1; 1; 1] [0]).
Proof. reflexivity. Qed.

Lemma vq_loss_terms_witness :
  tan (vq_loss_of (1 / 4) [mkdual 0 0] [mkdual 1 1]) =
  (mse_slope 1 [0%R] [1%R] [0%R] + 1 / 4 * mse_slope 1 [1%R] [0%R] [1%R])%R.
Proof.
  apply (vq_loss_terms vq_one_code x_unit _ _ _ forward_x_unit).
  discriminate.
Defined.

(** C3 with the weights as the specification places them fails: on
    [x_unit] the derivative of the loss the code returns is 1/2, that of
    [spec_vq_loss] is 2. *)
Lemma vq_loss_not_spec_formula :
  exists q loss enc,
    forward vq_one_code x_unit = Some (q, loss, enc) /\
    loss <> spec_vq_loss (commitment_cost vq_one_code)
                         (embedding (embeddings_weight vq_one_code) (data enc))
                         (data (permute_0231 (dconst 0) x_unit)).
Proof.
  do 3 eexists. split; [apply forward_x_unit|].
  intros H. apply (f_equal tan) in H. cbn in H. lra.
Qed.

(** *** Nearest-code selection *)

(** [argmin] returns a position of the row, no entry is smaller than the
    one it points to, and every earlier entry is strictly larger. *)
Lemma argmin_from_spec l : forall pre bi b,
  bi < length pre -> nth bi pre 0%R = b ->
  (forall j, j < length pre -> (b <= nth j pre 0)%R) ->
  (forall j, j < bi -> (b < nth j pre 0)%R) ->
  let r := argmin_from bi b (length pre) l in
  let L := pre ++ l in
  r < length L /\
  (forall j, j < length L -> (nth r L 0 <= nth j L 0)%R) /\
  (forall j, j < r -> (nth r L 0 < nth j L 0)%R).
Proof.
  induction l as [|y l IH]; intros pre bi b Hbi Hb Hmin Hfirst; cbn zeta.
  - simpl. rewrite app_nil_r, Hb. auto.
  - replace (pre ++ y :: l) with ((pre ++ [y]) ++ l)
      by now rewrite <- app_assoc.
    assert (Hlen : length (pre ++ [y]) = S (length pre))
      by (rewrite length_app; simpl; lia).
    simpl. destruct (Rltb y b) eqn:Hyb.
    + apply Rltb_true in Hyb. rewrite <- Hlen.
      apply (IH (pre ++ [y]) (length pre) y).
      * lia.
      * rewrite app_nth2, Nat.sub_diag by lia. reflexivity.
      * intros j Hj. destruct (Nat.eq_dec j (length pre)) as [->|Hne].
        -- rewrite app_nth2, Nat.sub_diag by lia. simpl. lra.
        -- rewrite app_nth1 by lia. specialize (Hmin j). 
           assert (b <= nth j pre 0)%R by (apply Hmin; lia). lra.
      * intros j Hj. rewrite app_nth1 by lia.
        assert (b <= nth j pre 0)%R by (apply Hmin; lia). lra.
    + apply Rltb_false in Hyb. rewrite <- Hlen.
      apply (IH (pre ++ [y]) bi b).
      * lia.
      * rewrite app_nth1 by lia. exact Hb.
      * intros j Hj. destruct (Nat.eq_dec j (length pre)) as [->|Hne].
        -- rewrite app_nth2, Nat.sub_diag by lia. simpl. lra.
        -- rewrite app_nth1 by lia. apply Hmin. lia.
      * intros j Hj. rewrite app_nth1 by lia. now apply Hfirst.
Qed.

Lemma argmin_spec l r :
  argmin l = Some r ->
  r < length l /\
  (forall j, j < length l -> (nth r l 0 <= nth j l 0)%R) /\
  (forall j, j < r -> (nth r l 0 < nth j l 0)%R).
Proof.
  destruct l as [|y l]; simpl; [easy|]. intros H. inversion H; subst.
  apply (argmin_from_spec l [y] 0 y); simpl; auto; try lia.
  - intros j Hj. replace j with 0 by lia. lra.
Qed.

(** *** Shapes *)

Lemma row_tabulate {A} D N (f : nat -> A) n :
  n < N -> row D (tabulate (N * D) f) n = tabulate D (fun c => f (n * D + c)).
Proof.
  intros Hn. unfold row, tabulate.
  rewrite skipn_map, firstn_map, skipn_seq, firstn_seq_min.
  replace (Nat.min D (N * D - n * D)) with D by nia.
  simpl. apply map_seq_offset.
Qed.

Lemma view_rows_exact {A} D N (l : list A) :
  0 < D -> length l = N * D ->
  view_rows D l = Some (tabulate N (row D l)).
Proof.
  intros HD Hl. unfold view_rows. rewrite Hl.
  rewrite Nat.Div0.mod_mul, Nat.div_mul by lia.
  destruct D; [lia|]. reflexivity.
Qed.

(** The flat position of entry [(b, h, w, c)] in a [[B, H, W, C]] tensor
    splits back into its four indices. *)
Lemma unflatten_bhwc H W C b h w c :
  h < H -> w < W -> c < C ->
  let m := ((b * H + h) * W + w) * C + c in
  m mod C = c /\ (m / C) mod W = w /\ (m / (C * W)) mod H = h /\
  m / (C * W * H) = b.
Proof.
  intros Hh Hw Hc m.
  assert (E1 : m / C = (b * H + h) * W + w)
    by (symmetry; apply (Nat.div_unique m C _ c); subst m; lia).
  assert (E2 : m / (C * W) = b * H + h).
  { rewrite <- Nat.Div0.div_div, E1.
    symmetry; apply (Nat.div_unique _ W _ w); lia. }
  repeat split.
  - symmetry; apply (Nat.mod_unique m C ((b * H + h) * W + w)); subst m; lia.
  - rewrite E1. symmetry; apply (Nat.mod_unique _ W (b * H + h)); lia.
  - rewrite E2. symmetry; apply (Nat.mod_unique _ H b); lia.
  - rewrite <- Nat.Div0.div_div, E2.
    symmetry; apply (Nat.div_unique _ H _ h); lia.
Qed.

Lemma flat_index_bound B H W b h w :
  b < B -> h < H -> w < W -> (b * H + h) * W + w < B * H * W.
Proof.
  intros Hb Hh Hw.
  assert (H1 : b * H + h + 1 <= B * H) by nia.
  pose proof (Nat.mul_le_mono_r _ _ W H1). lia.
Qed.

Lemma permute_0231_shape {A} (d : A) x B C H W :
  shape x = [B; C; H; W] ->
  shape (permute_0231 d x) = [B; H; W; C] /\
  length (data (permute_0231 d x)) = B * H * W * C.
Proof.
  intros Hs. unfold permute_0231, dims4. rewrite Hs. simpl.
  now rewrite tabulate_length.
Qed.

Lemma permute_0231_row {A} (d : A) x B C H W b h w :
  shape x = [B; C; H; W] -> b < B -> h < H -> w < W ->
  row C (data (permute_0231 d x)) ((b * H + h) * W + w) =
  tabulate C (fun c => nth (((b * C + c) * H + h) * W + w) (data x) d).
Proof.
  intros Hs Hb Hh Hw. unfold permute_0231, dims4. rewrite Hs. cbn [nth data].
  rewrite row_tabulate by now apply flat_index_bound.
  apply tabulate_ext. intros c Hc.
  destruct (unflatten_bhwc H W C b h w c Hh Hw Hc) as (E1 & E2 & E3 & E4).
  cbv zeta in *. now rewrite E1, E2, E3, E4.
Qed.

Lemma nearest_codes_total vq flat_x :
  1 <= length (embeddings_weight vq) ->
  exists idx, nearest_codes vq flat_x = Some idx.
Proof.
  intros HK. apply mapM_total. apply Forall_forall. intros r _.
  unfold distances_row. destruct (embeddings_weight vq); simpl in *; [lia|].
  now eexists.
Qed.

Lemma forward_codes vq x q loss enc B H W :
  codebook_ok vq -> shape x = [B; embedding_dim vq; H; W] ->
  forward vq x = Some (q, loss, enc) ->
  shape enc = [B; H; W] /\ length (data enc) = B * H * W /\
  forall n, n < B * H * W ->
    argmin (map val (distances_row (embeddings_weight vq)
                       (row (embedding_dim vq)
                            (data (permute_0231 (dconst 0) x)) n)))
    = Some (nth n (data enc) 0).
Proof.
  intros (HK & HK1 & HD & Hrows) Hs Hf.
  destruct (forward_inv _ _ _ _ _ Hf) as (flat_x & Hview & Hidx & Hsh & _).
  destruct (permute_0231_shape (dconst 0) x _ _ _ _ Hs) as [Hps Hpl].
  rewrite (view_rows_exact _ (B * H * W)) in Hview by (auto; lia).
  injection Hview as <-. rewrite Hps in Hsh. simpl in Hsh.
  pose proof (mapM_length _ _ _ Hidx) as Hlen.
  rewrite tabulate_length in Hlen.
  repeat split; auto. intros n Hn.
  unfold nearest_codes in Hidx.
  rewrite <- (mapM_nth _ _ _ n [] 0 Hidx) by (rewrite tabulate_length; lia).
  now rewrite tabulate_nth.
Qed.

Lemma forward_total vq x B H W :
  codebook_ok vq -> shape x = [B; embedding_dim vq; H; W] ->
  exists q loss enc, forward vq x = Some (q, loss, enc).
Proof.
  intros (HK & HK1 & HD & Hrows) Hs. unfold forward.
  replace (negb (length (shape x) =? 4)) with false by now rewrite Hs.
  destruct (permute_0231_shape (dconst 0) x _ _ _ _ Hs) as [Hps Hpl].
  rewrite (view_rows_exact _ (B * H * W)) by (auto; lia).
  destruct (nearest_codes_total vq
              (tabulate (B * H * W)
                 (row (embedding_dim vq) (data (permute_0231 (dconst 0) x)))))
    as [idx Hidx]; [lia|].
  rewrite Hidx, Hps. apply mapM_length in Hidx.
  rewrite tabulate_length in Hidx.
  replace (length idx =? numel (firstn 3 [B; H; W; embedding_dim vq])) with true
    by (symmetry; apply Nat.eqb_eq; simpl; lia).
  now do 3 eexists.
Qed.

Lemma embedding_length weight D idx :
  Forall (fun w => length w = D) weight ->
  Forall (fun i => i < length weight) idx ->
  length (embedding weight idx) = length idx * D.
Proof.
  intros Hw Hidx. unfold embedding.
  induction Hidx as [|i idx Hi _ IH]; simpl; auto.
  rewrite length_app, IH. f_equal.
  rewrite Forall_forall in Hw. apply Hw, nth_In, Hi.
Qed.

Lemma forward_in_range vq x q loss enc B H W :
  codebook_ok vq -> shape x = [B; embedding_dim vq; H; W] ->
  forward vq x = Some (q, loss, enc) ->
  Forall (fun i => i < length (embeddings_weight vq)) (data enc).
Proof.
  intros Hok Hs Hf.
  destruct (forward_codes vq x q loss enc B H W Hok Hs Hf) as (_ & Hlen & Hmin).
  destruct Hok as (HK & _). apply Forall_forall. intros i Hi.
  apply (In_nth _ _ 0) in Hi. destruct Hi as (n & Hn & <-).
  rewrite Hlen in Hn. specialize (Hmin n Hn). apply argmin_spec in Hmin.
  destruct Hmin as [Hr _]. unfold distances_row in Hr.
  now rewrite !length_map in Hr.
Qed.

End VQVAE.

(* ================================================================= *)
(** ** The sequence model ([var_model.py]) *)

Module VARModel.
Import Tensor.
Local Open Scope R_scope.

(** [create_causal_mask] ([utils.py]): [torch.tril(torch.ones(L, L))],
    [True] where attention is allowed. *)
Definition create_causal_mask (seq_len : nat) : list (list bool) :=
  tabulate seq_len (fun i => tabulate seq_len (fun j => (j <=? i)%nat)).

(** [nn.Linear]: [y = W x + b], one row of [weight] per output. *)
Record Linear : Type := { weight : list vec; bias : vec }.

Definition linear (l : Linear) (x : vec) : vec :=
  vadd (map (fun w => dot w x) (weight l)) (bias l).

(** [nn.LayerNorm(d, elementwise_affine=False)] on one vector, with torch's
    default [eps = 1e-5]. *)
Definition layer_norm (x : vec) : vec :=
  let n := INR (length x) in
  let mean := Rsum x / n in
  let var := Rsum (map (fun v => (v - mean) * (v - mean)) x) / n in
  map (fun v => (v - mean) / sqrt (var + / 100000)) x.

(** [AdaptiveLayerNorm]. *)
Record AdaptiveLayerNorm : Type := { adaln_linear : Linear }.

Definition adaln_forward (p : AdaptiveLayerNorm) (x : list vec) (condition : vec)
  : list vec :=
  let x := map layer_norm x in
  let scale_shift := linear (adaln_linear p) condition in
  let half := ((length scale_shift + 1) / 2)%nat in
  let scale := firstn half scale_shift in
  let shift := skipn half scale_shift in
  map (fun xi => vadd (vmul xi (map (Rplus 1) scale)) shift) x.

(** [nn.MultiheadAttention(embed_dim, num_heads, batch_first=True)] used
    as self-attention, dropout inactive. *)
Record MultiheadAttention : Type := {
  embed_dim : nat;
  num_heads : nat;
  in_proj : Linear;
  out_proj : Linear
}.

(** The additive form of a boolean attention mask: minus infinity where
    the mask forbids attention, zero elsewhere, added to the score. *)
Definition masked_score (forbidden : bool) (score : R) : xreal :=
  if forbidden then NInf else Fin (0 + score).

(** One attention head on a sequence of [L] positions: scaled dot-product
    scores, the mask, a softmax over the keys and the weighted sum of the
    values. *)
Definition attention_head (L head_dim : nat) (q k v : list vec)
    (attn_mask : list (list bool)) : list vec :=
  tabulate L (fun i =>
    let q_scaled := vscale (sqrt (1 / INR head_dim)) (nth i q []) in
    let scores :=
      tabulate L (fun j =>
        masked_score (nth j (nth i attn_mask []) false)
                     (dot q_scaled (nth j k []))) in
    let attn := softmax scores in
    tabulate head_dim (fun c =>
      Rsum (tabulate L (fun j => nth j attn 0 * nth c (nth j v []) 0)))).

Definition head_slice (head_dim h : nat) (x : vec) : vec :=
  firstn head_dim (skipn (h * head_dim) x).

Definition mask_has_shape (L : nat) (attn_mask : list (list bool)) : bool :=
  (length attn_mask =? L)%nat &&
  forallb (fun r => (length r =? L)%nat) attn_mask.

(** The attention output for a mask of the right shape: the packed input
    projection split into queries, keys and values, the heads, their
    concatenation and the output projection. *)
Definition mha_apply (p : MultiheadAttention) (x : list vec)
    (attn_mask : list (list bool)) : list vec :=
  let L := length x in
  let E := embed_dim p in
  let head_dim := (E / num_heads p)%nat in
  let qkv := map (linear (in_proj p)) x in
  let q := map (firstn E) qkv in
  let k := map (fun y => firstn E (skipn E y)) qkv in
  let v := map (fun y => skipn (2 * E) y) qkv in
  let heads :=
    tabulate (num_heads p) (fun h =>
      attention_head L head_dim
        (map (head_slice head_dim h) q)
        (map (head_slice head_dim h) k)
        (map (head_slice head_dim h) v) attn_mask) in
  let merged :=
    tabulate L (fun i => concat (map (fun hd => nth i hd []) heads)) in
  map (linear (out_proj p)) merged.

(** [self.attention(x, x, x, attn_mask=attn_mask)]; torch raises when the
    mask is not [L x L]. *)
Definition mha_forward (p : MultiheadAttention) (x : list vec)
    (attn_mask : list (list bool)) : option (list vec) :=
  if mask_has_shape (length x) attn_mask
  then Some (mha_apply p x attn_mask)
  else None.

(** [TransformerBlock]; [ffn] is Linear, GELU, Dropout, Linear, Dropout. *)
Record TransformerBlock : Type := {
  adaLN1 : AdaptiveLayerNorm;
  adaLN2 : AdaptiveLayerNorm;
  attention : MultiheadAttention;
  ffn_in : Linear;
  ffn_out : Linear
}.

(** [VAR]: the attributes and parameters set by [__init__]. *)
Record VAR : Type := {
  vocab_size : Z;
  d_model : Z;
  max_scale : Z;
  num_classes : Z;
  scales : list Z;
  total_seq_len : Z;
  token_embedding : list vec;
  class_embedding : list vec;
  scale_embedding : list vec;
  pos_embedding : list vec;
  transformer_blocks : list TransformerBlock;
  to_logits : Linear
}.

Section Forward.

(** [nn.GELU()], an elementwise function that the model leaves abstract. *)
Variable gelu : R -> R.

Definition ffn (b : TransformerBlock) (x : vec) : vec :=
  linear (ffn_out b) (map gelu (linear (ffn_in b) x)).

(** [TransformerBlock.forward]. *)
Definition block_forward (b : TransformerBlock) (x : list vec) (condition : vec)
    (attn_mask : list (list bool)) : option (list vec) :=
  let x_norm := adaln_forward (adaLN1 b) x condition in
  match mha_forward (attention b) x_norm attn_mask with
  | None => None
  | Some attn_out =>
      let x := add_rows x attn_out in
      let x_norm := adaln_forward (adaLN2 b) x condition in
      let ffn_out := map (ffn b) x_norm in
      Some (add_rows x ffn_out)
  end.

Fixpoint run_blocks (bs : list TransformerBlock) (x : list vec) (condition : vec)
    (attn_mask : list (list bool)) : option (list vec) :=
  match bs with
  | [] => Some x
  | b :: bs' =>
      match block_forward b x condition attn_mask with
      | Some x' => run_blocks bs' x' condition attn_mask
      | None => None
      end
  end.

(** [self.token_embedding(tokens)] and [self.class_embedding(labels)]: an
    index that is no row of the table raises. *)
Definition embedding_lookup (table : list vec) (indices : list nat)
  : option (list vec) :=
  mapM (nth_error table) indices.

(** [x + self.pos_embedding[:, :seq_len, :]] for one batch element, with
    torch's broadcasting of a sequence dimension of size 1. *)
Definition add_pos (x pos_embedding : list vec) (seq_len : nat)
  : option (list vec) :=
  let pos := firstn seq_len pos_embedding in
  if (length pos =? length x)%nat then Some (add_rows x pos)
  else if (length pos =? 1)%nat then
    Some (map (fun xi => vadd xi (nth 0 pos [])) x)
  else if (length x =? 1)%nat then
    Some (map (fun p => vadd (nth 0 x []) p) pos)
  else None.

(** The conditioning vectors, one per batch element (lines 226-229). *)
Definition conditions (m : VAR) (batch : nat) (class_labels : option (list nat))
  : option (list vec) :=
  match class_labels with
  | Some labels => embedding_lookup (class_embedding m) labels
  | None => Some (repeat (repeat 0 (Z.to_nat (d_model m))) batch)
  end.

(** Lines 219-244 for one batch element; [self.dropout] is inactive. *)
Definition forward_sample (m : VAR) (tokens : list nat) (condition : vec)
  : option (list vec) :=
  let seq_len := length tokens in
  match embedding_lookup (token_embedding m) tokens with
  | None => None
  | Some x =>
      match add_pos x (pos_embedding m) seq_len with
      | None => None
      | Some x =>
          let causal_mask := create_causal_mask seq_len in
          let attn_mask := map (map negb) causal_mask in
          match run_blocks (transformer_blocks m) x condition attn_mask with
          | None => None
          | Some x => Some (map (linear (to_logits m)) x)
          end
      end
  end.

(** [VAR.forward(tokens, class_labels, return_loss=False)]: the logits, of
    shape [[B, seq_len, vocab_size]]. [class_labels] holds one label per
    batch element. The loss of [return_loss=True] is computed from these
    logits and the tokens afterwards and does not change them. *)
Definition forward (m : VAR) (tokens : list (list nat))
    (class_labels : option (list nat)) : option (list (list vec)) :=
  match conditions m (length tokens) class_labels with
  | None => None
  | Some conds =>
      if (length conds =? length tokens)%nat
      then mapM (fun tc => forward_sample m (fst tc) (snd tc))
                (combine tokens conds)
      else None
  end.

(** *** [VAR.generate] *)

(** [torch.multinomial(probs, 1)] for one row, driven by a number [u]
    drawn uniformly from [[0, 1)]: the first index whose cumulative weight
    exceeds [u] times the total. Torch raises when the weights do not have
    a positive sum. *)
Fixpoint pick (u : R) (cumulative : list R) (i : nat) : nat :=
  match cumulative with
  | [] => i
  | c :: rest =>
      if Rltb u c then i
      else match rest with
           | [] => i
           | _ :: _ => pick u rest (S i)
           end
  end.

Definition multinomial (probs : list R) (u : R) : option nat :=
  if Rltb 0 (Rsum probs)
  then Some (pick (u * Rsum probs) (cumsum probs) 0)
  else None.

(** The loop state: the rows of [generated] and [generated.shape[1]]. *)
Record gen_state : Type := { generated : list (list nat); seq_len : nat }.

(** Lines 304-323: the logits of the next position for every batch
    element. *)
Definition next_logits (m : VAR) (condition : list vec) (st : gen_state)
  : option (list vec) :=
  if (seq_len st =? 0)%nat then
    Some (map (linear (to_logits m)) condition)
  else if (length condition =? length (generated st))%nat then
    mapM (fun tc =>
            match embedding_lookup (token_embedding m) (fst tc) with
            | None => None
            | Some x =>
                match add_pos x (pos_embedding m) (seq_len st) with
                | None => None
                | Some x =>
                    let causal_mask := create_causal_mask (seq_len st) in
                    let attn_mask := map (map negb) causal_mask in
                    match run_blocks (transformer_blocks m) x (snd tc) attn_mask with
                    | None => None
                    | Some x => Some (linear (to_logits m) (last x []))
                    end
                end
            end)
         (combine (generated st) condition)
  else None.

(** Lines 325-336: one pass through the body of the inner loop. [rng s b]
    is the uniform number that drives the draw for batch element [b] at
    step [s]. Dividing by a zero temperature gives infinite or undefined
    logits, on which [torch.multinomial] raises. *)
Definition generate_step (m : VAR) (condition : list vec)
    (temperature : R) (top_k : Z) (top_p : R) (rng : nat -> nat -> R)
    (st : gen_state) : option gen_state :=
  match next_logits m condition st with
  | None => None
  | Some logits =>
      if Req_dec_T temperature 0 then None else
      let logits := map (map (fun v => Fin (v / temperature))) logits in
      match Sampler.top_k_top_p_filtering [logits] 0%nat top_k top_p NInf with
      | None => None
      | Some (h, filtered_logits) =>
          match Sampler.heap_get h filtered_logits with
          | None => None
          | Some filtered =>
              let probs := map softmax filtered in
              match mapM (fun bp => multinomial (snd bp) (rng (seq_len st) (fst bp)))
                         (combine (seq 0 (length probs)) probs) with
              | None => None
              | Some next_token =>
                  if (length next_token =? length (generated st))%nat then
                    Some {| generated :=
                              map (fun gt => fst gt ++ [snd gt])
                                  (combine (generated st) next_token);
                            seq_len := S (seq_len st) |}
                  else None
              end
          end
      end
  end.

Fixpoint iterate {S : Type} (n : nat) (f : S -> option S) (s : S) : option S :=
  match n with
  | O => Some s
  | Datatypes.S n' =>
      match f s with
      | Some s' => iterate n' f s'
      | None => None
      end
  end.

(** The outer loop over [self.scales]; the inner loop runs
    [scale * scale] times. *)
Fixpoint generate_scales (step : gen_state -> option gen_state)
    (scales : list Z) (st : gen_state) : option gen_state :=
  match scales with
  | [] => Some st
  | scale :: rest =>
      let num_tokens_this_scale := (scale * scale)%Z in
      match iterate (Z.to_nat num_tokens_this_scale) step st with
      | Some st' => generate_scales step rest st'
      | None => None
      end
  end.

(** [VAR.generate]. *)
Definition generate (m : VAR) (batch_size : nat) (class_labels : option (list nat))
    (temperature : R) (top_k : Z) (top_p : R) (rng : nat -> nat -> R)
  : option (list (list nat)) :=
  let empty := {| generated := repeat [] batch_size; seq_len := 0 |} in
  match conditions m batch_size class_labels with
  | None => None
  | Some condition =>
      match generate_scales
              (generate_step m condition temperature top_k top_p rng)
              (scales m) empty with
      | Some st => Some (generated st)
      | None => None
      end
  end.

End Forward.

(** *** [VAR.__init__] *)

Record VARConfig : Type := {
  cfg_vocab_size : Z;
  cfg_d_model : Z;
  cfg_n_layers : Z;
  cfg_n_heads : Z;
  cfg_d_ff : Z;
  cfg_max_scale : Z;
  cfg_num_classes : Z;
  cfg_dropout : R
}.

(** The values drawn by the random initialisers: entry [(i, j)] of each
    embedding table and weight matrix, entry [i] of each bias; for a block,
    [layer] is its position in the stack and [which] tells its five linear
    maps apart. *)
Record Initializer : Type := {
  init_token : nat -> nat -> R;
  init_class : nat -> nat -> R;
  init_scale : nat -> nat -> R;
  init_pos : nat -> nat -> R;
  init_logits : nat -> nat -> R;
  init_weight : nat -> nat -> nat -> nat -> R;
  init_bias : nat -> nat -> nat -> R
}.

Definition matrix (rows cols : nat) (f : nat -> nat -> R) : list vec :=
  tabulate rows (fun i => tabulate cols (f i)).

Definition new_linear (out_features in_features : nat)
    (w : nat -> nat -> R) (b : nat -> R) : Linear :=
  {| weight := matrix out_features in_features w;
     bias := tabulate out_features b |}.

Definition new_block (d_model n_heads d_ff : nat) (init : Initializer)
    (layer : nat) : TransformerBlock :=
  let lin which o i :=
    new_linear o i (init_weight init layer which) (init_bias init layer which) in
  {| adaLN1 := {| adaln_linear := lin 0%nat (2 * d_model)%nat d_model |};
     adaLN2 := {| adaln_linear := lin 1%nat (2 * d_model)%nat d_model |};
     attention := {| embed_dim := d_model; num_heads := n_heads;
                     in_proj := lin 2%nat (3 * d_model)%nat d_model;
                     out_proj := lin 3%nat d_model d_model |};
     ffn_in := lin 4%nat d_ff d_model;
     ffn_out := lin 5%nat d_model d_ff |}.

(** What the torch constructors called by [__init__] require: no table or
    layer of negative size, a dropout rate in [[0, 1]] and, when there is at
    least one block, a positive [d_model] that [n_heads] divides. The code
    itself checks nothing. *)
Definition constructors_accept (cfg : VARConfig) : bool :=
  (0 <=? cfg_vocab_size cfg)%Z && (0 <=? cfg_d_model cfg)%Z &&
  (0 <=? cfg_num_classes cfg)%Z && (0 <=? cfg_max_scale cfg)%Z &&
  negb (Rltb (cfg_dropout cfg) 0) && negb (Rltb 1 (cfg_dropout cfg)) &&
  ((cfg_n_layers cfg <=? 0)%Z ||
   ((0 <? cfg_d_model cfg)%Z && (0 <? cfg_n_heads cfg)%Z &&
    (cfg_d_model cfg mod cfg_n_heads cfg =? 0)%Z && (0 <=? cfg_d_ff cfg)%Z)).

(** The attributes and parameters as [__init__] sets them. *)
Definition VAR_new (cfg : VARConfig) (init : Initializer) : VAR :=
  let d := Z.to_nat (cfg_d_model cfg) in
  let scales := ScaleSchedule.get_multi_scale_patches (cfg_max_scale cfg) in
  let total_seq_len := ScaleSchedule.total_seq_len_of scales in
  {| vocab_size := cfg_vocab_size cfg;
     d_model := cfg_d_model cfg;
     max_scale := cfg_max_scale cfg;
     num_classes := cfg_num_classes cfg;
     scales := scales;
     total_seq_len := total_seq_len;
     token_embedding :=
       matrix (Z.to_nat (cfg_vocab_size cfg)) d (init_token init);
     class_embedding :=
       matrix (Z.to_nat (cfg_num_classes cfg)) d (init_class init);
     scale_embedding :=
       matrix (Z.to_nat (cfg_max_scale cfg)) d (init_scale init);
     pos_embedding :=
       matrix (Z.to_nat total_seq_len) d (init_pos init);
     transformer_blocks :=
       tabulate (Z.to_nat (cfg_n_layers cfg))
         (new_block d (Z.to_nat (cfg_n_heads cfg))
                    (Z.to_nat (cfg_d_ff cfg)) init);
     to_logits :=
       new_linear (Z.to_nat (cfg_vocab_size cfg)) d
                  (init_logits init) (fun _ => 0) |}.

(** [VAR.__init__]: the model, unless a constructor raises. *)
Definition VAR_init (cfg : VARConfig) (init : Initializer) : option VAR :=
  if constructors_accept cfg then Some (VAR_new cfg init) else None.

(** The same model with another scale-embedding table. *)
Definition with_scale_embedding (m : VAR) (table : list vec) : VAR :=
  {| vocab_size := vocab_size m;
     d_model := d_model m;
     max_scale := max_scale m;
     num_classes := num_classes m;
     scales := scales m;
     total_seq_len := total_seq_len m;
     token_embedding := token_embedding m;
     class_embedding := class_embedding m;
     scale_embedding := table;
     pos_embedding := pos_embedding m;
     transformer_blocks := transformer_blocks m;
     to_logits := to_logits m |}.

(** *** Causality of the masked attention *)

Definition causal_attn_mask (L : nat) : list (list bool) :=
  map (map negb) (create_causal_mask L).

Lemma causal_attn_mask_entry L i j :
  (i < L)%nat -> (j < L)%nat ->
  nth j (nth i (causal_attn_mask L) []) false = negb (j <=? i)%nat.
Proof.
  intros Hi Hj. unfold causal_attn_mask, create_causal_mask.
  rewrite (nth_indep _ [] (map negb [])) by now rewrite length_map, tabulate_length.
  rewrite map_nth, tabulate_nth by auto.
  rewrite (nth_indep _ false (negb true)) by now rewrite length_map, tabulate_length.
  rewrite map_nth, tabulate_nth by auto. reflexivity.
Qed.

Lemma causal_attn_mask_shape L : mask_has_shape L (causal_attn_mask L) = true.
Proof.
  unfold mask_has_shape, causal_attn_mask, create_causal_mask.
  rewrite length_map, tabulate_length, Nat.eqb_refl. simpl.
  apply forallb_forall. intros r Hr. apply in_map_iff in Hr.
  destruct Hr as (r' & <- & Hr'). unfold tabulate in Hr'.
  apply in_map_iff in Hr'. destruct Hr' as (i & <- & _).
  rewrite length_map, length_map, length_seq. apply Nat.eqb_refl.
Qed.

(** Keys that are masked out carry weight zero and leave the other
    weights unchanged. *)
Lemma softmax_masked_tail (a z : list xreal) :
  (forall x, In x z -> x = NInf) ->
  softmax (a ++ z) = softmax a ++ repeat 0 (length z).
Proof.
  intros Hz. unfold softmax. rewrite !map_app, Rsum_app.
  assert (Hzero : map xexp z = repeat 0 (length z)).
  { clear -Hz. induction z as [|x z IH]; simpl; auto.
    rewrite (Hz x) by now left. simpl. f_equal. apply IH.
    intros y Hy. apply Hz. now right. }
  rewrite Hzero.
  assert (Hsum : Rsum (repeat 0 (length z)) = 0).
  { apply Rsum_zero. intros x Hx. now apply repeat_spec in Hx. }
  rewrite Hsum, Rplus_0_r. f_equal. clear Hzero Hsum.
  induction (length z) as [|n IH]; simpl; auto.
  rewrite IH. f_equal. unfold Rdiv. ring.
Qed.

Lemma map_const_repeat {A B} (f : A -> B) (b : B) (l : list A) :
  (forall x, In x l -> f x = b) -> map f l = repeat b (length l).
Proof.
  induction l as [|x l IH]; simpl; intros H; auto.
  rewrite H by now left. f_equal. apply IH. intros y Hy. apply H. now right.
Qed.

Lemma nth_firstn_lt {A} (l : list A) n i d :
  (i < n)%nat -> nth i (firstn n l) d = nth i l d.
Proof.
  revert n i; induction l as [|x l IH]; intros [|n] [|i] H; simpl; auto; try lia.
  apply IH. lia.
Qed.

Lemma Rsum_tabulate_split (L n : nat) (f : nat -> R) :
  (n <= L)%nat -> (forall j, (n <= j < L)%nat -> f j = 0) ->
  Rsum (tabulate L f) = Rsum (tabulate n f).
Proof.
  intros Hn Hz. replace L with (n + (L - n))%nat by lia.
  rewrite tabulate_split, Rsum_app.
  rewrite (Rsum_zero (map f _)); [lra|].
  intros x Hx. apply in_map_iff in Hx. destruct Hx as (j & <- & Hj).
  apply in_seq in Hj. apply Hz. lia.
Qed.

(** A position below [n] gets the same attention output from the first
    [n] positions alone as from the whole sequence. *)
Lemma attention_head_prefix (L n head_dim : nat) (q k v : list vec) :
  (n <= L)%nat ->
  attention_head n head_dim (firstn n q) (firstn n k) (firstn n v)
                 (causal_attn_mask n)
  = firstn n (attention_head L head_dim q k v (causal_attn_mask L)).
Proof.
  intros Hn. unfold attention_head. rewrite tabulate_firstn by auto.
  apply tabulate_ext. intros i Hi. cbv zeta.
  rewrite (nth_firstn_lt q) by auto.
  set (qi := vscale _ (nth i q [])).
  set (scores_n := tabulate n _). set (scores_L := tabulate L _).
  assert (Hscores : scores_L = scores_n ++ repeat NInf (L - n)).
  { unfold scores_L, scores_n. replace L with (n + (L - n))%nat at 1 by lia.
    rewrite tabulate_split. f_equal.
    - apply tabulate_ext. intros j Hj.
      rewrite !causal_attn_mask_entry by lia.
      now rewrite (nth_firstn_lt k) by auto.
    - rewrite <- (length_seq (L - n) n) at 2. apply map_const_repeat.
      intros j Hj. apply in_seq in Hj.
      rewrite causal_attn_mask_entry by lia.
      replace (j <=? i)%nat with false by (symmetry; apply Nat.leb_gt; lia).
      reflexivity. }
  assert (Hattn : softmax scores_L = softmax scores_n ++ repeat 0 (L - n)).
  { rewrite Hscores, softmax_masked_tail, repeat_length; auto.
    intros x Hx. now apply repeat_spec in Hx. }
  assert (Hlen : length (softmax scores_n) = n)
    by (unfold scores_n; now rewrite softmax_length, tabulate_length).
  apply tabulate_ext. intros c Hc. rewrite Hattn.
  rewrite (Rsum_tabulate_split L n) by
    (auto; intros j Hj; rewrite app_nth2 by lia;
     rewrite nth_repeat; ring).
  f_equal. apply tabulate_ext. intros j Hj.
  rewrite app_nth1 by lia. now rewrite (nth_firstn_lt v) by auto.
Qed.

Lemma add_rows_prefix n a b :
  add_rows (firstn n a) (firstn n b) = firstn n (add_rows a b).
Proof.
  revert a b; induction n as [|n IH]; intros [|x a] [|y b]; simpl; auto.
  now rewrite IH.
Qed.

Lemma add_rows_length a b :
  length a = length b -> length (add_rows a b) = length a.
Proof.
  revert b; induction a as [|x a IH]; intros [|y b]; simpl; intros H; try easy.
  f_equal. apply IH. lia.
Qed.

Lemma adaln_forward_prefix p n x c :
  adaln_forward p (firstn n x) c = firstn n (adaln_forward p x c).
Proof. unfold adaln_forward. now rewrite !firstn_map. Qed.

Lemma adaln_forward_length p x c : length (adaln_forward p x c) = length x.
Proof. unfold adaln_forward. now rewrite !length_map. Qed.

Lemma mha_apply_length p x mask : length (mha_apply p x mask) = length x.
Proof. unfold mha_apply. now rewrite length_map, tabulate_length. Qed.

Lemma mha_apply_prefix p n x :
  (n <= length x)%nat ->
  mha_apply p (firstn n x) (causal_attn_mask n)
  = firstn n (mha_apply p x (causal_attn_mask (length x))).
Proof.
  intros Hn. unfold mha_apply.
  rewrite length_firstn, Nat.min_l by auto.
  rewrite firstn_map, tabulate_firstn by auto. f_equal.
  apply tabulate_ext. intros i Hi. f_equal.
  unfold tabulate. rewrite !map_map. apply map_ext. intros h.
  rewrite <- !firstn_map.
  rewrite (attention_head_prefix (length x) n) by auto.
  now apply nth_firstn_lt.
Qed.

Lemma mha_forward_causal p x :
  mha_forward p x (causal_attn_mask (length x))
  = Some (mha_apply p x (causal_attn_mask (length x))).
Proof. unfold mha_forward. now rewrite causal_attn_mask_shape. Qed.

Section Causality.
Variable gelu : R -> R.

(** What a block returns under the causal mask of its input. *)
Definition block_causal (b : TransformerBlock) (x : list vec) (condition : vec)
  : list vec :=
  let x_norm := adaln_forward (adaLN1 b) x condition in
  let attn_out := mha_apply (attention b) x_norm (causal_attn_mask (length x)) in
  let x := add_rows x attn_out in
  let x_norm := adaln_forward (adaLN2 b) x condition in
  add_rows x (map (ffn gelu b) x_norm).

Lemma block_forward_causal b x c :
  block_forward gelu b x c (causal_attn_mask (length x))
  = Some (block_causal b x c).
Proof.
  unfold block_forward, block_causal.
  rewrite <- (adaln_forward_length (adaLN1 b) x c) at 1.
  now rewrite mha_forward_causal, adaln_forward_length.
Qed.

Lemma block_causal_length b x c : length (block_causal b x c) = length x.
Proof.
  unfold block_causal.
  assert (H1 : length (add_rows x
                 (mha_apply (attention b) (adaln_forward (adaLN1 b) x c)
                            (causal_attn_mask (length x)))) = length x)
    by (apply add_rows_length; now rewrite mha_apply_length, adaln_forward_length).
  rewrite add_rows_length; auto.
  now rewrite length_map, adaln_forward_length.
Qed.

Lemma block_causal_prefix b n x c :
  (n <= length x)%nat ->
  block_causal b (firstn n x) c = firstn n (block_causal b x c).
Proof.
  intros Hn. unfold block_causal.
  rewrite length_firstn, Nat.min_l by auto.
  rewrite adaln_forward_prefix.
  rewrite <- (adaln_forward_length (adaLN1 b) x c) at 2.
  rewrite mha_apply_prefix by now rewrite adaln_forward_length.
  rewrite adaln_forward_length, add_rows_prefix, adaln_forward_prefix.
  now rewrite <- firstn_map, add_rows_prefix.
Qed.

Fixpoint blocks_causal (bs : list TransformerBlock) (x : list vec) (c : vec)
  : list vec :=
  match bs with
  | [] => x
  | b :: bs' => blocks_causal bs' (block_causal b x c) c
  end.

Lemma blocks_causal_length bs x c : length (blocks_causal bs x c) = length x.
Proof.
  revert x; induction bs as [|b bs IH]; intros x; simpl; auto.
  now rewrite IH, block_causal_length.
Qed.

Lemma run_blocks_causal bs x c :
  run_blocks gelu bs x c (causal_attn_mask (length x))
  = Some (blocks_causal bs x c).
Proof.
  revert x; induction bs as [|b bs IH]; intros x; simpl; auto.
  rewrite block_forward_causal.
  rewrite <- (block_causal_length b x c) at 1. apply IH.
Qed.

Lemma blocks_causal_prefix bs n x c :
  (n <= length x)%nat ->
  blocks_causal bs (firstn n x) c = firstn n (blocks_causal bs x c).
Proof.
  revert x; induction bs as [|b bs IH]; intros x Hn; simpl; auto.
  rewrite block_causal_prefix by auto. apply IH.
  now rewrite block_causal_length.
Qed.

End Causality.

(** *** Causality of the forward pass *)

Lemma mapM_firstn {A B} (f : A -> option B) l ys n :
  mapM f l = Some ys -> mapM f (firstn n l) = Some (firstn n ys).
Proof.
  revert l ys; induction n as [|n IH]; intros [|x l] ys H; simpl in *; auto.
  - now inversion H.
  - destruct (f x); [|easy]. destruct (mapM f l) eqn:Hl; [|easy].
    inversion H; subst. now rewrite (IH l l0).
Qed.

Lemma embedding_lookup_total table indices :
  Forall (fun i => (i < length table)%nat) indices ->
  exists x, embedding_lookup table indices = Some x /\
            length x = length indices.
Proof.
  intros H. destruct (mapM_total (nth_error table) indices) as [x Hx].
  - eapply Forall_impl; [|exact H]. intros i Hi. cbv beta in Hi.
    destruct (nth_error table i) eqn:E; [now eexists|].
    apply nth_error_None in E. lia.
  - exists x. split; auto. now apply mapM_length in Hx.
Qed.

Lemma add_pos_in_range x pos L :
  length x = L -> (L <= length pos)%nat ->
  add_pos x pos L = Some (add_rows x (firstn L pos)).
Proof.
  intros Hx HL. unfold add_pos.
  rewrite length_firstn, Nat.min_l, Hx, Nat.eqb_refl by auto. reflexivity.
Qed.

(** Tokens that are rows of the token table, no more of them than there
    are position embeddings. *)
Definition valid_tokens (m : VAR) (tokens : list nat) : Prop :=
  Forall (fun t => (t < length (token_embedding m))%nat) tokens /\
  (length tokens <= length (pos_embedding m))%nat.

Section ForwardCausal.
Variable gelu : R -> R.
Variable m : VAR.

Lemma forward_sample_prefix tokens c :
  valid_tokens m tokens ->
  exists out,
    forward_sample gelu m tokens c = Some out /\
    length out = length tokens /\
    forall n, (n <= length tokens)%nat ->
      forward_sample gelu m (firstn n tokens) c = Some (firstn n out).
Proof.
  intros [Htok Hlen].
  destruct (embedding_lookup_total _ _ Htok) as (x & Hx & Hxl).
  set (x1 := add_rows x (firstn (length tokens) (pos_embedding m))).
  assert (Hx1 : length x1 = length tokens).
  { unfold x1. rewrite add_rows_length; auto.
    rewrite length_firstn, Nat.min_l; auto. }
  exists (map (linear (to_logits m)) (blocks_causal gelu (transformer_blocks m) x1 c)).
  split; [|split].
  - unfold forward_sample. rewrite Hx, (add_pos_in_range x _ _ Hxl Hlen).
    fold x1. fold (causal_attn_mask (length tokens)).
    rewrite <- Hx1 at 1. now rewrite run_blocks_causal.
  - now rewrite length_map, blocks_causal_length.
  - intros n Hn. unfold forward_sample.
    unfold embedding_lookup in *. rewrite (mapM_firstn _ _ _ n Hx).
    rewrite length_firstn, Nat.min_l by auto.
    rewrite add_pos_in_range by (try rewrite length_firstn; lia).
    fold (causal_attn_mask n).
    assert (Hpre : add_rows (firstn n x) (firstn n (pos_embedding m)) = firstn n x1).
    { unfold x1. rewrite <- add_rows_prefix, firstn_firstn.
      now rewrite Nat.min_l by auto. }
    rewrite Hpre.
    assert (Hn1 : length (firstn n x1) = n)
      by (rewrite length_firstn; lia).
    rewrite <- Hn1 at 2. rewrite run_blocks_causal.
    rewrite blocks_causal_prefix by lia. now rewrite firstn_map.
Qed.

(** Two token rows of one length that agree on their first [n] positions. *)
Definition agree_upto (n : nat) {A : Type} (r1 r2 : list A) : Prop :=
  length r1 = length r2 /\ firstn n r1 = firstn n r2.

Lemma forward_sample_causal tokens1 tokens2 c n :
  valid_tokens m tokens1 -> valid_tokens m tokens2 ->
  agree_upto n tokens1 tokens2 ->
  exists out1 out2,
    forward_sample gelu m tokens1 c = Some out1 /\
    forward_sample gelu m tokens2 c = Some out2 /\
    agree_upto n out1 out2.
Proof.
  intros H1 H2 [Hlen Hpre].
  destruct (forward_sample_prefix tokens1 c H1) as (o1 & Ho1 & Hl1 & Hp1).
  destruct (forward_sample_prefix tokens2 c H2) as (o2 & Ho2 & Hl2 & Hp2).
  exists o1, o2. repeat split; auto; [congruence|].
  destruct (Nat.le_gt_cases n (length tokens1)) as [Hn|Hn].
  - specialize (Hp1 n Hn). specialize (Hp2 n ltac:(lia)).
    rewrite Hpre in Hp1. congruence.
  - rewrite !firstn_all2 in Hpre by lia. subst tokens2.
    assert (o1 = o2) by congruence. now subst.
Qed.

Lemma forward_rows_causal n conds : forall tokens1 tokens2,
  Forall2 (agree_upto n) tokens1 tokens2 ->
  Forall (valid_tokens m) tokens1 -> Forall (valid_tokens m) tokens2 ->
  exists logits1 logits2,
    mapM (fun tc => forward_sample gelu m (fst tc) (snd tc))
         (combine tokens1 conds) = Some logits1 /\
    mapM (fun tc => forward_sample gelu m (fst tc) (snd tc))
         (combine tokens2 conds) = Some logits2 /\
    Forall2 (agree_upto n) logits1 logits2.
Proof.
  induction conds as [|c conds IH]; intros tokens1 tokens2 Hag Hv1 Hv2.
  - exists [], []. rewrite !combine_nil. repeat split; constructor.
  - destruct Hag as [|r1 r2 t1 t2 Hr Hag].
    + exists [], []. repeat split; constructor.
    + inversion Hv1; subst. inversion Hv2; subst.
      destruct (forward_sample_causal r1 r2 c n) as (o1 & o2 & E1 & E2 & Ho); auto.
      destruct (IH t1 t2) as (l1 & l2 & F1 & F2 & Hl); auto.
      exists (o1 :: l1), (o2 :: l2). simpl. rewrite E1, E2, F1, F2.
      repeat split; auto.
Qed.

End ForwardCausal.

(** C1. The teacher-forced forward pass is causal. Take two batches of
    token rows that are valid for the model, row by row of equal length and
    equal on positions [0..i], and the same class labels. Both runs return
    logits, and row by row these are equal on positions [0..i]: nothing at
    a position after [i] reaches the logits up to [i]. *)
Theorem forward_causal (gelu : R -> R) (m : VAR)
    (tokens1 tokens2 : list (list nat)) (class_labels : option (list nat))
    (i : nat) :
  Forall (valid_tokens m) tokens1 -> Forall (valid_tokens m) tokens2 ->
  Forall2 (agree_upto (S i)) tokens1 tokens2 ->
  (forall labels, class_labels = Some labels ->
     length labels = length tokens1 /\
     Forall (fun c => (c < length (class_embedding m))%nat) labels) ->
  exists logits1 logits2,
    forward gelu m tokens1 class_labels = Some logits1 /\
    forward gelu m tokens2 class_labels = Some logits2 /\
    Forall2 (agree_upto (S i)) logits1 logits2.
Proof.
  intros Hv1 Hv2 Hag Hlab.
  pose proof (Forall2_length Hag) as HB.
  assert (Hc : exists conds,
             conditions m (length tokens1) class_labels = Some conds /\
             length conds = length tokens1).
  { unfold conditions. destruct class_labels as [labels|].
    - destruct (Hlab labels eq_refl) as [Hl Hr].
      destruct (embedding_lookup_total _ _ Hr) as (x & Hx & Hxl).
      exists x. split; auto. congruence.
    - eexists. split; [reflexivity|]. apply repeat_length. }
  destruct Hc as (conds & Hconds & Hcl).
  destruct (forward_rows_causal gelu m (S i) conds tokens1 tokens2 Hag Hv1 Hv2)
    as (l1 & l2 & F1 & F2 & Hl).
  exists l1, l2. split; [|split; [|exact Hl]]; unfold forward.
  - now rewrite Hconds, Hcl, Nat.eqb_refl.
  - rewrite <- HB. now rewrite Hconds, Hcl, Nat.eqb_refl.
Qed.

(** C9, as the code behaves. [__init__] creates and initialises
    [scale_embedding], but neither [forward] nor [generate] reads it:
    replacing the table by any other leaves the logits and the generated
    tokens unchanged. *)
Theorem scale_embedding_unused (gelu : R -> R) (m : VAR) (table : list vec)
    (tokens : list (list nat)) (class_labels : option (list nat))
    (batch_size : nat) (temperature : R) (top_k : Z) (top_p : R)
    (rng : nat -> nat -> R) :
  forward gelu (with_scale_embedding m table) tokens class_labels
  = forward gelu m tokens class_labels /\
  generate gelu (with_scale_embedding m table) batch_size class_labels
           temperature top_k top_p rng
  = generate gelu m batch_size class_labels temperature top_k top_p rng.
Proof. split; reflexivity. Qed.

(** *** Construction with an empty schedule *)

Lemma VAR_init_accepted cfg init :
  constructors_accept cfg = true ->
  exists m, VAR_init cfg init = Some m /\
            max_scale m = cfg_max_scale cfg /\
            scales m = ScaleSchedule.get_multi_scale_patches (cfg_max_scale cfg) /\
            total_seq_len m = ScaleSchedule.total_seq_len (cfg_max_scale cfg) /\
            length (pos_embedding m) = Z.to_nat (total_seq_len m).
Proof.
  intros H. unfold VAR_init. rewrite H. eexists. split; [reflexivity|].
  unfold VAR_new. cbn [max_scale scales total_seq_len pos_embedding].
  repeat split. unfold matrix. now rewrite tabulate_length.
Qed.

Lemma generate_no_scale gelu m batch_size temperature top_k top_p rng :
  scales m = [] ->
  generate gelu m batch_size None temperature top_k top_p rng
  = Some (repeat [] batch_size).
Proof. intros H. unfold generate. rewrite H. reflexivity. Qed.

(** C7, as the code behaves. Nothing in [__init__] looks at [max_scale].
    A negative value fails, because the scale-embedding table cannot have
    a negative number of rows. The value 0 is accepted whenever the other
    hyper-parameters are: the model is built with an empty schedule, a
    total sequence length of 0 and no position embedding, and [generate]
    then returns [batch_size] empty sequences. *)
Theorem max_scale_zero_accepted (cfg : VARConfig) (init : Initializer) :
  ((cfg_max_scale cfg < 0)%Z -> VAR_init cfg init = None) /\
  (cfg_max_scale cfg = 0%Z -> constructors_accept cfg = true ->
   exists m,
     VAR_init cfg init = Some m /\
     scales m = [] /\ total_seq_len m = 0%Z /\ pos_embedding m = [] /\
     ScaleSchedule.compute_scale_positions (max_scale m) = ([], []) /\
     forall gelu batch_size temperature top_k top_p rng,
       generate gelu m batch_size None temperature top_k top_p rng
       = Some (repeat [] batch_size)).
Proof.
  split.
  - intros Hneg. unfold VAR_init, constructors_accept.
    apply Z.leb_gt in Hneg. rewrite Hneg.
    now rewrite !andb_false_r.
  - intros H0 Hok.
    destruct (VAR_init_accepted cfg init Hok) as (m & Hm & Hms & Hs & Ht & Hp).
    rewrite H0 in *. exists m. split; [exact Hm|].
    assert (Hscales : scales m = []) by (rewrite Hs; reflexivity).
    assert (Htotal : total_seq_len m = 0%Z) by (rewrite Ht; reflexivity).
    repeat split; auto.
    + rewrite Htotal in Hp. now apply length_zero_iff_nil.
    + now rewrite Hms.
    + intros. now apply generate_no_scale.
Qed.

(** The configuration of the tests' smallest model, cut down further, with
    [max_scale = 0]; every parameter starts at 0. *)
Definition cfg_no_scale : VARConfig :=
  {| cfg_vocab_size := 2; cfg_d_model := 1; cfg_n_layers := 1;
     cfg_n_heads := 1; cfg_d_ff := 1; cfg_max_scale := 0;
     cfg_num_classes := 1; cfg_dropout := 0 |}.

Definition init_zero : Initializer :=
  {| init_token := fun _ _ => 0; init_class := fun _ _ => 0;
     init_scale := fun _ _ => 0; init_pos := fun _ _ => 0;
     init_logits := fun _ _ => 0;
     init_weight := fun _ _ _ _ => 0; init_bias := fun _ _ _ => 0 |}.

Lemma cfg_no_scale_accepted : constructors_accept cfg_no_scale = true.
Proof. unfold constructors_accept, cfg_no_scale. cbn. now eval_Rltb. Qed.

(** C7 as the specification states it fails: [max_scale = 0] is not
    rejected. *)
Lemma max_scale_zero_not_rejected :
  VAR_init cfg_no_scale init_zero <> None.
Proof.
  destruct (VAR_init_accepted cfg_no_scale init_zero cfg_no_scale_accepted)
    as (m & Hm & _).
  congruence.
Qed.

Lemma max_scale_zero_accepted_witness :
  exists m, VAR_init cfg_no_scale init_zero = Some m /\ scales m = [].
Proof.
  destruct (proj2 (max_scale_zero_accepted cfg_no_scale init_zero)
                  eq_refl cfg_no_scale_accepted)
    as (m & Hm & Hs & _).
  now exists m.
Defined.

(** *** [generate] runs to the end of the schedule *)

Lemma vmap2_length f a b :
  length (vmap2 f a b) = Nat.min (length a) (length b).
Proof. revert b; induction a; intros [|y b]; simpl; auto. Qed.

Lemma linear_length l x :
  length (linear l x) = Nat.min (length (weight l)) (length (bias l)).
Proof. unfold linear, vadd. now rewrite vmap2_length, length_map. Qed.




Lemma mapM_Forall {A B} (f : A -> option B) (P : B -> Prop) l ys :
  mapM f l = Some ys ->
  (forall x y, In x l -> f x = Some y -> P y) -> Forall P ys.
Proof.
  intros H HP. apply mapM_Forall2 in H.
  induction H as [|x y l ys Hxy _ IH]; constructor.
  - apply (HP x); auto. now left.
  - apply IH. intros x' y' Hin. apply HP. now right.
Qed.

Section Generate.
Variable gelu : R -> R.
Variable m : VAR.

(** The row size of the logits. *)
Definition logits_size : nat := length (weight (to_logits m)).

(** The tables of the model have the sizes [__init__] gives them, and the
    vocabulary is not empty. *)
Definition model_ok : Prop :=
  length (token_embedding m) = logits_size /\
  length (bias (to_logits m)) = logits_size /\
  (1 <= logits_size)%nat /\
  length (pos_embedding m) = Z.to_nat (total_seq_len m) /\
  total_seq_len m = ScaleSchedule.total_seq_len_of (scales m).

(** The loop invariant: [batch] rows of [seq_len] tokens of the
    vocabulary. *)
Definition gen_inv (batch : nat) (st : gen_state) : Prop :=
  length (generated st) = batch /\
  Forall (fun row => length row = seq_len st /\
                     Forall (fun t => (t < logits_size)%nat) row)
         (generated st).

Lemma next_logits_total condition st :
  model_ok -> gen_inv (length condition) st ->
  (seq_len st <= length (pos_embedding m))%nat ->
  exists logits,
    next_logits gelu m condition st = Some logits /\
    length logits = length condition /\
    Forall (fun r => length r = logits_size) logits.
Proof.
  intros (Htok & Hbias & HV & Hpos & _) [HB Hrows] Hlen.
  assert (Hlin : forall x, length (linear (to_logits m) x) = logits_size).
  { intros x. rewrite linear_length, Hbias. apply Nat.min_id. }
  unfold next_logits. destruct (seq_len st =? 0)%nat eqn:Hs0.
  - eexists. split; [reflexivity|]. rewrite length_map. split; auto.
    apply Forall_forall. intros r Hr. apply in_map_iff in Hr.
    destruct Hr as (c & <- & _). apply Hlin.
  - rewrite HB, Nat.eqb_refl.
    set (f := fun tc : list nat * vec => _).
    assert (Hf : forall tc, In tc (combine (generated st) condition) ->
                 exists y, f tc = Some y /\ length y = logits_size).
    { intros [row c] Hin. apply in_combine_l in Hin.
      rewrite Forall_forall in Hrows. destruct (Hrows row Hin) as [Hrl Hrt].
      unfold f. cbn [fst snd].
      destruct (embedding_lookup_total (token_embedding m) row) as (x & Hx & Hxl).
      { eapply Forall_impl; [|exact Hrt]. intros t Ht. cbv beta in Ht. lia. }
      rewrite Hx, (add_pos_in_range x _ (seq_len st)) by (auto; lia).
      fold (causal_attn_mask (seq_len st)).
      set (x1 := add_rows x _).
      assert (Hx1 : length x1 = seq_len st).
      { unfold x1. rewrite add_rows_length; [lia|].
        rewrite length_firstn, Nat.min_l; lia. }
      rewrite <- Hx1. rewrite run_blocks_causal.
      eexists. split; [reflexivity|]. apply Hlin. }
    destruct (mapM_total f (combine (generated st) condition)) as [ys Hys].
    { apply Forall_forall. intros tc Hin.
      destruct (Hf tc Hin) as (y & Hy & _). now exists y. }
    exists ys. split; [exact Hys|]. split.
    + rewrite (mapM_length _ _ _ Hys), length_combine. lia.
    + eapply mapM_Forall; [exact Hys|]. intros tc y Hin Hy.
      destruct (Hf tc Hin) as (y' & Hy' & Hl). congruence.
Qed.




(** The number of passes through the inner loop of [generate]. *)
Definition steps_of (scales : list Z) : nat :=
  fold_right (fun scale acc => (Z.to_nat (scale * scale) + acc)%nat) 0%nat scales.


End Generate.

Lemma steps_of_total scales :
  steps_of scales = Z.to_nat (ScaleSchedule.total_seq_len_of scales) /\
  (0 <= ScaleSchedule.total_seq_len_of scales)%Z.
Proof.
  unfold ScaleSchedule.total_seq_len_of.
  induction scales as [|scale scales [IH Hpos]]; simpl; [split; [reflexivity|lia]|].
  rewrite ScaleSchedule.fold_add_shift.
  pose proof (Z.square_nonneg scale) as Hsq.
  split; [|lia]. rewrite IH, Z2Nat.inj_add by lia. reflexivity.
Qed.

(** The class labels, when given, are one row of the class table per batch
    element. *)
Definition valid_labels (m : VAR) (batch_size : nat)
    (class_labels : option (list nat)) : Prop :=
  forall labels, class_labels = Some labels ->
    length labels = batch_size /\
    Forall (fun c => (c < length (class_embedding m))%nat) labels.



Lemma VAR_init_ok cfg init :
  constructors_accept cfg = true -> (1 <= cfg_vocab_size cfg)%Z ->
  exists m, VAR_init cfg init = Some m /\ model_ok m /\
            logits_size m = Z.to_nat (cfg_vocab_size cfg) /\
            total_seq_len m = ScaleSchedule.total_seq_len (cfg_max_scale cfg).
Proof.
  intros H HV. unfold VAR_init. rewrite H. eexists. split; [reflexivity|].
  unfold VAR_new, model_ok, logits_size, new_linear, matrix.
  cbn [token_embedding to_logits weight bias pos_embedding total_seq_len scales].
  rewrite !tabulate_length. repeat split; auto. lia.
Qed.

(** A model with one scale, two tokens and all parameters at 0. *)
Definition cfg_one_scale : VARConfig :=
  {| cfg_vocab_size := 2; cfg_d_model := 1; cfg_n_layers := 1;
     cfg_n_heads := 1; cfg_d_ff := 1; cfg_max_scale := 1;
     cfg_num_classes := 1; cfg_dropout := 0 |}.

Lemma cfg_one_scale_accepted : constructors_accept cfg_one_scale = true.
Proof. unfold constructors_accept, cfg_one_scale. cbn. now eval_Rltb. Qed.


(** A model with two scales (five positions) and two tokens. *)
Definition cfg_two_scales : VARConfig :=
  {| cfg_vocab_size := 2; cfg_d_model := 1; cfg_n_layers := 1;
     cfg_n_heads := 1; cfg_d_ff := 1; cfg_max_scale := 2;
     cfg_num_classes := 1; cfg_dropout := 0 |}.

Example causal_mask_3 :
  create_causal_mask 3 =
  [[true; false; false]; [true; true; false]; [true; true; true]].
Proof. reflexivity. Qed.

Lemma forward_causal_witness :
  exists logits1 logits2,
    forward (fun x => x) (VAR_new cfg_two_scales init_zero) [[0; 0; 1]]%nat None
    = Some logits1 /\
    forward (fun x => x) (VAR_new cfg_two_scales init_zero) [[0; 1; 0]]%nat None
    = Some logits2 /\
    Forall2 (agree_upto 1) logits1 logits2.
Proof.
  apply (forward_causal (fun x => x) (VAR_new cfg_two_scales init_zero)
                        [[0; 0; 1]]%nat [[0; 1; 0]]%nat None 0%nat).
  - constructor; [|constructor]. split; [|simpl; lia].
    repeat constructor; simpl; lia.
  - constructor; [|constructor]. split; [|simpl; lia].
    repeat constructor; simpl; lia.
  - constructor; [|constructor]. split; reflexivity.
  - intros labels H. discriminate.
Defined.


End VARModel.

(* ================================================================= *)
(** ** The schedule and the token sequence ([utils.py], [trainer.py] and
       the examples) *)

Module ScheduleFacts.
Import ScaleSchedule.
Local Open Scope Z_scope.

(** [x.reshape(rows, cols)] of a flat list: row [r] holds the entries
    [r * cols, ..., r * cols + cols - 1]. *)
Definition grid {A : Type} (rows cols : nat) (l : list A) : list (list A) :=
  tabulate rows (fun r => firstn cols (skipn (r * cols) l)).

(** [rearrange_for_scale]: [tokens[:, :num_tokens].reshape(B, scale, scale)].
    The slice keeps at most [num_tokens] entries of each row; [reshape]
    raises on a negative size and when a row is left with fewer entries. *)
Definition rearrange_for_scale (tokens : list (list nat)) (scale : Z)
  : option (list (list (list nat))) :=
  let num_tokens := scale * scale in
  let sliced := map (firstn (Z.to_nat num_tokens)) tokens in
  if (scale <? 0) ||
     negb (forallb (fun row => (length row =? Z.to_nat num_tokens)%nat) sliced)
  then None
  else Some (map (grid (Z.to_nat scale) (Z.to_nat scale)) sliced).

(** [row[-n:]] for [n >= 0]: the last [n] entries, the whole row when it
    has fewer, and also when [n = 0], since [-0] is [0]. *)
Definition last_tokens {A : Type} (n : Z) (row : list A) : list A :=
  if n =? 0 then row else skipn (length row - Z.to_nat n) row.

(** [x.reshape(count, side, side)] for a matrix [x] given by its rows, the
    entries read in row-major order; [count = -1] lets torch infer the first
    dimension. Torch raises when the entries do not fill the shape. *)
Definition reshape_grids {A : Type} (x : list (list A)) (count side : Z)
  : option (list (list (list A))) :=
  let flat := concat x in
  let numel := Z.of_nat (length flat) in
  let per_grid := side * side in
  let grids n :=
    tabulate n (fun b => grid (Z.to_nat side) (Z.to_nat side)
                              (skipn (b * Z.to_nat per_grid) flat)) in
  if side <? 0 then None
  else if count =? -1 then
    if (per_grid =? 0) || negb (numel mod per_grid =? 0) then None
    else Some (grids (Z.to_nat (numel / per_grid)))
  else if (count <? 0) || negb (numel =? count * per_grid) then None
  else Some (grids (Z.to_nat count)).

(** [examples/generate.py], line 110, and [examples/generate_simple.py],
    line 79:
    [tokens[:, -max_scale*max_scale:].reshape(num_samples, max_scale, max_scale)]. *)
Definition final_scale_tokens (tokens : list (list nat))
    (num_samples max_scale : Z) : option (list (list (list nat))) :=
  reshape_grids (map (last_tokens (max_scale * max_scale)) tokens)
                num_samples max_scale.

(** [VARTrainer.generate_samples], lines 187-194: the grids handed to the
    decoder. [seq_len] is [tokens.shape[1]]; [int(seq_len ** 0.5)] is the
    integer square root. *)
Definition tokens_2d (tokens : list (list nat)) (seq_len : nat) (max_scale : Z)
  : option (list (list (list nat))) :=
  let grid_size := Z.sqrt (Z.of_nat seq_len) in
  if negb (grid_size * grid_size =? Z.of_nat seq_len) then
    let grid_size := max_scale in
    reshape_grids (map (last_tokens (grid_size * grid_size)) tokens)
                  (-1) grid_size
  else reshape_grids tokens (-1) grid_size.

(** *** The schedule *)

Lemma sum_squares_closed (n : nat) :
  6 * sum_squares n = Z.of_nat n * (Z.of_nat n + 1) * (2 * Z.of_nat n + 1).
Proof.
  induction n as [|n IH]; [reflexivity|].
  cbn [sum_squares]. rewrite Z.mul_add_distr_l, IH. lia.
Qed.

Lemma sum_squares_mono (a b : nat) :
  (a <= b)%nat -> sum_squares a <= sum_squares b.
Proof.
  induction 1 as [|b _ IH]; [lia|]. cbn [sum_squares]. nia.
Qed.

Lemma sum_squares_nonneg (n : nat) : 0 <= sum_squares n.
Proof. apply (sum_squares_mono 0 n). lia. Qed.

Lemma positions_nth (n k : nat) :
  (k < n)%nat ->
  nth k (fst (compute_scale_positions (Z.of_nat n))) 0 = sum_squares k /\
  nth k (snd (compute_scale_positions (Z.of_nat n))) 0 = sum_squares (S k).
Proof.
  intros Hk. unfold compute_scale_positions.
  pose proof (positions_loop_inv n) as Hinv.
  destruct (positions_loop (get_multi_scale_patches (Z.of_nat n)))
    as [[starts ends] cum].
  destruct Hinv as [_ _ _ Hs He]. cbn [fst snd] in *. auto.
Qed.

Lemma patches_nonpositive (max_scale : Z) :
  max_scale <= 0 -> get_multi_scale_patches max_scale = [].
Proof.
  intros H. unfold get_multi_scale_patches.
  now replace (Z.to_nat max_scale) with 0%nat by lia.
Qed.

(** X1. An empty schedule is no error: for [max_scale <= 0] the list of
    scales and both position lists are empty and the sequence length is 0.
    For [max_scale >= 0] the sequence length has the closed form
    [max_scale (max_scale + 1) (2 max_scale + 1) / 6]. *)
Theorem total_seq_len_closed_form (max_scale : Z) :
  (max_scale <= 0 ->
   get_multi_scale_patches max_scale = [] /\
   compute_scale_positions max_scale = ([], []) /\
   total_seq_len max_scale = 0) /\
  (0 <= max_scale ->
   6 * total_seq_len max_scale =
   max_scale * (max_scale + 1) * (2 * max_scale + 1)).
Proof.
  split.
  - intros H. unfold compute_scale_positions, total_seq_len.
    rewrite (patches_nonpositive _ H). auto.
  - intros H.
    assert (Hz : exists n, max_scale = Z.of_nat n)
      by (exists (Z.to_nat max_scale); lia).
    destruct Hz as [n ->].
    rewrite total_seq_len_sum. apply sum_squares_closed.
Qed.

Lemma total_seq_len_closed_form_witness :
  compute_scale_positions (-3) = ([], []) /\
  6 * total_seq_len 8 = 8 * (8 + 1) * (2 * 8 + 1).
Proof.
  split.
  - apply (proj1 (total_seq_len_closed_form (-3))). lia.
  - apply (proj2 (total_seq_len_closed_form 8)). lia.
Defined.

Lemma interval_exists (n : nat) (p : Z) :
  0 <= p < sum_squares n ->
  exists k, (k < n)%nat /\ sum_squares k <= p < sum_squares (S k).
Proof.
  induction n as [|n IH]; intros Hp; [simpl in Hp; lia|].
  destruct (Z_lt_ge_dec p (sum_squares n)) as [Hlt|Hge].
  - destruct IH as (k & Hk & Hin); [lia|]. exists k. split; [lia|auto].
  - exists n. split; [lia|]. lia.
Qed.

(** X2. Every position of the sequence belongs to exactly one scale: for
    [0 <= p < total_seq_len] there is one and only one index [k] with
    [start_positions[k] <= p < end_positions[k]]. *)
Theorem position_in_one_scale (max_scale p : Z) :
  0 <= p < total_seq_len max_scale ->
  let starts := fst (compute_scale_positions max_scale) in
  let ends := snd (compute_scale_positions max_scale) in
  exists k,
    (k < Z.to_nat max_scale)%nat /\
    nth k starts 0 <= p < nth k ends 0 /\
    forall k', (k' < Z.to_nat max_scale)%nat ->
               nth k' starts 0 <= p < nth k' ends 0 -> k' = k.
Proof.
  intros Hp starts ends. subst starts ends.
  assert (H0 : 0 <= max_scale).
  { destruct (Z_lt_ge_dec max_scale 0) as [Hneg|]; [|lia].
    destruct (total_seq_len_closed_form max_scale) as [Hz _].
    destruct Hz as (_ & _ & Hz); lia. }
  assert (Hz : exists n, max_scale = Z.of_nat n)
    by (exists (Z.to_nat max_scale); lia).
  destruct Hz as [n ->]. clear H0.
  rewrite Nat2Z.id. rewrite total_seq_len_sum in Hp.
  destruct (interval_exists n p Hp) as (k & Hk & Hin).
  exists k. split; [auto|]. split.
  - destruct (positions_nth n k Hk) as [-> ->]. exact Hin.
  - intros k' Hk' Hin'. destruct (positions_nth n k' Hk') as [Hs He].
    rewrite Hs, He in Hin'.
    destruct (Nat.lt_trichotomy k' k) as [Hlt|[Heq|Hgt]]; auto.
    + pose proof (sum_squares_mono (S k') k ltac:(lia)). lia.
    + pose proof (sum_squares_mono (S k) k' ltac:(lia)). lia.
Qed.

Lemma position_in_one_scale_witness :
  exists k,
    (k < Z.to_nat 4)%nat /\
    nth k (fst (compute_scale_positions 4)) 0 <= 7
      < nth k (snd (compute_scale_positions 4)) 0 /\
    forall k', (k' < Z.to_nat 4)%nat ->
               nth k' (fst (compute_scale_positions 4)) 0 <= 7
                 < nth k' (snd (compute_scale_positions 4)) 0 -> k' = k.
Proof.
  apply (position_in_one_scale 4 7). vm_compute. split; [discriminate|reflexivity].
Defined.

(** X3. [scale_to_patches] agrees with the schedule: for a scale index
    [0 <= idx < max_scale] it returns entry [idx] of
    [get_multi_scale_patches(max_scale)], and interval [idx] of
    [compute_scale_positions(max_scale)] holds that number squared of
    positions. *)
Theorem scale_to_patches_side (max_scale scale_idx : Z) :
  0 <= scale_idx < max_scale ->
  let i := Z.to_nat scale_idx in
  nth i (get_multi_scale_patches max_scale) 0 = scale_to_patches scale_idx /\
  nth i (snd (compute_scale_positions max_scale)) 0 -
  nth i (fst (compute_scale_positions max_scale)) 0 =
  scale_to_patches scale_idx * scale_to_patches scale_idx.
Proof.
  intros H i. subst i.
  assert (Hz : exists n, max_scale = Z.of_nat n)
    by (exists (Z.to_nat max_scale); lia).
  destruct Hz as [n ->].
  assert (Hi : (Z.to_nat scale_idx < n)%nat) by lia.
  destruct (positions_nth _ _ Hi) as [-> ->].
  rewrite patches_nth by auto. unfold scale_to_patches.
  cbn [sum_squares]. lia.
Qed.

Lemma scale_to_patches_side_witness :
  nth (Z.to_nat 2) (get_multi_scale_patches 4) 0 = scale_to_patches 2 /\
  nth (Z.to_nat 2) (snd (compute_scale_positions 4)) 0 -
  nth (Z.to_nat 2) (fst (compute_scale_positions 4)) 0 =
  scale_to_patches 2 * scale_to_patches 2.
Proof. apply (scale_to_patches_side 4 2). lia. Defined.

(** *** Reshaping *)

Lemma grid_length {A} rows cols (l : list A) : length (grid rows cols l) = rows.
Proof. apply tabulate_length. Qed.

Lemma grid_nth {A} rows cols (l : list A) r c d :
  (r < rows)%nat -> (c < cols)%nat ->
  nth c (nth r (grid rows cols l) []) d = nth (r * cols + c) l d.
Proof.
  intros Hr Hc. unfold grid. rewrite tabulate_nth by auto.
  rewrite nth_firstn. replace (c <? cols)%nat with true
    by (symmetry; apply Nat.ltb_lt; auto).
  apply nth_skipn.
Qed.

Lemma grid_row_length {A} rows cols (l : list A) r :
  (r < rows)%nat -> (rows * cols <= length l)%nat ->
  length (nth r (grid rows cols l) []) = cols.
Proof.
  intros Hr Hl. unfold grid. rewrite tabulate_nth by auto.
  rewrite length_firstn, length_skipn.
  assert (r * cols + cols <= rows * cols)%nat by nia. lia.
Qed.

Lemma firstn_add {A} (a b : nat) (l : list A) :
  firstn (a + b) l = firstn a l ++ firstn b (skipn a l).
Proof.
  revert l; induction a as [|a IH]; intros l; [reflexivity|].
  destruct l as [|x l]; simpl.
  - now rewrite firstn_nil.
  - now rewrite IH.
Qed.

Lemma concat_grid {A} rows cols (l : list A) :
  concat (grid rows cols l) = firstn (rows * cols) l.
Proof.
  unfold grid. induction rows as [|rows IH]; [reflexivity|].
  replace (S rows) with (rows + 1)%nat by lia.
  rewrite tabulate_split, concat_app, IH. simpl. rewrite app_nil_r.
  replace ((rows + 1) * cols)%nat with (rows * cols + cols)%nat by lia.
  now rewrite firstn_add.
Qed.

Lemma nth_concat_uniform {A} (n : nat) (rows : list (list A)) b i d :
  Forall (fun row => length row = n) rows ->
  (b < length rows)%nat -> (i < n)%nat ->
  nth (b * n + i) (concat rows) d = nth i (nth b rows []) d.
Proof.
  intros Hrows. revert b. induction Hrows as [|row rows Hrow _ IH]; intros b Hb Hi.
  - simpl in Hb. lia.
  - simpl. destruct b as [|b].
    + simpl. apply app_nth1. lia.
    + rewrite app_nth2 by (rewrite Hrow; nia).
      replace (S b * n + i - length row)%nat with (b * n + i)%nat
        by (rewrite Hrow; lia).
      apply IH; auto. simpl in Hb. lia.
Qed.

Lemma concat_uniform_length {A} (n : nat) (rows : list (list A)) :
  Forall (fun row => length row = n) rows ->
  length (concat rows) = (length rows * n)%nat.
Proof.
  induction 1 as [|row rows Hrow _ IH]; [reflexivity|].
  simpl. rewrite length_app, IH, Hrow. reflexivity.
Qed.

(** X4. [rearrange_for_scale] on rows that hold at least [scale * scale]
    tokens returns one [scale x scale] grid per row, filled row by row
    from the first [scale * scale] tokens: entry [(r, c)] is token
    [r * scale + c], and flattening a grid gives those tokens back. *)
Theorem rearrange_for_scale_grid (tokens : list (list nat)) (scale : Z) :
  0 <= scale ->
  Forall (fun row => scale * scale <= Z.of_nat (length row)) tokens ->
  exists grids,
    rearrange_for_scale tokens scale = Some grids /\
    length grids = length tokens /\
    forall b, (b < length tokens)%nat ->
      let g := nth b grids [] in
      let row := nth b tokens [] in
      length g = Z.to_nat scale /\
      concat g = firstn (Z.to_nat (scale * scale)) row /\
      forall r c, (r < Z.to_nat scale)%nat -> (c < Z.to_nat scale)%nat ->
        length (nth r g []) = Z.to_nat scale /\
        nth c (nth r g []) 0%nat = nth (r * Z.to_nat scale + c) row 0%nat.
Proof.
  intros Hs Hrows. unfold rearrange_for_scale.
  set (s := Z.to_nat scale).
  assert (Hn : Z.to_nat (scale * scale) = (s * s)%nat) by (subst s; nia).
  rewrite Hn.
  assert (Hlen : Forall (fun row => (s * s <= length row)%nat) tokens).
  { eapply Forall_impl; [|exact Hrows]. cbv beta. intros row H. lia. }
  replace (scale <? 0) with false by (symmetry; apply Z.ltb_ge; lia).
  assert (Hall : forallb (fun row => (length row =? s * s)%nat)
                         (map (firstn (s * s)) tokens) = true).
  { apply forallb_forall. intros row Hin. apply in_map_iff in Hin.
    destruct Hin as (row' & <- & Hin'). rewrite Forall_forall in Hlen.
    specialize (Hlen _ Hin'). apply Nat.eqb_eq. rewrite length_firstn. lia. }
  rewrite Hall. cbn [orb negb].
  eexists. split; [reflexivity|]. split; [now rewrite !length_map|].
  intros b Hb. cbv zeta.
  rewrite (nth_indep _ [] (grid s s (firstn (s * s) [])))
    by now rewrite !length_map.
  rewrite map_nth.
  rewrite map_nth.
  assert (Hrow : (s * s <= length (nth b tokens []))%nat).
  { rewrite Forall_forall in Hlen. apply Hlen. now apply nth_In. }
  split; [apply grid_length|]. split.
  - rewrite concat_grid. apply firstn_all2. rewrite length_firstn. lia.
  - intros r c Hr Hc. split.
    + apply grid_row_length; auto. rewrite length_firstn. lia.
    + rewrite grid_nth by auto. rewrite nth_firstn.
      replace (r * s + c <? s * s)%nat with true; [reflexivity|].
      symmetry. apply Nat.ltb_lt. nia.
Qed.

Lemma rearrange_for_scale_grid_witness :
  exists grids,
    rearrange_for_scale [[7; 8; 9; 10; 11]%nat] 2 = Some grids /\
    nth 0 grids [] = [[7; 8]; [9; 10]]%nat.
Proof.
  destruct (rearrange_for_scale_grid [[7; 8; 9; 10; 11]%nat] 2) as (g & Hg & _).
  - lia.
  - constructor; [simpl; lia|constructor].
  - exists g. split; [exact Hg|]. vm_compute in Hg. now inversion Hg.
Defined.

(** X5. [rearrange_for_scale] raises exactly when [scale] is negative or
    some row holds fewer than [scale * scale] tokens; it never pads. *)
Theorem rearrange_for_scale_raises (tokens : list (list nat)) (scale : Z) :
  rearrange_for_scale tokens scale = None <->
  scale < 0 \/
  Exists (fun row => Z.of_nat (length row) < scale * scale) tokens.
Proof.
  unfold rearrange_for_scale.
  destruct (scale <? 0) eqn:Hneg; cbn [orb].
  - split; auto. intros _. left. now apply Z.ltb_lt.
  - apply Z.ltb_ge in Hneg.
    destruct (forallb _ _) eqn:Hall; cbn [negb].
    + split; [discriminate|]. intros [H|H]; [lia|]. exfalso.
      rewrite forallb_forall in Hall. apply Exists_exists in H.
      destruct H as (row & Hin & Hlt).
      specialize (Hall (firstn (Z.to_nat (scale * scale)) row)
                       (in_map _ _ _ Hin)).
      apply Nat.eqb_eq in Hall. rewrite length_firstn in Hall. lia.
    + split; auto. intros _. right. apply Exists_exists.
      assert (Hex : exists row, In row tokens /\
                 (length (firstn (Z.to_nat (scale * scale)) row)
                  =? Z.to_nat (scale * scale))%nat = false).
      { clear -Hall. induction tokens as [|row tokens IH]; simpl in Hall;
          [discriminate|].
        apply andb_false_iff in Hall. destruct Hall as [H|H].
        - exists row. split; [now left|exact H].
        - destruct (IH H) as (row' & Hin & H'). exists row'. split; auto.
          now right. }
      destruct Hex as (row & Hin & Hrow). exists row. split; auto.
      apply Nat.eqb_neq in Hrow. rewrite length_firstn in Hrow. nia.
Qed.

(** *** The tokens of the last scale *)

Lemma last_tokens_length {A} (n : Z) (row : list A) :
  0 < n -> n <= Z.of_nat (length row) ->
  length (last_tokens n row) = Z.to_nat n.
Proof.
  intros Hn Hle. unfold last_tokens.
  replace (n =? 0) with false by (symmetry; apply Z.eqb_neq; lia).
  rewrite length_skipn. lia.
Qed.

Lemma last_tokens_nth {A} (n : Z) (row : list A) i d :
  0 < n ->
  nth i (last_tokens n row) d = nth (length row - Z.to_nat n + i) row d.
Proof.
  intros Hn. unfold last_tokens.
  replace (n =? 0) with false by (symmetry; apply Z.eqb_neq; lia).
  apply nth_skipn.
Qed.

Lemma reshape_grids_count {A} (x : list (list A)) (count side : Z) :
  0 <= count -> 0 <= side ->
  Z.of_nat (length (concat x)) = count * (side * side) ->
  reshape_grids x count side =
  Some (tabulate (Z.to_nat count)
          (fun b => grid (Z.to_nat side) (Z.to_nat side)
                         (skipn (b * Z.to_nat (side * side)) (concat x)))).
Proof.
  intros Hc Hs Hn. unfold reshape_grids.
  replace (side <? 0) with false by (symmetry; apply Z.ltb_ge; lia).
  replace (count =? -1) with false by (symmetry; apply Z.eqb_neq; lia).
  replace (count <? 0) with false by (symmetry; apply Z.ltb_ge; lia).
  rewrite Hn, Z.eqb_refl. reflexivity.
Qed.

Lemma reshape_grids_infer {A} (x : list (list A)) (count side : Z) :
  0 <= count -> 0 < side ->
  Z.of_nat (length (concat x)) = count * (side * side) ->
  reshape_grids x (-1) side = reshape_grids x count side.
Proof.
  intros Hc Hs Hn. rewrite (reshape_grids_count x count side) by lia.
  unfold reshape_grids.
  replace (side <? 0) with false by (symmetry; apply Z.ltb_ge; lia).
  cbn [Z.eqb Z.opp]. rewrite Hn.
  replace (side * side =? 0) with false by (symmetry; apply Z.eqb_neq; nia).
  rewrite Z.mod_mul by nia. rewrite Z.div_mul by nia. reflexivity.
Qed.

Lemma last_scale_rows (tokens : list (list nat)) (n : nat) :
  (1 <= n)%nat ->
  Forall (fun row => Z.of_nat (length row) = sum_squares n) tokens ->
  Forall (fun row => length row = (n * n)%nat)
         (map (last_tokens (Z.of_nat n * Z.of_nat n)) tokens).
Proof.
  intros Hn Hrows. apply Forall_forall. intros row Hin.
  apply in_map_iff in Hin. destruct Hin as (row' & <- & Hin').
  rewrite Forall_forall in Hrows. specialize (Hrows _ Hin').
  rewrite last_tokens_length; [lia|nia|].
  rewrite Hrows. destruct n as [|n]; [lia|]. cbn [sum_squares].
  pose proof (sum_squares_nonneg n). lia.
Qed.

(** X6. After a full [generate], whose rows hold [total_seq_len] tokens,
    the slice taken by the example scripts is the interval of the last
    scale: entry [(r, c)] of grid [b] is the token at position
    [start_positions[max_scale - 1] + r * max_scale + c] of row [b]. *)
Theorem final_scale_is_last_interval (tokens : list (list nat)) (max_scale : Z) :
  1 <= max_scale ->
  Forall (fun row => Z.of_nat (length row) = total_seq_len max_scale) tokens ->
  let side := Z.to_nat max_scale in
  let start :=
    Z.to_nat (nth (side - 1) (fst (compute_scale_positions max_scale)) 0) in
  exists grids,
    final_scale_tokens tokens (Z.of_nat (length tokens)) max_scale = Some grids /\
    length grids = length tokens /\
    forall b r c, (b < length tokens)%nat -> (r < side)%nat -> (c < side)%nat ->
      length (nth b grids []) = side /\
      length (nth r (nth b grids []) []) = side /\
      nth c (nth r (nth b grids []) []) 0%nat =
      nth (start + r * side + c) (nth b tokens []) 0%nat.
Proof.
  intros HS Hrows side start. subst side start.
  assert (Hz : exists n, max_scale = Z.of_nat n)
    by (exists (Z.to_nat max_scale); lia).
  destruct Hz as [n ->]. assert (Hn : (1 <= n)%nat) by lia.
  clear HS. rewrite Nat2Z.id.
  rewrite total_seq_len_sum in Hrows.
  destruct (positions_nth n (n - 1) ltac:(lia)) as [-> _].
  pose proof (last_scale_rows tokens n Hn Hrows) as Hlast.
  unfold final_scale_tokens.
  set (x := map (last_tokens (Z.of_nat n * Z.of_nat n)) tokens) in *.
  assert (Hlx : length x = length tokens) by (subst x; apply length_map).
  assert (Hnumel : Z.of_nat (length (concat x)) =
                   Z.of_nat (length tokens) * (Z.of_nat n * Z.of_nat n)).
  { rewrite (concat_uniform_length _ _ Hlast), Hlx. lia. }
  rewrite (reshape_grids_count x (Z.of_nat (length tokens)) (Z.of_nat n)
             ltac:(lia) ltac:(lia) Hnumel).
  rewrite !Nat2Z.id.
  replace (Z.to_nat (Z.of_nat n * Z.of_nat n)) with (n * n)%nat by lia.
  eexists. split; [reflexivity|]. split; [apply tabulate_length|].
  intros b r c Hb Hr Hc. rewrite tabulate_nth by auto.
  split; [apply grid_length|]. split.
  - apply grid_row_length; auto. rewrite length_skipn.
    rewrite (concat_uniform_length _ _ Hlast), Hlx. nia.
  - rewrite grid_nth by auto. rewrite nth_skipn.
    rewrite (nth_concat_uniform (n * n) x b (r * n + c) 0%nat Hlast)
      by (try rewrite Hlx; auto; nia).
    subst x.
    rewrite (nth_indep _ [] (last_tokens (Z.of_nat n * Z.of_nat n) []))
      by now rewrite length_map.
    rewrite map_nth, last_tokens_nth by nia.
    f_equal.
    assert (Hrow : Z.of_nat (length (nth b tokens [])) = sum_squares n).
    { rewrite Forall_forall in Hrows. apply Hrows. now apply nth_In. }
    destruct n as [|n]; [lia|]. cbn [sum_squares] in Hrow.
    replace (S n - 1)%nat with n by lia.
    pose proof (sum_squares_nonneg n). lia.
Qed.

Lemma final_scale_is_last_interval_witness :
  exists grids,
    final_scale_tokens [[5; 6; 7; 8; 9]%nat] 1 2 = Some grids /\
    nth 1 (nth 0 (nth 0 grids []) []) 0%nat = 7%nat.
Proof.
  destruct (final_scale_is_last_interval [[5; 6; 7; 8; 9]%nat] 2)
    as (g & Hg & _ & Hent).
  - lia.
  - constructor; [reflexivity|constructor].
  - exists g. split; [exact Hg|].
    destruct (Hent 0%nat 0%nat 1%nat) as (_ & _ & ->); [simpl; lia|simpl; lia|simpl; lia|].
    reflexivity.
Defined.

Lemma squares_checked :
  forallb (fun s => negb (Z.sqrt (total_seq_len s) * Z.sqrt (total_seq_len s)
                          =? total_seq_len s))
          (map Z.of_nat (seq 2 22)) = true.
Proof. vm_compute. reflexivity. Qed.

Lemma total_not_square (max_scale : Z) :
  2 <= max_scale <= 23 ->
  (Z.sqrt (total_seq_len max_scale) * Z.sqrt (total_seq_len max_scale)
   =? total_seq_len max_scale) = false.
Proof.
  intros H. pose proof squares_checked as Hall.
  rewrite forallb_forall in Hall.
  specialize (Hall max_scale). apply negb_true_iff. apply Hall.
  apply in_map_iff. exists (Z.to_nat max_scale). split; [lia|].
  apply in_seq. lia.
Qed.

(** X7. [generate_samples] decodes the last scale as long as
    [total_seq_len] is no perfect square: for [1 <= max_scale <= 23] the
    grids it hands to the decoder are those of the example scripts. For
    [max_scale = 24] the sequence has [4900 = 70 * 70] tokens, the test
    [grid_size * grid_size != seq_len] fails and the whole multi-scale
    sequence is reshaped into [70 x 70] grids instead. *)
Theorem tokens_2d_last_scale (tokens : list (list nat)) (max_scale : Z) :
  Forall (fun row => Z.of_nat (length row) = total_seq_len max_scale) tokens ->
  let seq_len := Z.to_nat (total_seq_len max_scale) in
  (1 <= max_scale <= 23 ->
   tokens_2d tokens seq_len max_scale =
   final_scale_tokens tokens (Z.of_nat (length tokens)) max_scale) /\
  (max_scale = 24 ->
   seq_len = 4900%nat /\
   tokens_2d tokens seq_len max_scale = reshape_grids tokens (-1) 70).
Proof.
  intros Hrows seq_len. subst seq_len. split.
  - intros HS. unfold tokens_2d.
    assert (Htot : 0 <= total_seq_len max_scale).
    { replace max_scale with (Z.of_nat (Z.to_nat max_scale)) by lia.
      rewrite total_seq_len_sum. apply sum_squares_nonneg. }
    rewrite Z2Nat.id by auto.
    destruct (Z.eq_dec max_scale 1) as [->|Hne].
    + change (total_seq_len 1) with 1 in *. cbn [Z.sqrt Z.mul Z.eqb negb].
      change (Z.sqrt 1 * Z.sqrt 1 =? 1) with true. cbn [negb].
      unfold final_scale_tokens.
      assert (Hid : map (last_tokens (1 * 1)) tokens = tokens).
      { rewrite <- (map_id tokens) at 2. apply map_ext_in. intros row Hin.
        rewrite Forall_forall in Hrows. specialize (Hrows _ Hin).
        unfold last_tokens. cbn [Z.mul Z.eqb Pos.mul].
        replace (length row - Z.to_nat 1)%nat with 0%nat by lia.
        reflexivity. }
      rewrite Hid.
      apply reshape_grids_infer; [lia|lia|].
      rewrite (concat_uniform_length 1%nat).
      * lia.
      * eapply Forall_impl; [|exact Hrows]. cbv beta. intros row H. lia.
    + rewrite total_not_square by lia. cbn [negb].
      unfold final_scale_tokens.
      assert (Hz : exists n, max_scale = Z.of_nat n)
        by (exists (Z.to_nat max_scale); lia).
      destruct Hz as [n ->]. assert (Hn : (1 <= n)%nat) by lia.
      rewrite total_seq_len_sum in Hrows.
      pose proof (last_scale_rows tokens n Hn Hrows) as Hlast.
      apply reshape_grids_infer; [lia|lia|].
      rewrite (concat_uniform_length _ _ Hlast), length_map. lia.
  - intros ->. split; reflexivity.
Qed.

Lemma tokens_2d_last_scale_witness :
  tokens_2d [[5; 6; 7; 8; 9]%nat] (Z.to_nat (total_seq_len 2)) 2 =
  final_scale_tokens [[5; 6; 7; 8; 9]%nat] 1 2.
Proof.
  refine (proj1 (tokens_2d_last_scale [[5; 6; 7; 8; 9]%nat] 2 _) _).
  - constructor; [reflexivity|constructor].
  - lia.
Defined.

End ScheduleFacts.

(* ================================================================= *)
(** ** What the filters keep ([utils.py], [top_k_top_p_filtering]) *)

Module SamplerFacts.
Import Tensor Sampler.
Local Open Scope R_scope.

(** An entry after a masked assignment: a position that did not exist
    still does not exist, one that held [x] holds [x] or [filter_value]. *)
Definition masked (filter_value : xreal) (before after : option xreal) : Prop :=
  match before with
  | None => after = None
  | Some x => after = Some x \/ after = Some filter_value
  end.

(** The probability mass, under [probs], of the entries that a mask does
    not remove. *)
Definition kept_mass (mask : list bool) (probs : list R) : R :=
  Rsum (map (fun mp : bool * R => if fst mp then 0 else snd mp)
            (combine mask probs)).

Lemma masked_refl fv o : masked fv o o.
Proof. destruct o; simpl; auto. Qed.

Lemma masked_trans fv a b c : masked fv a b -> masked fv b c -> masked fv a c.
Proof.
  destruct a as [x|]; simpl.
  - intros [->| ->]; simpl; [auto|]. intros [->| ->]; auto.
  - intros ->. simpl. auto.
Qed.

Lemma index_put_masked t m fv b v :
  same_shape t m -> masked fv (entry t b v) (entry (index_put t m fv) b v).
Proof.
  intros Hs. rewrite index_put_entry by auto.
  destruct (entry t b v) as [x|]; simpl; auto.
  destruct (nth v (nth b m []) false); auto.
Qed.

Lemma after_top_k_masked t top_k fv t1 b v :
  after_top_k t top_k fv = Some t1 -> masked fv (entry t b v) (entry t1 b v).
Proof.
  unfold after_top_k. destruct (0 <? top_k)%Z.
  - destruct (topk_indices_to_remove t (Z.to_nat top_k)) as [m|] eqn:Hm; [|easy].
    intros H; inversion H; subst. apply index_put_masked.
    eapply topk_masks_shape; eauto.
  - intros H; inversion H; subst. apply masked_refl.
Qed.

Lemma after_top_p_masked t top_p fv t2 b v :
  after_top_p t top_p fv = Some t2 -> masked fv (entry t b v) (entry t2 b v).
Proof.
  unfold after_top_p. destruct (Rltb top_p 1).
  - destruct (topp_indices_to_remove t top_p) as [m|] eqn:Hm; [|easy].
    intros H; inversion H; subst. apply index_put_masked.
    eapply topp_masks_shape; eauto.
  - intros H; inversion H; subst. apply masked_refl.
Qed.

(** X8. Filtering only ever overwrites entries with [filter_value]: the
    tensor keeps its number of rows, no entry appears or disappears, and
    each entry holds afterwards either its old value or [filter_value].
    With both filters off ([top_k <= 0] and [top_p >= 1]) the store is left
    exactly as it was. *)
Theorem filtering_only_masks
    (h h' : heap) (logits r : loc) (t : tensor2)
    (top_k : Z) (top_p : R) (filter_value : xreal) :
  heap_get h logits = Some t ->
  top_k_top_p_filtering h logits top_k top_p filter_value = Some (h', r) ->
  (exists t',
     heap_get h' r = Some t' /\ length t' = length t /\
     forall b v, masked filter_value (entry t b v) (entry t' b v)) /\
  ((top_k <= 0)%Z -> 1 <= top_p -> h' = h).
Proof.
  intros Hget Hcall. rewrite (filtering_heap h logits t) in Hcall by auto.
  destruct (after_top_k t top_k filter_value) as [t1|] eqn:H1; [|easy].
  destruct (after_top_p t1 top_p filter_value) as [t2|] eqn:H2; [|easy].
  inversion Hcall; subst h' r; clear Hcall. split.
  - exists t2. split; [apply heap_get_set_same; congruence|]. split.
    + transitivity (length t1).
      * revert H2. unfold after_top_p. destruct (Rltb top_p 1).
        -- destruct (topp_indices_to_remove t1 top_p) as [m|] eqn:Hm; [|easy].
           intros H; inversion H; subst. apply index_put_length.
           eapply topp_masks_shape; eauto.
        -- intros H; now inversion H.
      * revert H1. unfold after_top_k. destruct (0 <? top_k)%Z.
        -- destruct (topk_indices_to_remove t (Z.to_nat top_k)) as [m|] eqn:Hm;
             [|easy].
           intros H; inversion H; subst. apply index_put_length.
           eapply topk_masks_shape; eauto.
        -- intros H; now inversion H.
    + intros b v. eapply masked_trans.
      * eapply after_top_k_masked; eauto.
      * eapply after_top_p_masked; eauto.
  - intros Hk Hp. unfold after_top_k in H1. unfold after_top_p in H2.
    replace (0 <? top_k)%Z with false in H1 by (symmetry; apply Z.ltb_ge; lia).
    replace (Rltb top_p 1) with false in H2 by (symmetry; now apply Rltb_false).
    inversion H1; subst t1. inversion H2; subst t2.
    apply list_set_same. exact Hget.
Qed.

Lemma filtering_only_masks_witness :
  exists t',
    heap_get [[[NInf; Fin 2]]] 0%nat = Some t' /\
    length t' = length [[Fin 1; Fin 2]] /\
    forall b v, masked NInf (entry [[Fin 1; Fin 2]] b v) (entry t' b v).
Proof.
  refine (proj1 (filtering_only_masks [[[Fin 1; Fin 2]]] [[[NInf; Fin 2]]]
                   0%nat 0%nat [[Fin 1; Fin 2]] 1 1 NInf _ _)).
  - reflexivity.
  - exact filtering_top1.
Defined.

(** *** Top-k *)

Lemma StronglySorted_nth {A} (le : A -> A -> Prop) (l : list A) d p q :
  StronglySorted le l -> (p < q < length l)%nat -> le (nth p l d) (nth q l d).
Proof.
  intros Hs. revert p q. induction Hs as [|x l Hs IH Hall]; intros p q Hpq.
  - simpl in Hpq. lia.
  - destruct q as [|q]; [lia|]. simpl in Hpq. destruct p as [|p]; simpl.
    + rewrite Forall_forall in Hall. apply Hall. apply nth_In. lia.
    + apply IH. lia.
Qed.

Lemma filter_length_perm {A} (f : A -> bool) (l l' : list A) :
  Permutation l l' -> length (filter f l) = length (filter f l').
Proof.
  induction 1 as [|x l l' _ IH|x y l|l l' l'' _ IH1 _ IH2]; simpl; auto.
  - destruct (f x); simpl; auto.
  - destruct (f x), (f y); simpl; auto.
  - congruence.
Qed.

Lemma filter_prefix_length {A} (f : A -> bool) (l : list A) (k : nat) d :
  (k <= length l)%nat ->
  (forall p, (p < k)%nat -> f (nth p l d) = true) ->
  (k <= length (filter f l))%nat.
Proof.
  revert k. induction l as [|x l IH]; intros k Hk Hall.
  - simpl in Hk. lia.
  - destruct k as [|k]; [lia|]. simpl in Hk. simpl.
    pose proof (Hall 0%nat ltac:(lia)) as H0. simpl in H0. rewrite H0. simpl.
    apply le_n_S. apply IH; [lia|]. intros p Hp.
    apply (Hall (S p)). lia.
Qed.

Lemma combine_seq_fst {A} (row : list A) start :
  map fst (combine row (seq start (length row))) = row.
Proof.
  revert start; induction row as [|x row IH]; simpl; intros; auto.
  now rewrite IH.
Qed.

Lemma sort_desc_values_perm (row : list xreal) :
  Permutation row (fst (sort_desc row)).
Proof.
  unfold sort_desc. cbn [fst].
  rewrite <- (combine_seq_fst row 0) at 1.
  apply Permutation_map, sort_desc_perm.
Qed.

Lemma sort_desc_sorted (row : list xreal) p q :
  (p <= q < length row)%nat ->
  xltb (nth p (fst (sort_desc row)) NInf) (nth q (fst (sort_desc row)) NInf)
  = false.
Proof.
  intros Hpq. destruct (Nat.eq_dec p q) as [->|Hne]; [apply xltb_irrefl|].
  unfold sort_desc. cbn [fst].
  pose proof (DescSort.StronglySorted_sort
                (combine row (seq 0 (length row))) desc_leb_trans) as Hss.
  set (s := DescSort.sort (combine row (seq 0 (length row)))) in *.
  assert (Hl : length s = length row) by apply sort_desc_length.
  pose proof (StronglySorted_nth _ s (NInf, 0%nat) p q Hss ltac:(lia)) as H.
  unfold is_true, DescOrder.leb in H. apply negb_true_iff in H.
  change NInf with (fst (NInf, 0%nat)). now rewrite !map_nth.
Qed.

Lemma xltb_below a b thr :
  xltb a thr = true -> xltb b thr = false -> xltb a b = true.
Proof.
  destruct a as [|a], b as [|b], thr as [|thr]; simpl; try easy.
  rewrite !Rltb_true, Rltb_false. lra.
Qed.

Lemma filter_negb_map {A} (f : A -> bool) (l : list A) :
  length (filter negb (map f l)) = length (filter (fun x => negb (f x)) l).
Proof.
  induction l as [|x l IH]; simpl; auto. destruct (f x); simpl; auto.
Qed.

Lemma topk_row_keeps (top_k : nat) (row : list xreal) (mask : list bool) :
  (1 <= top_k)%nat ->
  topk_remove_row top_k row = Some mask ->
  length mask = length row /\
  (top_k <= length (filter negb mask))%nat /\
  forall i j, nth i mask false = true -> (j < length row)%nat ->
              nth j mask false = false ->
              xltb (nth i row NInf) (nth j row NInf) = true.
Proof.
  intros Hk1 Hmask. destruct (topk_row_shape _ _ _ Hmask) as [Hk Hlen].
  unfold topk_remove_row, topk_threshold in Hmask.
  replace (top_k <=? length row)%nat with true in Hmask
    by (symmetry; now apply Nat.leb_le).
  inversion Hmask as [Hm]; clear Hmask.
  set (thr := nth (top_k - 1) (fst (sort_desc row)) NInf) in *.
  split; [now rewrite length_map|]. split.
  - rewrite filter_negb_map.
    rewrite (filter_length_perm _ _ _ (sort_desc_values_perm row)).
    apply (filter_prefix_length _ _ _ NInf).
    + rewrite <- (Permutation_length (sort_desc_values_perm row)). exact Hk.
    + intros p Hp. apply negb_true_iff. apply sort_desc_sorted. lia.
  - intros i j Hi Hj Hjm.
    assert (Hil : (i < length row)%nat).
    { destruct (Nat.lt_ge_cases i (length row)) as [|Hge]; auto.
      rewrite nth_overflow in Hi by (rewrite length_map; lia). easy. }
    rewrite (nth_indep _ false (xltb NInf thr)) in Hi
      by (rewrite length_map; lia).
    rewrite (nth_indep _ false (xltb NInf thr)) in Hjm
      by (rewrite length_map; lia).
    rewrite (map_nth (fun x => xltb x thr)) in Hi, Hjm.
    eapply xltb_below; eauto.
Qed.

(** X9. Top-k alone ([top_k >= 1], [top_p >= 1]) keeps the [top_k]
    largest logits of every row: in each row at least [top_k] entries are
    not marked for removal (more when others tie with the [top_k]-th
    largest), and every marked entry is strictly smaller than every entry
    that is kept. The marked entries are the ones overwritten. *)
Theorem top_k_keeps_k_largest
    (h h' : heap) (logits r : loc) (t : tensor2)
    (top_k : Z) (top_p : R) (filter_value : xreal) :
  heap_get h logits = Some t ->
  (1 <= top_k)%Z -> 1 <= top_p ->
  top_k_top_p_filtering h logits top_k top_p filter_value = Some (h', r) ->
  exists indices_to_remove,
    topk_indices_to_remove t (Z.to_nat top_k) = Some indices_to_remove /\
    heap_get h' r = Some (index_put t indices_to_remove filter_value) /\
    length indices_to_remove = length t /\
    forall b, (b < length t)%nat ->
      let row := nth b t [] in
      let mask := nth b indices_to_remove [] in
      length mask = length row /\
      (Z.to_nat top_k <= length (filter negb mask))%nat /\
      forall i j, nth i mask false = true -> (j < length row)%nat ->
                  nth j mask false = false ->
                  xltb (nth i row NInf) (nth j row NInf) = true.
Proof.
  intros Hget Hk Hp Hcall.
  rewrite (filtering_heap h logits t) in Hcall by auto.
  unfold after_top_k, after_top_p in Hcall.
  replace (0 <? top_k)%Z with true in Hcall by (symmetry; apply Z.ltb_lt; lia).
  destruct (topk_indices_to_remove t (Z.to_nat top_k)) as [m|] eqn:Hm; [|easy].
  cbn [option_map] in Hcall.
  replace (Rltb top_p 1) with false in Hcall
    by (symmetry; now apply Rltb_false).
  inversion Hcall; subst h' r; clear Hcall.
  exists m. split; [reflexivity|].
  split; [apply heap_get_set_same; congruence|].
  unfold topk_indices_to_remove in Hm.
  split; [apply (mapM_length _ _ _ Hm)|].
  intros b Hb. cbv zeta.
  apply (topk_row_keeps (Z.to_nat top_k)); [lia|].
  apply (mapM_nth _ _ _ _ [] [] Hm Hb).
Qed.

Lemma top_k_keeps_k_largest_witness :
  exists indices_to_remove,
    topk_indices_to_remove [[Fin 1; Fin 2]] (Z.to_nat 1) = Some indices_to_remove /\
    heap_get [[[NInf; Fin 2]]] 0%nat = Some (index_put [[Fin 1; Fin 2]] indices_to_remove NInf).
Proof.
  destruct (top_k_keeps_k_largest [[[Fin 1; Fin 2]]] [[[NInf; Fin 2]]]
              0%nat 0%nat [[Fin 1; Fin 2]] 1 1 NInf)
    as (m & Hm & Hh & _).
  - reflexivity.
  - lia.
  - lra.
  - exact filtering_top1.
  - exists m. split; assumption.
Defined.

(** *** Top-p *)

Lemma kept_mass_nonneg mask probs :
  (forall x, In x probs -> 0 <= x) -> 0 <= kept_mass mask probs.
Proof.
  intros Hp. unfold kept_mass. apply Rsum_nonneg. intros y Hy.
  apply in_map_iff in Hy. destruct Hy as ([m x] & <- & Hin). simpl.
  destruct m; [lra|]. apply Hp. eapply in_combine_r; eauto.
Qed.

Lemma kept_mass_cons m mask x probs :
  kept_mass (m :: mask) (x :: probs) =
  (if m then 0 else x) + kept_mass mask probs.
Proof. reflexivity. Qed.

(** The flags of lines 119-122 in sorted order, for the cumulative sums
    that start from [acc]. *)
Definition shifted_flags (top_p acc : R) (prev : bool) (probs : list R)
  : list bool :=
  prev :: removelast (map (Rltb top_p) (cumsum_from acc probs)).

Lemma shifted_flags_cons top_p acc prev x y rest :
  shifted_flags top_p acc prev (x :: y :: rest) =
  prev :: shifted_flags top_p (acc + x) (Rltb top_p (acc + x)) (y :: rest).
Proof. reflexivity. Qed.

Lemma shifted_flags_one top_p acc prev x :
  shifted_flags top_p acc prev [x] = [prev].
Proof. reflexivity. Qed.

Lemma nucleus_sorted_mass top_p probs : forall acc,
  (forall x, In x probs -> 0 <= x) -> probs <> [] ->
  top_p < acc + Rsum probs ->
  top_p < acc + kept_mass (shifted_flags top_p acc false probs) probs.
Proof.
  induction probs as [|x rest IH]; intros acc Hnn Hne Hsum; [easy|].
  destruct rest as [|y rest'].
  - rewrite shifted_flags_one. unfold kept_mass. simpl in *. lra.
  - rewrite shifted_flags_cons, kept_mass_cons.
    assert (Hnn' : forall z, In z (y :: rest') -> 0 <= z)
      by (intros z Hz; apply Hnn; now right).
    destruct (Rltb top_p (acc + x)) eqn:Hf.
    + apply Rltb_true in Hf.
      pose proof (kept_mass_nonneg
                    (shifted_flags top_p (acc + x) true (y :: rest'))
                    (y :: rest') Hnn').
      lra.
    + specialize (IH (acc + x) Hnn' ltac:(discriminate)).
      change (Rsum (x :: y :: rest')) with (x + Rsum (y :: rest')) in Hsum.
      lra.
Qed.

Lemma shifted_flags_monotone top_p probs : forall acc prev p q,
  (forall x, In x probs -> 0 <= x) -> probs <> [] ->
  (prev = true -> top_p < acc) ->
  (p <= q < length probs)%nat ->
  nth p (shifted_flags top_p acc prev probs) false = true ->
  nth q (shifted_flags top_p acc prev probs) false = true.
Proof.
  induction probs as [|x rest IH]; intros acc prev p q Hnn Hne Hprev Hpq Hp;
    [easy|].
  destruct rest as [|y rest'].
  - simpl in Hpq. replace q with p by lia. exact Hp.
  - rewrite shifted_flags_cons in *.
    assert (Hnn' : forall z, In z (y :: rest') -> 0 <= z)
      by (intros z Hz; apply Hnn; now right).
    assert (Hx : 0 <= x) by (apply Hnn; now left).
    assert (Hprev' : Rltb top_p (acc + x) = true -> top_p < acc + x)
      by apply Rltb_true.
    destruct q as [|q]; [replace p with 0%nat in * by lia; exact Hp|].
    cbn [nth]. simpl in Hpq. destruct p as [|p].
    + cbn [nth] in Hp. specialize (Hprev Hp).
      apply (IH (acc + x) _ 0%nat q Hnn' ltac:(discriminate) Hprev');
        [simpl; lia|].
      cbn [shifted_flags nth]. apply Rltb_true. lra.
    + cbn [nth] in Hp.
      apply (IH (acc + x) _ p q Hnn' ltac:(discriminate) Hprev');
        [simpl; lia|exact Hp].
Qed.

Lemma scatter_step_hit {A} (l : list (nat * A)) d : forall out i v,
  NoDup (map fst l) -> In (i, v) l -> (i < length out)%nat ->
  nth i (fold_left (fun out (js : nat * A) => list_set out (fst js) (snd js))
                   l out) d = v.
Proof.
  induction l as [|[j x] l IH]; intros out i v Hnd Hin Hi; [easy|].
  simpl in *. inversion Hnd as [|? ? Hnot Hnd']; subst.
  destruct Hin as [Heq|Hin].
  - inversion Heq; subst. rewrite scatter_step_untouched by auto.
    now apply list_set_nth_same.
  - apply IH; auto. now rewrite list_set_length.
Qed.

Lemma scatter_along_permutation {A} (self : list A) index src d p :
  NoDup index -> length src = length index ->
  (nth p index 0 < length self)%nat -> (p < length index)%nat ->
  nth (nth p index 0%nat) (scatter self index src) d = nth p src d.
Proof.
  intros Hnd Hlen Hself Hp. unfold scatter. apply scatter_step_hit; auto.
  - assert (Hfst : forall (a : list nat) (b : list A),
               length b = length a -> map fst (combine a b) = a).
    { induction a as [|i a IH]; intros [|y b] Hl; simpl in *; try easy.
      now rewrite IH by lia. }
    now rewrite Hfst.
  - rewrite <- (combine_nth index src p 0%nat d) by auto.
    apply nth_In. rewrite length_combine. lia.
Qed.

Lemma Rsum_perm (l l' : list R) : Permutation l l' -> Rsum l = Rsum l'.
Proof.
  induction 1 as [|x l l' _ IH|x y l|l l' l'' _ IH1 _ IH2]; simpl;
    [reflexivity|lra|lra|congruence].
Qed.

Lemma softmax_nonneg row x : In x (softmax row) -> 0 <= x.
Proof.
  unfold softmax. intros Hx. apply in_map_iff in Hx.
  destruct Hx as (e & <- & He). apply in_map_iff in He.
  destruct He as (a & <- & _).
  assert (Htot : 0 <= Rsum (map xexp row)).
  { apply Rsum_nonneg. intros y Hy. apply in_map_iff in Hy.
    destruct Hy as (b & <- & _). apply xexp_nonneg. }
  pose proof (xexp_nonneg a) as Ha.
  destruct (Req_dec (Rsum (map xexp row)) 0) as [H0|Hn0].
  - rewrite H0. unfold Rdiv. rewrite Rinv_0. lra.
  - apply Rmult_le_pos; [exact Ha|]. left. apply Rinv_0_lt_compat. lra.
Qed.

Lemma exp_total_pos row : row_alive row -> 0 < Rsum (map xexp row).
Proof.
  intros (i & x & Hx). apply nth_error_In in Hx. apply Rsum_pos.
  - intros e He. apply in_map_iff in He. destruct He as (y & <- & _).
    apply xexp_nonneg.
  - exists (exp x). split; [|apply exp_pos].
    apply in_map_iff. now exists (Fin x).
Qed.

Lemma softmax_sums_to_one row : row_alive row -> Rsum (softmax row) = 1.
Proof.
  intros Ha. pose proof (exp_total_pos row Ha) as Hpos. unfold softmax.
  set (total := Rsum (map xexp row)) in *.
  assert (H : forall l, Rsum (map (fun e => e / total) l) = Rsum l / total).
  { induction l as [|e l IH]; simpl; [lra|]. rewrite IH. lra. }
  rewrite H. unfold total. field. fold total. lra.
Qed.

(** The mass that a mask in original indexing keeps, as a sum over the
    (value, index) pairs of the row. *)
Lemma kept_mass_by_index (f : xreal -> R) (row : list xreal) :
  forall (mask : list bool) (start : nat),
  length mask = length row ->
  kept_mass mask (map f row) =
  Rsum (map (fun vi : xreal * nat =>
               if nth (snd vi - start) mask false then 0 else f (fst vi))
            (combine row (seq start (length row)))).
Proof.
  induction row as [|x row IH]; intros [|m mask] start Hl; simpl in Hl;
    try easy.
  cbn [map length seq combine]. rewrite kept_mass_cons.
  cbn [Rsum fold_right map fst snd]. rewrite Nat.sub_diag. cbn [nth].
  f_equal. rewrite (IH mask (S start)) by lia. unfold Rsum. f_equal.
  apply map_ext_in. intros [v i] Hin. apply combine_seq_in in Hin.
  destruct Hin as [Hr _]. cbn [fst snd].
  replace (i - start)%nat with (S (i - S start)) by lia. reflexivity.
Qed.

Lemma topp_row_facts (top_p : R) (row : list xreal) (mask : list bool) :
  topp_remove_row top_p row = Some mask ->
  let s := DescSort.sort (combine row (seq 0 (length row))) in
  let flags := shifted_flags top_p 0 false (softmax (map fst s)) in
  row <> [] /\ length flags = length row /\
  forall p, (p < length row)%nat ->
    nth (snd (nth p s (NInf, 0%nat))) mask false = nth p flags false.
Proof.
  intros Hmask s flags.
  pose proof (topp_row_shape _ _ _ Hmask) as Hlen.
  pose proof (sort_desc_length row) as Hsl. cbv zeta in Hsl. fold s in Hsl.
  assert (Hpl : length (softmax (map fst s)) = length row)
    by now rewrite softmax_length, length_map.
  unfold topp_remove_row, sort_desc in Hmask. fold s in Hmask.
  unfold cumsum in Hmask.
  destruct (map (fun c => Rltb top_p c) (cumsum_from 0 (softmax (map fst s))))
    as [|b bs] eqn:Hm; [easy|].
  assert (Hfl : flags = false :: removelast (b :: bs)).
  { subst flags. unfold shifted_flags. f_equal. f_equal. exact Hm. }
  assert (Hfn : length flags = length row).
  { subst flags. unfold shifted_flags. cbn [length].
    rewrite removelast_length, length_map, cumsum_from_length, Hpl.
    apply (f_equal (@length bool)) in Hm.
    rewrite length_map, cumsum_from_length, Hpl in Hm. simpl in Hm. lia. }
  rewrite <- Hfl in Hmask. inversion Hmask as [Hmask']; clear Hmask.
  split; [|split; [exact Hfn|]].
  - intros Hrow. rewrite Hfl, Hrow in Hfn. cbn [length] in Hfn. lia.
  - intros p Hp.
    change (snd (nth p s (NInf, 0%nat))) with (snd (nth p s (NInf, 0%nat))).
    replace (snd (nth p s (NInf, 0%nat))) with (nth p (map snd s) 0%nat)
      by (change 0%nat with (snd (NInf, 0%nat)) at 1; apply map_nth).
    apply scatter_along_permutation.
    + apply sort_desc_nodup.
    + now rewrite length_map, Hsl.
    + rewrite Hfn.
      change 0%nat with (snd (NInf, 0%nat)) at 1. rewrite map_nth.
      assert (Hin : In (nth p s (NInf, 0%nat)) s) by (apply nth_In; lia).
      destruct (nth p s (NInf, 0%nat)) as [v i]. cbn [snd].
      apply sort_desc_in in Hin. apply nth_error_Some. congruence.
    + now rewrite length_map, Hsl.
Qed.

Lemma sorted_rank (row : list xreal) (i : nat) :
  (i < length row)%nat ->
  exists p, (p < length row)%nat /\
    nth p (DescSort.sort (combine row (seq 0 (length row)))) (NInf, 0%nat)
    = (nth i row NInf, i).
Proof.
  intros Hi.
  assert (Hin : In (nth i row NInf, i)
                   (DescSort.sort (combine row (seq 0 (length row))))).
  { apply sort_desc_complete. now apply nth_error_nth'. }
  destruct (In_nth _ _ (NInf, 0%nat) Hin) as (p & Hp & Hnth).
  exists p. split; [|exact Hnth].
  pose proof (sort_desc_length row) as Hsl. cbv zeta in Hsl. lia.
Qed.

Lemma topp_row_keeps (top_p : R) (row : list xreal) (mask : list bool) :
  row_alive row -> top_p < 1 ->
  topp_remove_row top_p row = Some mask ->
  length mask = length row /\
  top_p < kept_mass mask (softmax row) /\
  forall i j, (i < length row)%nat -> (j < length row)%nat ->
              nth i mask false = true -> nth j mask false = false ->
              xltb (nth j row NInf) (nth i row NInf) = false.
Proof.
  intros Halive Hp Hmask.
  pose proof (topp_row_shape _ _ _ Hmask) as Hlen.
  destruct (topp_row_facts _ _ _ Hmask) as (Hne & Hfn & Hflag).
  set (s := DescSort.sort (combine row (seq 0 (length row)))) in *.
  set (probs := softmax (map fst s)) in *.
  set (flags := shifted_flags top_p 0 false probs) in *.
  pose proof (sort_desc_length row) as Hsl. cbv zeta in Hsl. fold s in Hsl.
  assert (Hperm : Permutation (combine row (seq 0 (length row))) s)
    by apply sort_desc_perm.
  assert (Hvals : Permutation row (map fst s)).
  { rewrite <- (combine_seq_fst row 0) at 1. now apply Permutation_map. }
  assert (Halive' : row_alive (map fst s)).
  { destruct Halive as (i & x & Hx). apply nth_error_In in Hx.
    apply (Permutation_in _ Hvals) in Hx.
    apply In_nth_error in Hx. destruct Hx as [p Hx]. now exists p, x. }
  assert (Hpl : length probs = length row)
    by (subst probs; now rewrite softmax_length, length_map).
  assert (Hpne : probs <> []).
  { intros H0. rewrite H0 in Hpl. destruct row; simpl in *; [easy|lia]. }
  assert (Hpnn : forall x, In x probs -> 0 <= x)
    by (intros x; apply softmax_nonneg).
  split; [exact Hlen|]. split.
  - assert (Htotal : Rsum (map xexp (map fst s)) = Rsum (map xexp row)).
    { symmetry. apply Rsum_perm. now apply Permutation_map. }
    assert (Hmass : kept_mass mask (softmax row) = kept_mass flags probs).
    { unfold softmax at 1. rewrite map_map.
      rewrite (kept_mass_by_index _ row mask 0%nat Hlen).
      rewrite (Rsum_perm _ _ (Permutation_map _ Hperm)).
      unfold kept_mass. f_equal.
      apply (nth_ext _ _ 0 0).
      - rewrite !length_map, length_combine. lia.
      - intros p Hpn. rewrite length_map, Hsl in Hpn.
        rewrite (nth_indep _ 0
                   ((fun vi : xreal * nat =>
                       if nth (snd vi - 0) mask false then 0
                       else xexp (fst vi) / Rsum (map xexp row))
                      (NInf, 0%nat)))
          by (rewrite length_map; lia).
        rewrite (map_nth (fun vi : xreal * nat =>
                       if nth (snd vi - 0) mask false then 0
                       else xexp (fst vi) / Rsum (map xexp row))).
        rewrite (nth_indep _ 0
                   ((fun mp : bool * R => if fst mp then 0 else snd mp)
                      (false, 0)))
          by (rewrite length_map, length_combine; lia).
        rewrite (map_nth (fun mp : bool * R => if fst mp then 0 else snd mp)).
        rewrite combine_nth by lia. cbn [fst snd].
        rewrite Nat.sub_0_r. rewrite Hflag by auto.
        destruct (nth p flags false); [reflexivity|].
        subst probs. unfold softmax. rewrite Htotal.
        rewrite (nth_indep _ 0 (xexp NInf / Rsum (map xexp row)))
          by (rewrite !length_map; lia).
        rewrite (map_nth (fun e => e / Rsum (map xexp row))).
        rewrite (map_nth xexp).
        change NInf with (fst (NInf, 0%nat)) at 2. now rewrite map_nth. }
    rewrite Hmass.
    pose proof (nucleus_sorted_mass top_p probs 0 Hpnn Hpne) as Hn.
    subst probs. rewrite softmax_sums_to_one in Hn by auto.
    rewrite !Rplus_0_l in Hn. apply Hn. exact Hp.
  - intros i j Hi Hj Him Hjm.
    destruct (sorted_rank row i Hi) as (p & Hpn & Hpi).
    destruct (sorted_rank row j Hj) as (q & Hqn & Hqj).
    fold s in Hpi, Hqj.
    pose proof (Hflag p Hpn) as Hfp. pose proof (Hflag q Hqn) as Hfq.
    rewrite Hpi in Hfp. rewrite Hqj in Hfq. cbn [snd] in *.
    rewrite Him in Hfp. rewrite Hjm in Hfq.
    assert (Hqp : (q < p)%nat).
    { destruct (Nat.lt_ge_cases q p) as [|Hge]; auto. exfalso.
      assert (Ht : nth q flags false = true).
      { apply (shifted_flags_monotone top_p probs 0 false p q); auto.
        - intros H; discriminate.
        - lia. }
      congruence. }
    pose proof (sort_desc_sorted row q p ltac:(lia)) as Hsorted.
    unfold sort_desc in Hsorted. cbn [fst] in Hsorted. fold s in Hsorted.
    change NInf with (fst (NInf, 0%nat)) in Hsorted.
    rewrite !map_nth, Hpi, Hqj in Hsorted. exact Hsorted.
Qed.

(** X10. Top-p alone ([top_k <= 0], [top_p < 1]) keeps a nucleus: in every
    row that holds a finite logit, the entries that are not marked for
    removal carry more than [top_p] of the softmax probability of the row,
    and no kept entry is strictly smaller than a marked one. The marked
    entries are the ones overwritten. *)
Theorem top_p_keeps_nucleus
    (h h' : heap) (logits r : loc) (t : tensor2)
    (top_k : Z) (top_p : R) (filter_value : xreal) :
  heap_get h logits = Some t ->
  (top_k <= 0)%Z -> top_p < 1 ->
  top_k_top_p_filtering h logits top_k top_p filter_value = Some (h', r) ->
  exists indices_to_remove,
    topp_indices_to_remove t top_p = Some indices_to_remove /\
    heap_get h' r = Some (index_put t indices_to_remove filter_value) /\
    length indices_to_remove = length t /\
    forall b, (b < length t)%nat -> row_alive (nth b t []) ->
      let row := nth b t [] in
      let mask := nth b indices_to_remove [] in
      length mask = length row /\
      top_p < kept_mass mask (softmax row) /\
      forall i j, (i < length row)%nat -> (j < length row)%nat ->
                  nth i mask false = true -> nth j mask false = false ->
                  xltb (nth j row NInf) (nth i row NInf) = false.
Proof.
  intros Hget Hk Hp Hcall.
  rewrite (filtering_heap h logits t) in Hcall by auto.
  unfold after_top_k, after_top_p in Hcall.
  replace (0 <? top_k)%Z with false in Hcall by (symmetry; apply Z.ltb_ge; lia).
  replace (Rltb top_p 1) with true in Hcall by (symmetry; now apply Rltb_true).
  destruct (topp_indices_to_remove t top_p) as [m|] eqn:Hm; [|easy].
  cbn [option_map] in Hcall. inversion Hcall; subst h' r; clear Hcall.
  exists m. split; [reflexivity|].
  split; [apply heap_get_set_same; congruence|].
  unfold topp_indices_to_remove in Hm.
  split; [apply (mapM_length _ _ _ Hm)|].
  intros b Hb Halive. cbv zeta.
  apply (topp_row_keeps top_p); auto.
  apply (mapM_nth _ _ _ _ [] [] Hm Hb).
Qed.

(** [top_p = 1/4] alone on the row [0, 0]: both sorted probabilities are
    1/2, so the first sorted entry already exceeds [top_p] and the other one
    is removed. *)
Example filtering_nucleus_example :
  top_k_top_p_filtering [[[Fin 0; Fin 0]]] 0%nat 0 (1 / 4) NInf
  = Some ([[[Fin 0; NInf]]], 0%nat).
Proof.
  unfold top_k_top_p_filtering. cbn [Z.ltb Z.compare]. eval_Rltb.
  unfold topp_indices_to_remove, topp_remove_row, sort_desc.
  cbn. unfold DescOrder.leb. cbn. eval_Rltb. cbn.
  rewrite exp_0. eval_Rltb. reflexivity.
Qed.

Lemma top_p_keeps_nucleus_witness :
  exists indices_to_remove,
    topp_indices_to_remove [[Fin 0; Fin 0]] (1 / 4) = Some indices_to_remove /\
    heap_get [[[Fin 0; NInf]]] 0%nat =
    Some (index_put [[Fin 0; Fin 0]] indices_to_remove NInf).
Proof.
  destruct (top_p_keeps_nucleus [[[Fin 0; Fin 0]]] [[[Fin 0; NInf]]]
              0%nat 0%nat [[Fin 0; Fin 0]] 0 (1 / 4) NInf)
    as (m & Hm & Hh & _).
  - reflexivity.
  - lia.
  - lra.
  - exact filtering_nucleus_example.
  - exists m. split; assumption.
Defined.

End SamplerFacts.

(* ================================================================= *)
(** ** The model as its callers use it ([var_model.py]) *)

Module VARFacts.
Import Tensor VARModel.
Local Open Scope R_scope.

(** *** Helper lemmas on [mapM] and lists *)

Lemma mapM_none {A B} (f : A -> option B) (l : list A) (x : A) :
  In x l -> f x = None -> mapM f l = None.
Proof.
  induction l as [|y l IH]; intros Hin Hx; [easy|]. simpl.
  destruct Hin as [->|Hin].
  - now rewrite Hx.
  - rewrite (IH Hin Hx). now destruct (f y).
Qed.

Lemma mapM_ext_in {A B} (f g : A -> option B) (l : list A) :
  (forall x, In x l -> f x = g x) -> mapM f l = mapM g l.
Proof.
  induction l as [|y l IH]; intros H; [reflexivity|]. simpl.
  rewrite (H y) by now left. rewrite IH; [reflexivity|].
  intros x Hx. apply H. now right.
Qed.

Lemma mapM_option_map {A B C} (f : A -> option B) (g : B -> C) (l : list A) :
  mapM (fun x => option_map g (f x)) l = option_map (map g) (mapM f l).
Proof.
  induction l as [|y l IH]; [reflexivity|]. simpl. rewrite IH.
  destruct (f y); simpl; [|reflexivity]. now destruct (mapM f l).
Qed.

Lemma last_map {A B} (f : A -> B) (l : list A) (d : A) (d' : B) :
  l <> [] -> last (map f l) d' = f (last l d).
Proof.
  induction l as [|x l IH]; intros Hne; [easy|].
  destruct l as [|y l]; [reflexivity|].
  change (last (map f (y :: l)) d' = f (last (y :: l) d)).
  apply IH. discriminate.
Qed.

Lemma in_combine_row {A B} (l : list A) (l' : list B) (x : A) :
  length l' = length l -> In x l -> exists y, In (x, y) (combine l l').
Proof.
  revert l'. induction l as [|a l IH]; intros [|b l'] Hlen Hin; simpl in *;
    try easy.
  destruct Hin as [->|Hin].
  - exists b. now left.
  - destruct (IH l' ltac:(lia) Hin) as [y Hy]. exists y. now right.
Qed.

Lemma conditions_total (m : VAR) (batch : nat) (class_labels : option (list nat)) :
  valid_labels m batch class_labels ->
  exists conds, conditions m batch class_labels = Some conds /\
                length conds = batch.
Proof.
  intros Hlab. unfold conditions. destruct class_labels as [labels|].
  - destruct (Hlab labels eq_refl) as [Hl Hr].
    destruct (embedding_lookup_total _ _ Hr) as (x & Hx & Hxl).
    exists x. split; auto. congruence.
  - eexists. split; [reflexivity|]. apply repeat_length.
Qed.

(** *** The shape of the logits *)

(** X11. On valid input the teacher-forced pass returns logits of shape
    [[B, seq_len, vocab_size]]: one row per batch element, one logit vector
    per token of that row, each as long as the output projection. *)
Theorem forward_logits_shape (gelu : R -> R) (m : VAR)
    (tokens : list (list nat)) (class_labels : option (list nat)) :
  Forall (valid_tokens m) tokens ->
  valid_labels m (length tokens) class_labels ->
  length (bias (to_logits m)) = logits_size m ->
  exists logits,
    forward gelu m tokens class_labels = Some logits /\
    length logits = length tokens /\
    forall b, (b < length tokens)%nat ->
      length (nth b logits []) = length (nth b tokens []) /\
      Forall (fun v => length v = logits_size m) (nth b logits []).
Proof.
  intros Hv Hlab Hbias.
  destruct (conditions_total m _ _ Hlab) as (conds & Hc & Hcl).
  unfold forward. rewrite Hc, Hcl, Nat.eqb_refl.
  set (f := fun tc : list nat * vec => forward_sample gelu m (fst tc) (snd tc)).
  assert (Htot : exists logits, mapM f (combine tokens conds) = Some logits).
  { apply mapM_total. apply Forall_forall. intros [row c] Hin.
    apply in_combine_l in Hin. rewrite Forall_forall in Hv.
    destruct (forward_sample_prefix gelu m row c (Hv row Hin)) as (o & Ho & _).
    now exists o. }
  destruct Htot as [logits Hl]. exists logits. split; [exact Hl|].
  pose proof (mapM_length _ _ _ Hl) as Hll.
  rewrite length_combine, Hcl, Nat.min_id in Hll.
  split; [exact Hll|]. intros b Hb.
  pose proof (mapM_nth f _ _ b ([], []) [] Hl) as Hnth.
  rewrite length_combine, Hcl, Nat.min_id in Hnth. specialize (Hnth Hb).
  rewrite combine_nth in Hnth by auto. unfold f in Hnth. cbn [fst snd] in Hnth.
  assert (Hrow : valid_tokens m (nth b tokens [])).
  { rewrite Forall_forall in Hv. apply Hv. now apply nth_In. }
  destruct (forward_sample_prefix gelu m (nth b tokens []) (nth b conds []) Hrow)
    as (o & Ho & Hol & _).
  pose proof (eq_trans (eq_sym Ho) Hnth) as Heq. inversion Heq; subst o. split; [exact Hol|].
  unfold forward_sample in Hnth.
  destruct (embedding_lookup _ _); [|easy]. destruct (add_pos _ _ _); [|easy].
  destruct (run_blocks _ _ _ _ _); [|easy]. inversion Hnth as [Hn].
  apply Forall_forall. intros v Hin. apply in_map_iff in Hin.
  destruct Hin as (x & <- & _). rewrite linear_length, Hbias.
  apply Nat.min_id.
Qed.

Lemma forward_logits_shape_witness :
  exists logits,
    forward (fun x => x) (VAR_new cfg_one_scale init_zero) [[1%nat]] None
    = Some logits /\
    length logits = 1%nat.
Proof.
  destruct (forward_logits_shape (fun x => x) (VAR_new cfg_one_scale init_zero)
              [[1%nat]] None) as (logits & Hl & Hn & _).
  - constructor; [|constructor]. split; [|vm_compute; lia].
    constructor; [vm_compute; lia|constructor].
  - intros labels H. discriminate.
  - reflexivity.
  - exists logits. split; assumption.
Defined.

(** *** Rejected input *)

(** X12. The teacher-forced pass raises on a token id that is no row of
    the token table, and on a row with more tokens than there are position
    embeddings (when the table has at least two rows, so that nothing is
    broadcast). *)
Theorem forward_rejects (gelu : R -> R) (m : VAR)
    (tokens : list (list nat)) (class_labels : option (list nat))
    (row : list nat) :
  In row tokens ->
  Exists (fun t => (length (token_embedding m) <= t)%nat) row \/
  (2 <= length (pos_embedding m) < length row)%nat ->
  forward gelu m tokens class_labels = None.
Proof.
  intros Hin Hbad. unfold forward.
  destruct (conditions m (length tokens) class_labels) as [conds|];
    [|reflexivity].
  destruct (length conds =? length tokens)%nat eqn:Hlen; [|reflexivity].
  apply Nat.eqb_eq in Hlen.
  destruct (in_combine_row tokens conds row Hlen Hin) as [c Hc].
  apply (mapM_none _ _ _ Hc). cbn [fst snd]. unfold forward_sample.
  destruct (embedding_lookup (token_embedding m) row) as [x|] eqn:Hx;
    [|reflexivity].
  destruct Hbad as [Htok|Hlong].
  - exfalso. apply Exists_exists in Htok. destruct Htok as (t & Ht & Hge).
    unfold embedding_lookup in Hx.
    assert (Hnone : nth_error (token_embedding m) t = None)
      by now apply nth_error_None.
    now rewrite (mapM_none _ _ _ Ht Hnone) in Hx.
  - unfold embedding_lookup in Hx. apply mapM_length in Hx.
    unfold add_pos. rewrite length_firstn, Hx.
    replace (Nat.min (length row) (length (pos_embedding m)))
      with (length (pos_embedding m)) by lia.
    replace (length (pos_embedding m) =? length row)%nat with false
      by (symmetry; apply Nat.eqb_neq; lia).
    replace (length (pos_embedding m) =? 1)%nat with false
      by (symmetry; apply Nat.eqb_neq; lia).
    replace (length row =? 1)%nat with false
      by (symmetry; apply Nat.eqb_neq; lia).
    reflexivity.
Qed.

Lemma forward_rejects_witness :
  forward (fun x => x) (VAR_new cfg_one_scale init_zero) [[5%nat]] None = None.
Proof.
  apply (forward_rejects _ _ _ _ [5%nat]).
  - now left.
  - left. constructor. vm_compute. lia.
Defined.

(** *** [generate] and [forward] *)

(** X13. The two copies of the network in the source agree: at a step
    with [seq_len >= 1] tokens per row, and within the position table, the
    logits from which [generate] draws the next token are the logits that
    the teacher-forced [forward] returns at the last position of the current
    sequences. *)
Theorem next_logits_match_forward (gelu : R -> R) (m : VAR)
    (tokens : list (list nat)) (class_labels : option (list nat))
    (condition : list vec) (L : nat) :
  (1 <= L <= length (pos_embedding m))%nat ->
  Forall (fun row => length row = L) tokens ->
  conditions m (length tokens) class_labels = Some condition ->
  next_logits gelu m condition {| generated := tokens; seq_len := L |} =
  option_map (map (fun rows => last rows []))
             (forward gelu m tokens class_labels).
Proof.
  intros HL Hrows Hc. unfold next_logits, forward.
  cbn [generated seq_len]. rewrite Hc.
  replace (L =? 0)%nat with false by (symmetry; apply Nat.eqb_neq; lia).
  destruct (length condition =? length tokens)%nat; [|reflexivity].
  rewrite <- mapM_option_map. apply mapM_ext_in. intros [row c] Hin.
  cbn [fst snd]. apply in_combine_l in Hin.
  rewrite Forall_forall in Hrows. specialize (Hrows row Hin).
  unfold forward_sample. rewrite Hrows.
  destruct (embedding_lookup (token_embedding m) row) as [x|] eqn:Hx;
    [|reflexivity].
  assert (Hxl : length x = L).
  { unfold embedding_lookup in Hx. apply mapM_length in Hx. congruence. }
  rewrite (add_pos_in_range x _ L Hxl) by lia.
  set (x1 := add_rows x (firstn L (pos_embedding m))).
  assert (Hx1 : length x1 = L).
  { unfold x1. rewrite add_rows_length; auto.
    rewrite length_firstn, Nat.min_l; lia. }
  fold (causal_attn_mask L).
  replace (causal_attn_mask L) with (causal_attn_mask (length x1))
    by now rewrite Hx1.
  rewrite run_blocks_causal. cbn [option_map]. f_equal.
  symmetry. apply last_map. intros Hnil.
  apply (f_equal (@length vec)) in Hnil.
  rewrite blocks_causal_length, Hx1 in Hnil. simpl in Hnil. lia.
Qed.

Lemma next_logits_match_forward_witness :
  next_logits (fun x => x) (VAR_new cfg_two_scales init_zero)
              [[0]] {| generated := [[1%nat]]; seq_len := 1 |} =
  option_map (map (fun rows => last rows []))
             (forward (fun x => x) (VAR_new cfg_two_scales init_zero)
                      [[1%nat]] None).
Proof.
  apply (next_logits_match_forward _ _ [[1%nat]] None [[0]] 1%nat).
  - vm_compute. lia.
  - constructor; [reflexivity|constructor].
  - reflexivity.
Defined.

(** X14. Unconditional generation draws the first token from the bias of
    the output projection alone: with [class_labels = None] the condition is
    the zero vector, so at the empty sequence every batch element gets the
    logits [to_logits.bias], whatever the weights are. *)
Theorem first_token_logits_are_bias (gelu : R -> R) (m : VAR)
    (batch_size : nat) (condition : list vec) (st : gen_state) :
  length (weight (to_logits m)) = length (bias (to_logits m)) ->
  conditions m batch_size None = Some condition ->
  seq_len st = 0%nat ->
  next_logits gelu m condition st =
  Some (repeat (bias (to_logits m)) batch_size).
Proof.
  intros Hwb Hc Hs. unfold next_logits. rewrite Hs. cbn [Nat.eqb].
  unfold conditions in Hc. inversion Hc; subst condition; clear Hc.
  f_equal. rewrite map_const_repeat with (b := bias (to_logits m)).
  - now rewrite repeat_length.
  - intros c Hcin. apply repeat_spec in Hcin. subst c.
    unfold linear, vadd.
    assert (Hdot : forall w n, dot w (repeat 0 n) = 0).
    { intros w n. unfold dot, vmul. apply Rsum_zero. intros y Hy.
      revert n Hy. induction w as [|a w IH]; intros [|n] Hy; simpl in Hy;
        try easy.
      destruct Hy as [<-|Hy]; [lra|]. eapply IH; eauto. }
    assert (Hz : forall (ws : list vec) (bs : vec) n,
               length ws = length bs ->
               vmap2 Rplus (map (fun w => dot w (repeat 0 n)) ws) bs = bs).
    { induction ws as [|w ws IH]; intros [|b bs] n Hl; simpl in Hl; try easy.
      simpl. rewrite Hdot, IH by lia. f_equal. lra. }
    now apply Hz.
Qed.

Lemma first_token_logits_are_bias_witness :
  next_logits (fun x => x) (VAR_new cfg_one_scale init_zero)
              [[0]] {| generated := [[]]; seq_len := 0 |} =
  Some (repeat (bias (to_logits (VAR_new cfg_one_scale init_zero))) 1).
Proof.
  apply (first_token_logits_are_bias _ _ 1%nat); reflexivity.
Defined.

(** *** [generate] on a model as [__init__] builds it *)



(** *** [top_k] beyond the vocabulary *)

Lemma generate_scales_first_step (step : gen_state -> option gen_state)
    (scales : list Z) (st : gen_state) :
  step st = None -> (1 <= steps_of scales)%nat ->
  generate_scales step scales st = None.
Proof.
  intros Hstep. induction scales as [|scale scales IH]; intros Hn.
  - simpl in Hn. lia.
  - cbn [generate_scales]. cbn [steps_of fold_right] in Hn.
    fold (steps_of scales) in Hn.
    destruct (Z.to_nat (scale * scale)) as [|n] eqn:Hsq.
    + cbn [iterate]. apply IH. lia.
    + cbn [iterate]. now rewrite Hstep.
Qed.

(** X16. [generate] raises at its first step when [top_k] exceeds the
    vocabulary ([torch.topk] cannot select that many entries): a model with
    fewer than 100 tokens cannot be sampled with the default [top_k = 100].
    This holds for every temperature other than zero, as soon as there is
    one batch element and one position to fill. *)
Theorem generate_top_k_beyond_vocabulary (gelu : R -> R) (m : VAR)
    (batch_size : nat) (class_labels : option (list nat))
    (temperature : R) (top_k : Z) (top_p : R) (rng : nat -> nat -> R) :
  model_ok m -> valid_labels m batch_size class_labels ->
  temperature <> 0 ->
  (1 <= batch_size)%nat -> (0 < total_seq_len m)%Z ->
  (logits_size m < Z.to_nat top_k)%nat ->
  generate gelu m batch_size class_labels temperature top_k top_p rng = None.
Proof.
  intros Hok Hlab HT HB Hlen Hk. unfold generate.
  destruct (conditions_total m _ _ Hlab) as (condition & Hc & Hcl).
  rewrite Hc.
  set (st0 := {| generated := repeat [] batch_size; seq_len := 0 |}).
  assert (Hstep : generate_step gelu m condition temperature top_k top_p rng st0
                  = None).
  { destruct (next_logits_total gelu m condition st0 Hok)
      as (logits & Hl & Hll & Hrows).
    - rewrite Hcl. split; [apply repeat_length|]. cbn [generated seq_len st0].
      apply Forall_forall. intros row Hrow. apply repeat_spec in Hrow.
      subst row. split; [reflexivity|constructor].
    - cbn [seq_len st0]. lia.
    - unfold generate_step. rewrite Hl.
      destruct (Req_dec_T temperature 0) as [E|_]; [contradiction|].
      unfold Sampler.top_k_top_p_filtering.
      replace (0 <? top_k)%Z with true by (symmetry; apply Z.ltb_lt; lia).
      cbn [Sampler.heap_get nth_error].
      destruct logits as [|row logits]; [simpl in Hll; lia|].
      inversion Hrows as [|? ? Hrow _]; subst.
      unfold Sampler.topk_indices_to_remove. cbn [map mapM].
      unfold Sampler.topk_remove_row at 1, Sampler.topk_threshold.
      rewrite length_map, Hrow.
      replace (Z.to_nat top_k <=? logits_size m)%nat with false
        by (symmetry; apply Nat.leb_gt; lia).
      reflexivity. }
  rewrite (generate_scales_first_step _ _ _ Hstep); [reflexivity|].
  destruct (steps_of_total (scales m)) as [-> _].
  destruct Hok as (_ & _ & _ & _ & <-). lia.
Qed.

Lemma generate_top_k_beyond_vocabulary_witness :
  generate (fun x => x) (VAR_new cfg_one_scale init_zero) 1 None 1 100 1
           (fun _ _ => 0) = None.
Proof.
  destruct (VAR_init_ok cfg_one_scale init_zero cfg_one_scale_accepted)
    as (m & Hm & Hok & HV & Htot); [simpl; lia|].
  assert (Hm' : m = VAR_new cfg_one_scale init_zero).
  { unfold VAR_init in Hm. rewrite cfg_one_scale_accepted in Hm.
    now inversion Hm. }
  subst m.
  apply generate_top_k_beyond_vocabulary; auto.
  - intros labels H. discriminate.
  - rewrite Htot. reflexivity.
  - rewrite HV. vm_compute. lia.
Defined.

(** *** The training loss ([VAR.forward] with [return_loss=True]) *)

(** The value of the loss tensor: the mean over no term is not a number. *)
Inductive loss_value : Type :=
| LossNaN : loss_value
| LossOf : R -> loss_value.

(** [F.cross_entropy] for one row of logits and its target class:
    [-log_softmax(input)[target]]. Torch raises when the target is no
    class index. *)
Definition cross_entropy_row (input : vec) (target : nat) : option R :=
  if (target <? length input)%nat
  then Some (ln (Rsum (map exp input)) - nth target input 0)
  else None.

(** [F.cross_entropy(input, target)] with the default mean reduction.
    Torch raises when the two batch sizes differ. *)
Definition cross_entropy (input : list vec) (target : list nat)
  : option loss_value :=
  if negb (length input =? length target)%nat then None
  else
    match mapM (fun it : vec * nat => cross_entropy_row (fst it) (snd it))
               (combine input target) with
    | None => None
    | Some [] => Some LossNaN
    | Some (l :: ls) => Some (LossOf (Rsum (l :: ls) / INR (length (l :: ls))))
    end.

(** [x.view(-1, vocab_size)] of the entries of [x] in row-major order;
    torch raises unless [vocab_size] is positive and divides their number. *)
Definition view_classes (vocab_size : Z) (flat : vec) : option (list vec) :=
  let V := Z.to_nat vocab_size in
  if (vocab_size <=? 0)%Z then None
  else if negb (length flat mod V =? 0)%nat then None
  else Some (tabulate (length flat / V)
                      (fun n => firstn V (skipn (n * V) flat))).

(** [VAR.forward(tokens, class_labels, return_loss=True)], lines 246-257:
    the logits and the loss. *)
Definition forward_with_loss (gelu : R -> R) (m : VAR)
    (tokens : list (list nat)) (class_labels : option (list nat))
  : option (list (list vec) * loss_value) :=
  match forward gelu m tokens class_labels with
  | None => None
  | Some logits =>
      let shift_logits := map (@removelast vec) logits in
      let shift_tokens := map (@tl nat) tokens in
      match view_classes (vocab_size m) (concat (concat shift_logits)) with
      | None => None
      | Some input =>
          match cross_entropy input (concat shift_tokens) with
          | None => None
          | Some loss => Some (logits, loss)
          end
      end
  end.

Lemma Rsum_ge_nth (l : list R) (i : nat) :
  (forall x, In x l -> 0 <= x) -> (i < length l)%nat -> nth i l 0 <= Rsum l.
Proof.
  revert i. induction l as [|x l IH]; intros i Hnn Hi; [simpl in Hi; lia|].
  assert (Hx : 0 <= x) by (apply Hnn; now left).
  assert (Hl : 0 <= Rsum l) by (apply Rsum_nonneg; intros y Hy; apply Hnn; now right).
  destruct i as [|i]; simpl.
  - lra.
  - assert (nth i l 0 <= Rsum l)
      by (apply IH; [intros y Hy; apply Hnn; now right|simpl in Hi; lia]).
    lra.
Qed.

Lemma cross_entropy_row_nonneg (input : vec) (target : nat) (l : R) :
  cross_entropy_row input target = Some l -> 0 <= l.
Proof.
  unfold cross_entropy_row.
  destruct (target <? length input)%nat eqn:Ht; [|easy].
  apply Nat.ltb_lt in Ht. intros H; inversion H; subst l; clear H.
  set (x := nth target input 0).
  assert (Hle : exp x <= Rsum (map exp input)).
  { replace (exp x) with (nth target (map exp input) 0).
    - apply Rsum_ge_nth; [|now rewrite length_map].
      intros y Hy. apply in_map_iff in Hy. destruct Hy as (z & <- & _).
      left. apply exp_pos.
    - rewrite (nth_indep _ 0 (exp 0)) by now rewrite length_map.
      now rewrite map_nth. }
  destruct Hle as [Hlt|Heq].
  - pose proof (ln_increasing _ _ (exp_pos x) Hlt) as H.
    rewrite ln_exp in H. lra.
  - rewrite <- Heq, ln_exp. lra.
Qed.

Lemma chunk_concat (V : nat) (rows : list vec) (n : nat) :
  Forall (fun r => length r = V) rows -> (n < length rows)%nat ->
  firstn V (skipn (n * V) (concat rows)) = nth n rows [].
Proof.
  intros Hrows. revert n. induction Hrows as [|r rows Hr _ IH]; intros n Hn.
  - simpl in Hn. lia.
  - destruct n as [|n]; simpl.
    + rewrite firstn_app, Hr, Nat.sub_diag, firstn_O, app_nil_r.
      apply firstn_all2. lia.
    + rewrite skipn_app, Hr.
      rewrite skipn_all2 by lia.
      replace (V + n * V - V)%nat with (n * V)%nat by lia.
      apply IH. simpl in Hn. lia.
Qed.

Lemma view_classes_concat (vocab_size : Z) (rows : list vec) :
  (1 <= vocab_size)%Z ->
  Forall (fun r => length r = Z.to_nat vocab_size) rows ->
  view_classes vocab_size (concat rows) = Some rows.
Proof.
  intros HV Hrows. unfold view_classes.
  replace (vocab_size <=? 0)%Z with false by (symmetry; apply Z.leb_gt; lia).
  set (V := Z.to_nat vocab_size) in *.
  assert (HV1 : (1 <= V)%nat) by (subst V; lia).
  rewrite (ScheduleFacts.concat_uniform_length V rows Hrows).
  rewrite Nat.Div0.mod_mul, Nat.eqb_refl. cbn [negb].
  rewrite Nat.div_mul by lia. f_equal.
  apply (nth_ext _ _ [] []).
  - apply tabulate_length.
  - intros n Hn. rewrite tabulate_length in Hn.
    rewrite tabulate_nth by auto. now apply chunk_concat.
Qed.

Lemma removelast_Forall {A} (P : A -> Prop) (l : list A) :
  Forall P l -> Forall P (removelast l).
Proof.
  induction 1 as [|x l Hx Hl IH]; [constructor|].
  destruct l as [|y l]; [constructor|].
  change (Forall P (x :: removelast (y :: l))). now constructor.
Qed.

Lemma concat_Forall {A} (P : A -> Prop) (ls : list (list A)) :
  Forall (Forall P) ls -> Forall P (concat ls).
Proof.
  induction 1 as [|l ls Hl _ IH]; simpl; [constructor|].
  apply Forall_app. now split.
Qed.

Lemma tl_Forall {A} (P : A -> Prop) (l : list A) : Forall P l -> Forall P (tl l).
Proof. intros [|x l' _ H]; simpl; auto. Qed.

Lemma cross_entropy_total (input : list vec) (target : list nat) (V : nat) :
  length input = length target ->
  Forall (fun r => length r = V) input ->
  Forall (fun t => (t < V)%nat) target ->
  (input = [] /\ cross_entropy input target = Some LossNaN) \/
  (input <> [] /\
   exists r, cross_entropy input target = Some (LossOf r) /\ 0 <= r).
Proof.
  intros Hlen Hin Htg. unfold cross_entropy.
  rewrite Hlen, Nat.eqb_refl. cbn [negb].
  set (f := fun it : vec * nat => cross_entropy_row (fst it) (snd it)).
  destruct (mapM_total f (combine input target)) as [ls Hls].
  { apply Forall_forall. intros [r t] Hrt. unfold f. cbn [fst snd].
    pose proof (in_combine_l _ _ _ _ Hrt) as Hr.
    pose proof (in_combine_r _ _ _ _ Hrt) as Ht.
    rewrite Forall_forall in Hin, Htg.
    unfold cross_entropy_row. rewrite (Hin r Hr).
    replace (t <? V)%nat with true
      by (symmetry; apply Nat.ltb_lt; now apply Htg).
    now eexists. }
  rewrite Hls. pose proof (mapM_length _ _ _ Hls) as Hll.
  rewrite length_combine, <- Hlen, Nat.min_id in Hll.
  destruct ls as [|l ls].
  - left. split; [|reflexivity]. destruct input; [reflexivity|easy].
  - right. split; [intros ->; easy|].
    eexists. split; [reflexivity|].
    assert (Hnn : forall x, In x (l :: ls) -> 0 <= x).
    { intros x Hx. pose proof (mapM_Forall2 _ _ _ Hls) as HF.
      clear -HF Hx. induction HF as [|it y its ys Hy _ IH]; [easy|].
      destruct Hx as [<-|Hx]; [|auto].
      eapply cross_entropy_row_nonneg. exact Hy. }
    apply Rmult_le_pos; [now apply Rsum_nonneg|].
    left. apply Rinv_0_lt_compat. apply lt_0_INR. simpl. lia.
Qed.

(** X17. The training loss. For a model whose output projection and
    token table have [vocab_size >= 1] rows, valid class labels and a batch
    of valid token rows of one length [L]: the pass returns the logits
    together with a loss. With at least one row and [L >= 2] the loss is a
    real number and it is never negative; with [L <= 1], or no row, there is
    nothing to predict and the loss is not a number. *)
Theorem training_loss_nonnegative (gelu : R -> R) (m : VAR)
    (tokens : list (list nat)) (class_labels : option (list nat)) (L : nat) :
  (1 <= vocab_size m)%Z ->
  length (weight (to_logits m)) = Z.to_nat (vocab_size m) ->
  length (bias (to_logits m)) = Z.to_nat (vocab_size m) ->
  length (token_embedding m) = Z.to_nat (vocab_size m) ->
  Forall (valid_tokens m) tokens ->
  Forall (fun row => length row = L) tokens ->
  valid_labels m (length tokens) class_labels ->
  exists logits,
    forward gelu m tokens class_labels = Some logits /\
    ((1 <= length tokens)%nat -> (2 <= L)%nat ->
     exists loss, forward_with_loss gelu m tokens class_labels
                  = Some (logits, LossOf loss) /\ 0 <= loss) /\
    (length tokens = 0%nat \/ (L <= 1)%nat ->
     forward_with_loss gelu m tokens class_labels = Some (logits, LossNaN)).
Proof.
  intros HV Hw Hb Ht Hvalid Hrows Hlab.
  destruct (forward_logits_shape gelu m tokens class_labels Hvalid Hlab)
    as (logits & Hf & Hll & Hshape).
  { unfold logits_size. congruence. }
  exists logits. split; [exact Hf|].
  unfold forward_with_loss. rewrite Hf.
  set (V := Z.to_nat (vocab_size m)) in *.
  assert (Hvec : Forall (Forall (fun v => length v = V)) logits).
  { apply Forall_forall. intros row Hin.
    destruct (In_nth _ _ [] Hin) as (b & Hb' & <-).
    assert (Hb2 : (b < length tokens)%nat) by (rewrite <- Hll; exact Hb').
    destruct (Hshape b Hb2) as [_ H].
    unfold logits_size in H. now rewrite Hw in H. }
  assert (Hlen : Forall2 (fun (row : list vec) (toks : list nat) =>
                            length row = length toks) logits tokens).
  { clear -Hll Hshape. revert tokens Hll Hshape.
    induction logits as [|row logits IH]; intros [|toks tokens] Hll Hshape;
      simpl in Hll; try easy; constructor.
    - apply (Hshape 0%nat). simpl. lia.
    - apply IH; [lia|]. intros b Hb. apply (Hshape (S b)). simpl. lia. }
  set (input := concat (map (@removelast vec) logits)).
  set (target := concat (map (@tl nat) tokens)).
  assert (Hinput : Forall (fun r => length r = V) input).
  { unfold input. apply concat_Forall. apply Forall_forall. intros r Hr.
    apply in_map_iff in Hr. destruct Hr as (row & <- & Hrow).
    apply removelast_Forall. rewrite Forall_forall in Hvec. auto. }
  assert (Htarget : Forall (fun t => (t < V)%nat) target).
  { unfold target. apply concat_Forall. apply Forall_forall. intros r Hr.
    apply in_map_iff in Hr. destruct Hr as (row & <- & Hrow).
    apply tl_Forall. rewrite Forall_forall in Hvalid.
    destruct (Hvalid row Hrow) as [Htok _]. now rewrite Ht in Htok. }
  assert (Hcount : length input = length target /\
                   length input = (length tokens * (L - 1))%nat).
  { unfold input, target. clear -Hlen Hrows.
    induction Hlen as [|row toks logits tokens Hrt _ IH]; [split; reflexivity|].
    inversion Hrows as [|? ? Htl Hrows']; subst.
    destruct (IH Hrows') as [IH1 IH2].
    cbn [map concat length]. rewrite !length_app, IH1.
    rewrite Sampler.removelast_length, Hrt.
    assert (Htk : length (tl toks) = (length toks - 1)%nat)
      by (destruct toks; simpl; lia).
    rewrite Htk. split; [reflexivity|].
    rewrite <- IH1, IH2. lia. }
  destruct Hcount as [Hcount Hsize].
  fold input. rewrite (view_classes_concat _ input HV Hinput). fold target.
  destruct (cross_entropy_total input target V Hcount Hinput Htarget)
    as [[Hnil Hce]|[Hne (r & Hce & Hr)]]; rewrite Hce.
  - split.
    + intros HB HL. exfalso. rewrite Hnil in Hsize. simpl in Hsize. nia.
    + intros _. reflexivity.
  - split.
    + intros _ _. now exists r.
    + intros Hz. exfalso. apply Hne.
      apply length_zero_iff_nil. rewrite Hsize. destruct Hz as [->|HL]; nia.
Qed.

Lemma training_loss_nonnegative_witness :
  exists logits,
    forward (fun x => x) (VAR_new cfg_two_scales init_zero) [[0; 1]]%nat None
    = Some logits /\
    exists loss,
      forward_with_loss (fun x => x) (VAR_new cfg_two_scales init_zero)
                        [[0; 1]]%nat None = Some (logits, LossOf loss) /\
      0 <= loss.
Proof.
  destruct (training_loss_nonnegative (fun x => x)
              (VAR_new cfg_two_scales init_zero) [[0; 1]]%nat None 2)
    as (logits & Hf & Hloss & _).
  - simpl. lia.
  - vm_compute. reflexivity.
  - vm_compute. reflexivity.
  - vm_compute. reflexivity.
  - constructor; [|constructor]. split; [|vm_compute; lia].
    constructor; [vm_compute; lia|]. constructor; [vm_compute; lia|constructor].
  - constructor; [reflexivity|constructor].
  - intros labels H. discriminate.
  - exists logits. split; [exact Hf|]. apply Hloss; simpl; lia.
Defined.

(** *** Attention under the causal mask *)

(** X18. Under the causal mask each output of an attention head is a
    weighted average of the value vectors at its own and the earlier
    positions only: for position [i] there are [i + 1] weights, none
    negative and summing to one, that give every coordinate of the output
    from the values at positions [0..i]. *)
Theorem causal_attention_average (L head_dim : nat) (q k v : list vec) (i : nat) :
  (i < L)%nat ->
  exists w : vec,
    length w = S i /\ (forall x, In x w -> 0 <= x) /\ Rsum w = 1 /\
    forall c, (c < head_dim)%nat ->
      nth c (nth i (attention_head L head_dim q k v (causal_attn_mask L)) []) 0
      = Rsum (tabulate (S i) (fun j => nth j w 0 * nth c (nth j v []) 0)).
Proof.
  intros Hi. unfold attention_head. rewrite tabulate_nth by auto. cbv zeta.
  set (qi := vscale _ (nth i q [])).
  set (scores := tabulate L _).
  set (a := tabulate (S i) (fun j => Fin (0 + dot qi (nth j k [])))).
  assert (Hscores : scores = a ++ repeat NInf (L - S i)).
  { unfold scores, a. replace L with (S i + (L - S i))%nat at 1 by lia.
    rewrite tabulate_split. f_equal.
    - apply tabulate_ext. intros j Hj.
      rewrite causal_attn_mask_entry by lia.
      replace (j <=? i)%nat with true by (symmetry; apply Nat.leb_le; lia).
      reflexivity.
    - rewrite <- (length_seq (L - S i) (S i)) at 2. apply map_const_repeat.
      intros j Hj. apply in_seq in Hj.
      rewrite causal_attn_mask_entry by lia.
      replace (j <=? i)%nat with false by (symmetry; apply Nat.leb_gt; lia).
      reflexivity. }
  assert (Hattn : softmax scores = softmax a ++ repeat 0 (L - S i)).
  { rewrite Hscores, softmax_masked_tail, repeat_length; auto.
    intros x Hx. now apply repeat_spec in Hx. }
  assert (Hlen : length (softmax a) = S i)
    by (unfold a; now rewrite softmax_length, tabulate_length).
  exists (softmax a). split; [exact Hlen|]. split; [|split].
  - intros x. apply SamplerFacts.softmax_nonneg.
  - apply SamplerFacts.softmax_sums_to_one.
    exists 0%nat, (0 + dot qi (nth 0 k [])). reflexivity.
  - intros c Hc. rewrite tabulate_nth by auto. rewrite Hattn.
    rewrite (Rsum_tabulate_split L (S i)) by
      (try lia; intros j Hj; rewrite app_nth2 by lia;
       rewrite nth_repeat; ring).
    f_equal. apply tabulate_ext. intros j Hj.
    now rewrite app_nth1 by lia.
Qed.

Lemma causal_attention_average_witness :
  exists w : vec,
    length w = 2%nat /\ (forall x, In x w -> 0 <= x) /\ Rsum w = 1 /\
    forall c, (c < 1)%nat ->
      nth c (nth 1 (attention_head 2 1 [[1]; [2]] [[1]; [2]] [[3]; [4]]
                                   (causal_attn_mask 2)) []) 0
      = Rsum (tabulate 2 (fun j => nth j w 0 * nth c (nth j [[3]; [4]] []) 0)).
Proof.
  apply (causal_attention_average 2 1 [[1]; [2]] [[1]; [2]] [[3]; [4]] 1).
  lia.
Defined.

(** *** [count_parameters] *)

(** [p.numel()] of an embedding table or weight matrix, and of the
    parameters of a linear map. *)
Definition table_numel (t : list vec) : nat := length (concat t).

Definition linear_numel (l : Linear) : nat :=
  (table_numel (weight l) + length (bias l))%nat.

Definition block_numel (b : TransformerBlock) : nat :=
  (linear_numel (adaln_linear (adaLN1 b)) +
   linear_numel (adaln_linear (adaLN2 b)) +
   linear_numel (in_proj (attention b)) +
   linear_numel (out_proj (attention b)) +
   linear_numel (ffn_in b) + linear_numel (ffn_out b))%nat.

(** [VAR.count_parameters]: every parameter registered by [__init__] is
    trainable. *)
Definition count_parameters (m : VAR) : nat :=
  (table_numel (token_embedding m) + table_numel (class_embedding m) +
   table_numel (scale_embedding m) + table_numel (pos_embedding m) +
   list_sum (map block_numel (transformer_blocks m)) +
   linear_numel (to_logits m))%nat.

Lemma matrix_numel rows cols f : table_numel (matrix rows cols f) = (rows * cols)%nat.
Proof.
  unfold table_numel, matrix.
  rewrite (ScheduleFacts.concat_uniform_length cols).
  - now rewrite tabulate_length.
  - apply Forall_forall. intros r Hr. unfold tabulate in Hr.
    apply in_map_iff in Hr. destruct Hr as (i & <- & _).
    apply tabulate_length.
Qed.

Lemma new_linear_numel o i w b :
  linear_numel (new_linear o i w b) = (o * i + o)%nat.
Proof.
  unfold linear_numel, new_linear. cbn [weight bias].
  now rewrite matrix_numel, tabulate_length.
Qed.

Lemma new_block_numel d h f init layer :
  block_numel (new_block d h f init layer) =
  (2 * (2 * d * d + 2 * d) + (3 * d * d + 3 * d) + (d * d + d) +
   (f * d + f) + (d * f + d))%nat.
Proof.
  unfold block_numel, new_block.
  cbn [adaLN1 adaLN2 attention ffn_in ffn_out adaln_linear in_proj out_proj].
  rewrite !new_linear_numel. lia.
Qed.

Lemma list_sum_const {A} (g : A -> nat) (c : nat) (l : list A) :
  (forall x, In x l -> g x = c) -> list_sum (map g l) = (length l * c)%nat.
Proof.
  induction l as [|x l IH]; intros H; [reflexivity|].
  simpl. rewrite (H x) by now left. rewrite IH; [reflexivity|].
  intros y Hy. apply H. now right.
Qed.

(** X19. The number that [count_parameters] reports for a model as
    [__init__] builds it, in closed form. With [V], [d], [C], [M], [n], [f]
    the vocabulary size, model width, number of classes, [max_scale], number
    of layers and feed-forward width, and [T = total_seq_len]:
    [(2 V + C + M + T) d + V + n (8 d d + 2 f d + 9 d + f)]. The [M d]
    entries of the scale table are counted although no computation reads
    them. *)
Theorem count_parameters_closed_form (cfg : VARConfig) (init : Initializer) :
  let V := Z.to_nat (cfg_vocab_size cfg) in
  let d := Z.to_nat (cfg_d_model cfg) in
  let C := Z.to_nat (cfg_num_classes cfg) in
  let M := Z.to_nat (cfg_max_scale cfg) in
  let n := Z.to_nat (cfg_n_layers cfg) in
  let f := Z.to_nat (cfg_d_ff cfg) in
  let T := Z.to_nat (ScaleSchedule.total_seq_len (cfg_max_scale cfg)) in
  count_parameters (VAR_new cfg init) =
  ((2 * V + C + M + T) * d + V + n * (8 * d * d + 2 * f * d + 9 * d + f))%nat.
Proof.
  intros V d C M n f T. unfold count_parameters, VAR_new.
  cbn [token_embedding class_embedding scale_embedding pos_embedding
       transformer_blocks to_logits].
  rewrite !matrix_numel, new_linear_numel.
  rewrite (list_sum_const _
             (2 * (2 * d * d + 2 * d) + (3 * d * d + 3 * d) + (d * d + d) +
              (f * d + f) + (d * f + d))%nat).
  - rewrite tabulate_length. fold V d C M n f.
    change (ScaleSchedule.total_seq_len_of
              (ScaleSchedule.get_multi_scale_patches (cfg_max_scale cfg)))
      with (ScaleSchedule.total_seq_len (cfg_max_scale cfg)).
    fold T. nia.
  - intros b Hb. unfold tabulate in Hb. apply in_map_iff in Hb.
    destruct Hb as (layer & <- & _). apply new_block_numel.
Qed.

(** *** Sampling *)

Lemma pick_positive (probs : list R) : forall (acc v : R) (i : nat),
  (forall p, In p probs -> 0 <= p) ->
  acc <= v < acc + Rsum probs ->
  exists k,
    pick v (cumsum_from acc probs) i = (i + k)%nat /\
    (k < length probs)%nat /\ 0 < nth k probs 0.
Proof.
  induction probs as [|p rest IH]; intros acc v i Hnn Hv.
  - simpl in Hv. lra.
  - cbn [cumsum_from pick]. cbn [Rsum fold_right] in Hv. fold (Rsum rest) in Hv.
    destruct (Rltb v (acc + p)) eqn:Hlt.
    + apply Rltb_true in Hlt. exists 0%nat.
      split; [lia|]. split; [simpl; lia|]. simpl. lra.
    + apply Rltb_false in Hlt.
      assert (Hnn' : forall x, In x rest -> 0 <= x)
        by (intros x Hx; apply Hnn; now right).
      destruct (IH (acc + p) v (S i) Hnn' ltac:(lra)) as (k & Hk & Hkl & Hkp).
      destruct rest as [|p' rest'].
      * simpl in Hkl. lia.
      * cbn [cumsum_from] in *. exists (S k).
        split; [rewrite Hk; lia|]. split; [simpl in *; lia|exact Hkp].
Qed.

(** [torch.multinomial] driven by a number in [[0, 1)] returns an index
    of positive weight. *)
Lemma multinomial_positive (probs : list R) (u : R) (t : nat) :
  (forall p, In p probs -> 0 <= p) -> 0 <= u < 1 ->
  multinomial probs u = Some t ->
  (t < length probs)%nat /\ 0 < nth t probs 0.
Proof.
  intros Hnn Hu Hdraw. unfold multinomial in Hdraw.
  destruct (Rltb 0 (Rsum probs)) eqn:Hpos; [|easy].
  apply Rltb_true in Hpos. injection Hdraw as Hpick.
  destruct (pick_positive probs 0 (u * Rsum probs) 0%nat Hnn)
    as (k & Hk & Hkl & Hkp).
  - rewrite Rplus_0_l. split; [apply Rmult_le_pos; lra|].
    rewrite <- (Rmult_1_l (Rsum probs)) at 2.
    apply Rmult_lt_compat_r; lra.
  - unfold cumsum in Hpick. rewrite Hk in Hpick. simpl in Hpick. subst t.
    now split.
Qed.

(** Softmax gives positive probability to finite logits only. *)
Lemma softmax_positive_finite (row : list xreal) (t : nat) :
  (t < length row)%nat -> 0 < nth t (softmax row) 0 ->
  exists logit, nth_error row t = Some (Fin logit).
Proof.
  intros Ht Hp.
  destruct (nth_error row t) as [[|logit]|] eqn:Hrow.
  - exfalso. unfold softmax in Hp.
    rewrite (nth_indep _ 0 (xexp NInf / Rsum (map xexp row))) in Hp
      by (rewrite !length_map; lia).
    rewrite (map_nth (fun e => e / Rsum (map xexp row))) in Hp.
    rewrite (map_nth xexp) in Hp.
    rewrite (nth_error_nth _ _ NInf Hrow) in Hp. simpl in Hp.
    unfold Rdiv in Hp. rewrite Rmult_0_l in Hp. lra.
  - now exists logit.
  - apply nth_error_None in Hrow. lia.
Qed.

(** X26. A filtered token is never drawn. When the draw for a row is
    driven by a number [u] in [[0, 1)], the index that
    [torch.multinomial(softmax(filtered_logits))] returns is a position of
    the row, it has positive probability, and its logit is not minus
    infinity: softmax gives the removed entries probability zero, and no
    zero-probability index is selected. *)
Theorem sampling_never_picks_filtered (filtered_row : list xreal) (u : R)
    (next_token : nat) :
  0 <= u < 1 ->
  multinomial (softmax filtered_row) u = Some next_token ->
  (next_token < length filtered_row)%nat /\
  0 < nth next_token (softmax filtered_row) 0 /\
  exists logit, nth_error filtered_row next_token = Some (Fin logit).
Proof.
  intros Hu Hdraw.
  destruct (multinomial_positive (softmax filtered_row) u next_token)
    as [Hlt Hpos]; auto.
  - intros p. apply SamplerFacts.softmax_nonneg.
  - rewrite softmax_length in Hlt. split; [exact Hlt|]. split; [exact Hpos|].
    now apply softmax_positive_finite.
Qed.

Lemma sampling_never_picks_filtered_witness :
  exists logit, nth_error [NInf; Fin 0] 1 = Some (Fin logit).
Proof.
  apply (sampling_never_picks_filtered [NInf; Fin 0] (1 / 2) 1).
  - lra.
  - unfold multinomial, softmax. cbn. rewrite exp_0.
    eval_Rltb. cbn. eval_Rltb. reflexivity.
Defined.

(** X27. [top_k = 1] is greedy decoding. For a row whose largest logit
    is attained at one index only, the top-k step with [top_k = 1] masks
    every other entry, and the draw from the softmax of the masked row
    returns that index, whatever number in [[0, 1)] drives it. *)
Theorem top_1_is_argmax (row : list xreal) (mask : list bool) (best : nat)
    (u : R) (next_token : nat) :
  (best < length row)%nat ->
  (forall j, (j < length row)%nat -> j <> best ->
             xltb (nth j row NInf) (nth best row NInf) = true) ->
  0 <= u < 1 ->
  Sampler.topk_remove_row 1 row = Some mask ->
  multinomial (softmax (Sampler.index_put_row row mask NInf)) u
  = Some next_token ->
  next_token = best /\
  forall j, (j < length row)%nat -> nth j mask false = negb (j =? best)%nat.
Proof.
  intros Hbest Hmax Hu Hmask Hdraw.
  unfold Sampler.topk_remove_row, Sampler.topk_threshold in Hmask.
  replace (1 <=? length row)%nat with true in Hmask
    by (symmetry; apply Nat.leb_le; lia).
  injection Hmask as Hmask. cbn [Nat.sub] in Hmask.
  set (thr := nth 0 (fst (Sampler.sort_desc row)) NInf) in *.
  assert (Hthr : thr = nth best row NInf).
  { unfold thr, Sampler.sort_desc. cbn [fst].
    destruct (DescSort.sort (combine row (seq 0 (length row))))
      as [|[v0 i0] rest] eqn:Hs.
    - pose proof (Sampler.sort_desc_length row) as Hl. cbv zeta in Hl.
      rewrite Hs in Hl. simpl in Hl. lia.
    - cbn [map fst nth].
      assert (Hin0 : In (v0, i0) (DescSort.sort (combine row (seq 0 (length row)))))
        by (rewrite Hs; now left).
      apply Sampler.sort_desc_in in Hin0.
      assert (Hi0 : (i0 < length row)%nat)
        by (apply nth_error_Some; congruence).
      assert (Hv0 : v0 = nth i0 row NInf)
        by (symmetry; now apply nth_error_nth).
      assert (Hinb : In (nth best row NInf, best)
                        (DescSort.sort (combine row (seq 0 (length row)))))
        by (apply Sampler.sort_desc_complete; now apply nth_error_nth').
      pose proof (Sampler.sort_desc_head_max row v0 i0 rest _ _ Hs Hinb) as Hge.
      destruct (Nat.eq_dec i0 best) as [->|Hne]; [exact Hv0|].
      rewrite Hv0, (Hmax i0 Hi0 Hne) in Hge. discriminate. }
  assert (Hflag : forall j, (j < length row)%nat ->
            nth j mask false = negb (j =? best)%nat).
  { intros j Hj. subst mask.
    rewrite (nth_indep _ false (xltb NInf thr)) by now rewrite length_map.
    rewrite (map_nth (fun x => xltb x thr)), Hthr.
    destruct (Nat.eqb_spec j best) as [->|Hne]; cbn [negb].
    - apply xltb_irrefl.
    - now apply Hmax. }
  split; [|exact Hflag].
  destruct (multinomial_positive _ u next_token
              (fun p => SamplerFacts.softmax_nonneg _ p) Hu Hdraw)
    as [Hlt Hpos].
  rewrite softmax_length in Hlt.
  destruct (softmax_positive_finite _ _ Hlt Hpos) as [logit Hlogit].
  assert (Hlen : length mask = length row) by (subst mask; apply length_map).
  rewrite Sampler.index_put_row_nth_error in Hlogit by exact Hlen.
  destruct (nth_error row next_token) as [x|] eqn:Hx; [|discriminate].
  assert (Hn : (next_token < length row)%nat)
    by (apply nth_error_Some; congruence).
  cbn [option_map] in Hlogit. rewrite (Hflag _ Hn) in Hlogit.
  destruct (Nat.eqb_spec next_token best) as [Heq|Hne]; [exact Heq|].
  cbn [negb] in Hlogit. discriminate.
Qed.

Lemma top_1_is_argmax_witness :
  1%nat = 1%nat /\
  forall j, (j < 2)%nat -> nth j [true; false] false = negb (j =? 1)%nat.
Proof.
  apply (top_1_is_argmax [Fin 1; Fin 2] [true; false] 1 (1 / 2) 1).
  - simpl. lia.
  - intros [|[|j]] Hj Hne; simpl in *; try lia. apply Rltb_true. lra.
  - lra.
  - unfold Sampler.topk_remove_row, Sampler.topk_threshold, Sampler.sort_desc.
    cbn. unfold DescOrder.leb. cbn. eval_Rltb. cbn. eval_Rltb. reflexivity.
  - unfold multinomial, softmax, Sampler.index_put_row. cbn.
    eval_Rltb. cbn. 
    replace (Rltb 0 (0 / (0 + (exp 2 + 0)) + (exp 2 / (0 + (exp 2 + 0)) + 0)))
      with true.
    + assert (He : exp 2 / (0 + (exp 2 + 0)) = 1).
      { pose proof (exp_pos 2). field. lra. }
      rewrite He. replace (0 / (0 + (exp 2 + 0))) with 0
        by (unfold Rdiv; ring).
      eval_Rltb. reflexivity.
    + symmetry. apply Rltb_true. pose proof (exp_pos 2).
      assert (He : exp 2 / (0 + (exp 2 + 0)) = 1) by (field; lra).
      rewrite He. unfold Rdiv. rewrite Rmult_0_l. lra.
Defined.

End VARFacts.

(* ================================================================= *)
(** ** What the quantizer returns ([vqvae.py]) *)

Module VQFacts.
Import Tensor Autograd VQVAE.
Local Open Scope nat_scope.

(** The flat position [m] of a [[B, C, H, W]] tensor splits into four
    indices that give [m] back. *)
Lemma flatten_unflatten B C H W m :
  m < B * C * H * W ->
  let w := m mod W in
  let h := (m / W) mod H in
  let c := (m / (W * H)) mod C in
  let b := m / (W * H * C) in
  ((b * C + c) * H + h) * W + w = m /\ b < B /\ c < C /\ h < H /\ w < W.
Proof.
  intros Hm w h c b.
  assert (HW : W <> 0) by (intros ->; lia).
  assert (HH : H <> 0) by (intros ->; lia).
  assert (HC : C <> 0) by (intros ->; lia).
  pose proof (Nat.div_mod_eq m W) as E1.
  pose proof (Nat.div_mod_eq (m / W) H) as E2.
  pose proof (Nat.div_mod_eq (m / (W * H)) C) as E3.
  rewrite Nat.Div0.div_div in E2.
  rewrite Nat.Div0.div_div in E3.
  fold w in E1. fold h in E2. fold c b in E3.
  split; [|split; [|split; [|split]]].
  - transitivity (W * (m / W) + w); [|symmetry; exact E1].
    rewrite E2, E3. ring.
  - apply Nat.Div0.div_lt_upper_bound. lia.
  - apply Nat.mod_upper_bound, HC.
  - apply Nat.mod_upper_bound, HH.
  - apply Nat.mod_upper_bound, HW.
Qed.

Lemma flat_index_bound4 B H W C b h w c :
  b < B -> h < H -> w < W -> c < C ->
  ((b * H + h) * W + w) * C + c < B * H * W * C.
Proof.
  intros Hb Hh Hw Hc.
  pose proof (flat_index_bound B H W b h w Hb Hh Hw) as H1. nia.
Qed.

Lemma tensor_eq {A : Type} (a b : tensor A) :
  shape a = shape b -> data a = data b -> a = b.
Proof. destruct a, b. simpl. now intros -> ->. Qed.

Lemma permute_back_shape {A : Type} (d : A) (x : tensor A) (B C H W : nat) :
  shape x = [B; C; H; W] ->
  shape (permute_0312 d (permute_0231 d x)) = [B; C; H; W] /\
  length (data (permute_0312 d (permute_0231 d x))) = B * C * H * W.
Proof.
  intros Hs. unfold permute_0231, dims4. rewrite Hs. cbn [shape data nth].
  unfold permute_0312, dims4. cbn [shape data nth].
  split; [reflexivity|apply tabulate_length].
Qed.

(** Entry [m] of a tensor permuted forth and back is entry [m] of the
    tensor. *)
Lemma permute_back_nth {A : Type} (d : A) (x : tensor A) (B C H W m : nat) :
  shape x = [B; C; H; W] -> m < B * C * H * W ->
  nth m (data (permute_0312 d (permute_0231 d x))) d = nth m (data x) d.
Proof.
  intros Hs Hm. unfold permute_0231, dims4. rewrite Hs. cbn [shape data nth].
  unfold permute_0312, dims4. cbn [shape data nth].
  rewrite tabulate_nth by auto. cbv zeta.
  destruct (flatten_unflatten B C H W m Hm) as (Eflat & Hb & Hc & Hh & Hw).
  cbv zeta in *.
  set (w := m mod W) in *. set (h := (m / W) mod H) in *.
  set (c := (m / (W * H)) mod C) in *. set (b := m / (W * H * C)) in *.
  rewrite tabulate_nth by now apply flat_index_bound4.
  destruct (unflatten_bhwc H W C b h w c Hh Hw Hc) as (E1 & E2 & E3 & E4).
  cbv zeta in *. rewrite E1, E2, E3, E4, Eflat. reflexivity.
Qed.

Lemma permute_back_data {A : Type} (d : A) (x : tensor A) (B C H W : nat) :
  shape x = [B; C; H; W] -> length (data x) = B * C * H * W ->
  data (permute_0312 d (permute_0231 d x)) = data x.
Proof.
  intros Hs Hl. destruct (permute_back_shape d x B C H W Hs) as [_ Hlen].
  apply (nth_ext _ _ d d).
  - now rewrite Hlen.
  - intros m Hm. rewrite Hlen in Hm. now apply (permute_back_nth d x B C H W).
Qed.

(** X20. The two permutations of the quantizer undo each other: moving
    the channels of a [[B, C, H, W]] tensor last and then back to the second
    place returns the tensor. *)
Theorem permute_round_trip {A : Type} (d : A) (x : tensor A) (B C H W : nat) :
  shape x = [B; C; H; W] -> length (data x) = B * C * H * W ->
  permute_0312 d (permute_0231 d x) = x.
Proof.
  intros Hs Hl. apply tensor_eq.
  - destruct (permute_back_shape d x B C H W Hs) as [Hsh _]. congruence.
  - now apply (permute_back_data d x B C H W).
Qed.

Lemma permute_round_trip_witness :
  permute_0312 0 (permute_0231 0 (mktensor [1; 2; 1; 2] [1; 2; 3; 4]))
  = mktensor [1; 2; 1; 2] [1; 2; 3; 4].
Proof. apply (permute_round_trip 0 _ 1 2 1 2); reflexivity. Defined.

Lemma permute_0312_tmap {A B} (f : A -> B) (d : A) (a : tensor A) :
  tmap f (permute_0312 d a) = permute_0312 (f d) (tmap f a).
Proof.
  unfold tmap, permute_0312. cbn [shape data].
  destruct (dims4 (shape a)) as [[[B0 H] W] C]. cbn [shape data]. f_equal.
  unfold tabulate. rewrite map_map. apply map_ext. intros m.
  now rewrite map_nth.
Qed.

Lemma permute_0231_tmap {A B} (f : A -> B) (d : A) (a : tensor A) :
  tmap f (permute_0231 d a) = permute_0231 (f d) (tmap f a).
Proof.
  unfold tmap, permute_0231. cbn [shape data].
  destruct (dims4 (shape a)) as [[[B0 C] H] W]. cbn [shape data]. f_equal.
  unfold tabulate. rewrite map_map. apply map_ext. intros m.
  now rewrite map_nth.
Qed.

(** In the tangent, the straight-through estimator returns [x]. *)
Lemma straight_through_tan quantized x :
  length quantized = length x ->
  map tan (straight_through quantized x) = map tan x.
Proof.
  unfold straight_through. revert x.
  induction quantized as [|q qs IH]; intros [|y x]; simpl; intros Hl; try easy.
  injection Hl as Hl. rewrite IH by auto. f_equal. ring.
Qed.

Lemma forward_lengths vq x q loss enc B H W :
  codebook_ok vq -> shape x = [B; embedding_dim vq; H; W] ->
  forward vq x = Some (q, loss, enc) ->
  length (embedding (embeddings_weight vq) (data enc)) =
  length (data (permute_0231 (dconst 0) x)).
Proof.
  intros Hok Hs Hf.
  pose proof (forward_in_range _ _ _ _ _ _ _ _ Hok Hs Hf) as Hrange.
  destruct (forward_codes _ _ _ _ _ _ _ _ Hok Hs Hf) as (_ & Hlen & _).
  destruct (permute_0231_shape (dconst 0) x _ _ _ _ Hs) as [_ Hpl].
  destruct Hok as (_ & _ & _ & Hrows).
  rewrite (embedding_length _ (embedding_dim vq)) by auto.
  now rewrite Hpl, Hlen.
Qed.

(** X21. The straight-through estimator: the quantized tensor that
    [VectorQuantizer.forward] returns has the shape of the input, and its
    derivative is, entry by entry, the derivative of the input. Gradients
    reach the encoder as if no quantization had taken place, and the
    codebook gets none through this output. *)
Theorem straight_through_gradient (vq : VectorQuantizer) (x q : tensor dual)
    (loss : dual) (enc : tensor nat) (B H W : nat) :
  codebook_ok vq ->
  shape x = [B; embedding_dim vq; H; W] ->
  length (data x) = B * embedding_dim vq * H * W ->
  forward vq x = Some (q, loss, enc) ->
  shape q = shape x /\ map tan (data q) = map tan (data x).
Proof.
  intros Hok Hs Hl Hf.
  pose proof (forward_lengths _ _ _ _ _ _ _ _ Hok Hs Hf) as Hlen.
  destruct (forward_inv _ _ _ _ _ Hf) as (flat_x & _ & _ & _ & _ & Hq).
  cbv zeta in Hq.
  assert (Ht : tmap tan q = tmap tan x).
  { subst q. rewrite permute_0312_tmap. unfold tmap at 1. cbn [shape data].
    rewrite straight_through_tan by exact Hlen.
    change (mktensor (shape (permute_0231 (dconst 0) x))
                     (map tan (data (permute_0231 (dconst 0) x))))
      with (tmap tan (permute_0231 (dconst 0) x)).
    rewrite permute_0231_tmap.
    apply tensor_eq.
    - destruct (permute_back_shape (tan (dconst 0)) (tmap tan x)
                  B (embedding_dim vq) H W Hs) as [Hsh _].
      cbn [tmap shape] in *. congruence.
    - apply (permute_back_data _ _ B (embedding_dim vq) H W).
      + exact Hs.
      + cbn [tmap data]. now rewrite length_map. }
  unfold tmap in Ht. now inversion Ht.
Qed.

Lemma straight_through_gradient_witness :
  exists q loss enc,
    forward vq_one_code x_unit = Some (q, loss, enc) /\
    map tan (data q) = map tan (data x_unit).
Proof.
  destruct (forward_total vq_one_code x_unit 1 1 1) as (q & loss & enc & Hf).
  - unfold codebook_ok. simpl. repeat split; try lia. repeat constructor.
  - reflexivity.
  - exists q, loss, enc. split; [exact Hf|].
    apply (straight_through_gradient vq_one_code x_unit q loss enc 1 1 1).
    + unfold codebook_ok. simpl. repeat split; try lia. repeat constructor.
    + reflexivity.
    + reflexivity.
    + exact Hf.
Defined.

(** X23. A channel count other than [embedding_dim] is an error of the
    call: on a [[B, C, H, W]] input with at least one feature vector and
    [C <> embedding_dim] the quantizer raises, either because the entries do
    not split into rows of [embedding_dim] or because the number of
    encodings is not [B * H * W]. *)
Theorem forward_rejects_channel_mismatch (vq : VectorQuantizer)
    (x : tensor dual) (B C H W : nat) :
  shape x = [B; C; H; W] -> C <> embedding_dim vq -> 0 < B * H * W ->
  forward vq x = None.
Proof.
  intros Hs HC Hpos. unfold forward.
  replace (negb (length (shape x) =? 4)) with false by now rewrite Hs.
  destruct (permute_0231_shape (dconst 0) x _ _ _ _ Hs) as [Hps Hpl].
  unfold view_rows. rewrite Hpl, Hps.
  set (D := embedding_dim vq) in *.
  destruct (D =? 0) eqn:HD0; [reflexivity|]. apply Nat.eqb_neq in HD0.
  destruct (B * H * W * C mod D =? 0) eqn:Hmod; [|reflexivity].
  apply Nat.eqb_eq in Hmod. cbn [orb negb].
  destruct (nearest_codes vq _) as [idx|] eqn:Hidx; [|reflexivity].
  apply mapM_length in Hidx. rewrite tabulate_length in Hidx.
  replace (length idx =? numel (firstn 3 [B; H; W; C])) with false;
    [reflexivity|].
  symmetry. apply Nat.eqb_neq. rewrite Hidx. cbn [firstn numel fold_right].
  intros Heq.
  pose proof (Nat.div_mod_eq (B * H * W * C) D) as E.
  rewrite Hmod, Heq in E. apply HC. nia.
Qed.

Lemma forward_rejects_channel_mismatch_witness :
  forward vq_one_code (mktensor [1; 2; 1; 1] [mkdual 1 0; mkdual 2 0]) = None.
Proof.
  apply (forward_rejects_channel_mismatch _ _ 1 2 1 1).
  - reflexivity.
  - simpl. lia.
  - simpl. lia.
Defined.

Lemma sq_errors_nonneg (a b : list R) : (0 <= Rsum (sq_errors a b))%R.
Proof.
  revert b. induction a as [|x a IH]; intros [|y b]; simpl; try lra.
  specialize (IH b). pose proof (Rle_0_sqr (x - y)) as Hsq.
  unfold Rsqr in Hsq. lra.
Qed.

Lemma sq_errors_same (a : list R) : Rsum (sq_errors a a) = 0%R.
Proof. induction a as [|x a IH]; simpl; [reflexivity|]. rewrite IH. ring. Qed.

(** X28. On a non-empty input the quantization loss is never negative
    when [commitment_cost >= 0], and it is zero when every feature vector of
    the input already is the code selected for it. *)
Theorem vq_loss_nonnegative (vq : VectorQuantizer) (x q : tensor dual)
    (loss : dual) (enc : tensor nat) :
  (0 <= commitment_cost vq)%R ->
  forward vq x = Some (q, loss, enc) ->
  let input := data (permute_0231 (dconst 0) x) in
  let quantized := embedding (embeddings_weight vq) (data enc) in
  quantized <> [] ->
  (0 <= val loss)%R /\
  (map val quantized = map val input -> val loss = 0%R).
Proof.
  intros Hcc Hf input quantized Hne.
  destruct (forward_inv _ _ _ _ _ Hf) as (flat_x & _ & _ & _ & Hloss & _).
  cbv zeta in Hloss. fold input quantized in Hloss. subst loss.
  unfold vq_loss_of, dadd, dscale. cbn [val].
  rewrite !mse_loss_val, length_map, !map_detach_val. unfold mse.
  set (n := length quantized).
  assert (Hn : (0 <= / INR n)%R).
  { left. apply Rinv_0_lt_compat. apply lt_0_INR. unfold n.
    destruct quantized; [easy|simpl; lia]. }
  pose proof (sq_errors_nonneg (map val quantized) (map val input)) as Hsq.
  split.
  - assert (H1 : (0 <= / INR n * Rsum (sq_errors (map val quantized) (map val input)))%R)
      by now apply Rmult_le_pos.
    pose proof (Rmult_le_pos _ _ Hcc H1). lra.
  - intros Heq. rewrite Heq, sq_errors_same. ring.
Qed.

Lemma vq_loss_nonnegative_witness :
  exists q loss enc,
    forward vq_one_code x_unit = Some (q, loss, enc) /\ (0 <= val loss)%R.
Proof.
  destruct (forward_total vq_one_code x_unit 1 1 1) as (q & loss & enc & Hf).
  - unfold codebook_ok. simpl. repeat split; try lia. repeat constructor.
  - reflexivity.
  - exists q, loss, enc. split; [exact Hf|].
    apply (vq_loss_nonnegative vq_one_code x_unit q loss enc).
    + simpl. lra.
    + exact Hf.
    + pose proof forward_x_unit as Hu. rewrite Hf in Hu.
      injection Hu as _ _ ->. discriminate.
Defined.

End VQFacts.

(* ================================================================= *)
(** ** The quantizer in binary32 arithmetic ([vqvae.py]) *)

Module VQFloat.
Import VQVAE.
Local Open Scope nat_scope.

(** *** float32 entries *)

(** An entry of a float32 tensor is an IEEE 754 binary32 datum: a signed
    zero, a signed infinity, NaN, or a finite number [(-1)^s * m * 2^e].
    The operations round to nearest, ties to even, with 24 bits of
    precision and exponents below 128. *)
Definition float32 : Type := SpecFloat.spec_float.

Definition prec : Z := 24.
Definition emax : Z := 128.

Definition fadd : float32 -> float32 -> float32 := SpecFloat.SFadd prec emax.
Definition fsub : float32 -> float32 -> float32 := SpecFloat.SFsub prec emax.
Definition fmul : float32 -> float32 -> float32 := SpecFloat.SFmul prec emax.
Definition fdiv : float32 -> float32 -> float32 := SpecFloat.SFdiv prec emax.

(** The comparison [a < b] of IEEE 754: false when either side is NaN. *)
Definition fltb : float32 -> float32 -> bool := SpecFloat.SFltb.

Definition is_nan (a : float32) : bool :=
  match a with
  | SpecFloat.S754_nan => true
  | _ => false
  end.

Definition fzero : float32 := SpecFloat.S754_zero false.

(** The float32 nearest to [m * 2^e]. *)
Definition f32 (m e : Z) : float32 :=
  SpecFloat.binary_normalize prec emax m e false.

(** A float32 that an IEEE 754 machine can hold. *)
Definition representable (a : float32) : bool :=
  SpecFloat.valid_binary prec emax a.

(** The real number that a finite float32 stands for. *)
Definition F2R (a : float32) : R :=
  match a with
  | SpecFloat.S754_finite s m e =>
      let v := if (0 <=? e)%Z then IZR (Zpos m * 2 ^ e)
               else (IZR (Zpos m) / IZR (2 ^ (- e)))%R in
      if s then (- v)%R else v
  | _ => 0%R
  end.

Fixpoint fmap2 (f : float32 -> float32 -> float32) (a b : list float32)
  : list float32 :=
  match a, b with
  | x :: a', y :: b' => f x y :: fmap2 f a' b'
  | _, _ => []
  end.

(** *** Reductions *)

(** torch does not fix the order in which [torch.sum], [torch.matmul] and
    [F.mse_loss] add up their terms, and the rounded result depends on it.
    The reductions are therefore parameters of the model: any functions of
    the tensors they are applied to. *)
Record Reductions : Type := {
  (** entry [n] of [torch.sum(t, dim=1)] *)
  sum_dim1 : list (list float32) -> nat -> float32;
  (** entry [(n, j)] of [torch.matmul(a, b.t())] *)
  matmul_t : list (list float32) -> list (list float32) -> nat -> nat -> float32;
  (** [F.mse_loss(input, target)] on the entries of its arguments *)
  mse_loss : list float32 -> list float32 -> float32
}.

(** The reductions that add their terms one after another. *)
Definition sum_list (l : list float32) : float32 :=
  match l with
  | [] => fzero
  | v :: l' => fold_left fadd l' v
  end.

Definition sequential : Reductions := {|
  sum_dim1 := fun t n => sum_list (nth n t []);
  matmul_t := fun a b n j => sum_list (fmap2 fmul (nth n a []) (nth j b []));
  mse_loss := fun a b =>
    fdiv (sum_list (fmap2 (fun u v => fmul (fsub u v) (fsub u v)) a b))
         (f32 (Z.of_nat (length a)) 0)
|}.

(** *** The quantizer *)

Record VectorQuantizer : Type := {
  num_embeddings : nat;
  embedding_dim : nat;
  commitment_cost : float32;
  (** [self.embeddings.weight], one row per code *)
  embeddings_weight : list (list float32)
}.

(** [self.embeddings(indices)]: the rows of the codebook, one after another. *)
Definition embedding (weight : list (list float32)) (indices : list nat)
  : list float32 :=
  concat (map (fun i => nth i weight []) indices).

(** [t**2], entry by entry. *)
Definition pow2 (t : list (list float32)) : list (list float32) :=
  map (map (fun v => fmul v v)) t.

(** Entry [(n, j)] of [distances] (lines 50-54): the sum of the squares of
    feature vector [n], plus the sum of the squares of code [j], minus twice
    their product, each operation rounded. *)
Definition distance (ops : Reductions) (flat_x weight : list (list float32))
    (n j : nat) : float32 :=
  fsub (fadd (sum_dim1 ops (pow2 flat_x) n) (sum_dim1 ops (pow2 weight) j))
       (fmul (f32 2 0) (matmul_t ops flat_x weight n j)).

Definition distances (ops : Reductions) (flat_x weight : list (list float32))
  : list (list float32) :=
  tabulate (length flat_x) (fun n =>
    tabulate (length weight) (distance ops flat_x weight n)).

(** The order in which [torch.argmin] looks for the least entry: a NaN
    comes before every number, and numbers compare by [<]. *)
Definition better (a b : float32) : bool :=
  if is_nan a then negb (is_nan b) else fltb a b.

(** [argmin] of a row: the index of the first entry that no entry comes
    before. *)
Fixpoint argmin_from (best_i : nat) (best : float32) (i : nat)
    (l : list float32) : nat :=
  match l with
  | [] => best_i
  | y :: l' =>
      if better y best then argmin_from i y (S i) l'
      else argmin_from best_i best (S i) l'
  end.

Definition argmin (l : list float32) : option nat :=
  match l with
  | [] => None
  | y :: l' => Some (argmin_from 0 y 1 l')
  end.

(** Lines 50-57: for each feature vector the index that [argmin] finds in
    its row of [distances]. *)
Definition nearest_codes (ops : Reductions) (vq : VectorQuantizer)
    (flat_x : list (list float32)) : option (list nat) :=
  mapM argmin (distances ops flat_x (embeddings_weight vq)).

(** Lines 63-65. Both mean squared errors are taken of the same values. *)
Definition vq_loss_of (ops : Reductions) (commitment_cost : float32)
    (quantized x : list float32) : float32 :=
  let e_latent_loss := mse_loss ops quantized x in
  let q_latent_loss := mse_loss ops quantized x in
  fadd q_latent_loss (fmul commitment_cost e_latent_loss).

(** Line 68, [x + (quantized - x).detach()]: a rounded difference and a
    rounded sum. *)
Definition straight_through (quantized x : list float32) : list float32 :=
  fmap2 fadd x (fmap2 fsub quantized x).

(** [VectorQuantizer.forward]: the quantized tensor, the loss and the
    encodings. [permute] raises on a tensor that has not four dimensions,
    and the last [view] when the number of encodings is not [B * H * W]. *)
Definition forward (ops : Reductions) (vq : VectorQuantizer) (x : tensor float32)
  : option (tensor float32 * float32 * tensor nat) :=
  if negb (length (shape x) =? 4) then None else
  let x := permute_0231 fzero x in
  let input_shape := shape x in
  match view_rows (embedding_dim vq) (data x) with
  | None => None
  | Some flat_x =>
      match nearest_codes ops vq flat_x with
      | None => None
      | Some encoding_indices =>
          let quantized :=
            mktensor input_shape (embedding (embeddings_weight vq) encoding_indices) in
          let vq_loss :=
            vq_loss_of ops (commitment_cost vq) (data quantized) (data x) in
          let quantized :=
            mktensor input_shape (straight_through (data quantized) (data x)) in
          let quantized := permute_0312 fzero quantized in
          if length encoding_indices =? numel (firstn 3 input_shape) then
            let encodings := mktensor (firstn 3 input_shape) encoding_indices in
            Some (quantized, vq_loss, encodings)
          else None
      end
  end.

(** The rows of [x.permute(0, 2, 3, 1).view(-1, D)]. *)
Definition flat_features (D : nat) (x : tensor float32) : list (list float32) :=
  let xp := data (permute_0231 fzero x) in
  tabulate (length xp / D) (row D xp).

(** A codebook with at least one code, every code of [embedding_dim]
    entries, [embedding_dim] being positive. *)
Definition codebook_ok (vq : VectorQuantizer) : Prop :=
  length (embeddings_weight vq) = num_embeddings vq /\
  1 <= num_embeddings vq /\ 1 <= embedding_dim vq /\
  Forall (fun w => length w = embedding_dim vq) (embeddings_weight vq).

(** *** The tokenizer *)

Section Tokenizer.

Variable ops : Reductions.

(** The convolutional encoder and decoder are opaque feature transforms. *)
Variable encoder : tensor float32 -> tensor float32.
Variable decoder : tensor float32 -> tensor float32.
Variable quantizer : VectorQuantizer.

(** [VQVAE.encode]. *)
Definition encode (x : tensor float32) : option (tensor float32 * tensor nat) :=
  let z := encoder x in
  match forward ops quantizer z with
  | Some (quantized, vq_loss, encodings) => Some (quantized, encodings)
  | None => None
  end.

(** [VQVAE.decode]. *)
Definition decode (quantized : tensor float32) : tensor float32 :=
  decoder quantized.

(** The tensor that [VQVAE.decode_from_indices] hands to the decoder (lines
    214-215): the looked-up codes, channels moved to the second place. *)
Definition codes_of (indices : tensor nat) : tensor float32 :=
  permute_0312 fzero
    (mktensor (shape indices ++ [embedding_dim quantizer])
              (embedding (embeddings_weight quantizer) (data indices))).

(** [VQVAE.decode_from_indices]; the codebook lookup raises on an index that
    is no row of the codebook, and [permute] unless [indices] has three
    dimensions. *)
Definition decode_from_indices (indices : tensor nat) : option (tensor float32) :=
  if (length (shape indices) =? 3) &&
     forallb (fun i => i <? length (embeddings_weight quantizer)) (data indices)
  then
    let quantized :=
      mktensor (shape indices ++ [embedding_dim quantizer])
               (embedding (embeddings_weight quantizer) (data indices)) in
    let quantized := permute_0312 fzero quantized in
    Some (decoder quantized)
  else None.

End Tokenizer.

(** *** The order of [argmin] *)

(** [better] is a strict order with NaN at the bottom; finite numbers of one
    sign compare by exponent and then by mantissa. The rank of a float32 in
    that order is a triple of integers compared from the left. *)
Definition rank (a : float32) : Z * Z * Z :=
  match a with
  | SpecFloat.S754_nan => (-3, 0, 0)
  | SpecFloat.S754_infinity true => (-2, 0, 0)
  | SpecFloat.S754_finite true m e => (-1, - e, - Zpos m)
  | SpecFloat.S754_zero _ => (0, 0, 0)
  | SpecFloat.S754_finite false m e => (1, e, Zpos m)
  | SpecFloat.S754_infinity false => (2, 0, 0)
  end%Z.

Definition rank_lt (p q : Z * Z * Z) : Prop :=
  let '(a1, b1, c1) := p in
  let '(a2, b2, c2) := q in
  (a1 < a2 \/ (a1 = a2 /\ (b1 < b2 \/ (b1 = b2 /\ c1 < c2))))%Z.

Lemma better_rank (a b : float32) :
  better a b = true <-> rank_lt (rank a) (rank b).
Proof.
  unfold better, fltb, SpecFloat.SFltb, SpecFloat.SFcompare, rank_lt.
  destruct a as [sa|sa| |sa ma ea]; destruct b as [sb|sb| |sb mb eb];
    try destruct sa; try destruct sb; cbn [is_nan negb rank];
    try (split; [discriminate|lia]);
    try (split; [lia|reflexivity]);
    change (Pos.compare_cont Eq ma mb) with (Pos.compare ma mb);
    destruct (Z.compare_spec ea eb); destruct (Pos.compare_spec ma mb);
    cbn [CompOpp]; split; intros; try discriminate; try reflexivity; lia.
Qed.

Lemma better_false_rank (a b : float32) :
  better a b = false <-> ~ rank_lt (rank a) (rank b).
Proof.
  rewrite <- better_rank. destruct (better a b); intuition congruence.
Qed.

Lemma better_irrefl (a : float32) : better a a = false.
Proof.
  apply better_false_rank. unfold rank_lt.
  destruct (rank a) as [[x y] z]. lia.
Qed.

(** What comes before [y] comes before all that [y] comes before, and [y]
    comes before all that does not come before what [y] comes before. *)
Lemma better_trans (p y b : float32) :
  better y b = true -> better p b = false -> better p y = false.
Proof.
  rewrite better_rank, !better_false_rank. unfold rank_lt.
  destruct (rank p) as [[p1 p2] p3], (rank y) as [[y1 y2] y3],
           (rank b) as [[b1 b2] b3]. lia.
Qed.

Lemma better_neg_trans (p y b : float32) :
  better y b = true -> better p b = false -> better y p = true.
Proof.
  rewrite !better_rank, better_false_rank. unfold rank_lt.
  destruct (rank p) as [[p1 p2] p3], (rank y) as [[y1 y2] y3],
           (rank b) as [[b1 b2] b3]. lia.
Qed.

Lemma fltb_nan_r (a : float32) : fltb a SpecFloat.S754_nan = false.
Proof. now destruct a as [s|s| |s m e]. Qed.

Lemma better_true_number (a b : float32) :
  better a b = true -> is_nan b = false.
Proof.
  unfold better. destruct (is_nan a).
  - now destruct (is_nan b).
  - destruct b; try reflexivity. now rewrite fltb_nan_r.
Qed.

(** [argmin] returns a position of the row; no entry comes before the one
    it points to, and that one comes before every earlier entry. *)
Lemma argmin_from_first l : forall pre bi b,
  bi < length pre -> nth bi pre fzero = b ->
  (forall j, j < length pre -> better (nth j pre fzero) b = false) ->
  (forall j, j < bi -> better b (nth j pre fzero) = true) ->
  let r := argmin_from bi b (length pre) l in
  let L := pre ++ l in
  r < length L /\
  (forall j, j < length L -> better (nth j L fzero) (nth r L fzero) = false) /\
  (forall j, j < r -> better (nth r L fzero) (nth j L fzero) = true).
Proof.
  induction l as [|y l IH]; intros pre bi b Hbi Hb Hmin Hfirst; cbn zeta.
  - simpl. rewrite app_nil_r, Hb. auto.
  - replace (pre ++ y :: l) with ((pre ++ [y]) ++ l)
      by now rewrite <- app_assoc.
    assert (Hlen : length (pre ++ [y]) = S (length pre))
      by (rewrite length_app; simpl; lia).
    simpl. destruct (better y b) eqn:Hyb.
    + rewrite <- Hlen. apply (IH (pre ++ [y]) (length pre) y).
      * lia.
      * rewrite app_nth2, Nat.sub_diag by lia. reflexivity.
      * intros j Hj. destruct (Nat.eq_dec j (length pre)) as [->|Hne].
        -- rewrite app_nth2, Nat.sub_diag by lia. simpl. apply better_irrefl.
        -- rewrite app_nth1 by lia. apply (better_trans _ _ b); auto.
           apply Hmin. lia.
      * intros j Hj. rewrite app_nth1 by lia.
        apply (better_neg_trans _ _ b); auto.
    + rewrite <- Hlen. apply (IH (pre ++ [y]) bi b).
      * lia.
      * rewrite app_nth1 by lia. exact Hb.
      * intros j Hj. destruct (Nat.eq_dec j (length pre)) as [->|Hne].
        -- rewrite app_nth2, Nat.sub_diag by lia. simpl. exact Hyb.
        -- rewrite app_nth1 by lia. apply Hmin. lia.
      * intros j Hj. rewrite app_nth1 by lia. now apply Hfirst.
Qed.

Lemma argmin_first l r :
  argmin l = Some r ->
  r < length l /\
  (forall j, j < length l -> better (nth j l fzero) (nth r l fzero) = false) /\
  (forall j, j < r -> better (nth r l fzero) (nth j l fzero) = true).
Proof.
  destruct l as [|y l]; simpl; [easy|]. intros H. inversion H; subst.
  apply (argmin_from_first l [y] 0 y); simpl; auto; try lia.
  intros j Hj. replace j with 0 by lia. apply better_irrefl.
Qed.

(** In terms of [<] and NaN: every entry before the selected one is a
    number; if the selected entry is a number then all entries are, none is
    less than it, and it is less than every earlier entry. *)
Lemma argmin_least l r :
  argmin l = Some r ->
  let d := fun j => nth j l fzero in
  r < length l /\
  (forall j, j < r -> is_nan (d j) = false) /\
  (is_nan (d r) = false ->
     (forall j, j < length l -> is_nan (d j) = false /\ fltb (d j) (d r) = false) /\
     (forall j, j < r -> fltb (d r) (d j) = true)).
Proof.
  intros Ha d. destruct (argmin_first l r Ha) as (Hr & Hmin & Hfirst).
  split; [exact Hr|]. split.
  - intros j Hj. apply (better_true_number (d r)). now apply Hfirst.
  - intros Hnum. split.
    + intros j Hj. specialize (Hmin j Hj). fold (d j) (d r) in Hmin.
      unfold better in Hmin. rewrite Hnum in Hmin.
      destruct (is_nan (d j)); [discriminate|]. auto.
    + intros j Hj. specialize (Hfirst j Hj). fold (d j) (d r) in Hfirst.
      unfold better in Hfirst. now rewrite Hnum in Hfirst.
Qed.

(** *** What [forward] computes *)

Lemma view_rows_flat (D : nat) (x : tensor float32) flat_x :
  view_rows D (data (permute_0231 fzero x)) = Some flat_x ->
  flat_x = flat_features D x.
Proof.
  unfold view_rows, flat_features.
  destruct (_ || _); [discriminate|]. now intros [= <-].
Qed.

Lemma forward_f32_inv ops vq x q loss enc :
  forward ops vq x = Some (q, loss, enc) ->
  let xp := permute_0231 fzero x in
  let qs := embedding (embeddings_weight vq) (data enc) in
  let flat_x := flat_features (embedding_dim vq) x in
  view_rows (embedding_dim vq) (data xp) = Some flat_x /\
  nearest_codes ops vq flat_x = Some (data enc) /\
  shape enc = firstn 3 (shape xp) /\
  loss = vq_loss_of ops (commitment_cost vq) qs (data xp) /\
  q = permute_0312 fzero (mktensor (shape xp) (straight_through qs (data xp))).
Proof.
  unfold forward. intros H.
  destruct (negb (length (shape x) =? 4)); [easy|].
  destruct (view_rows _ _) as [flat_x|] eqn:Hview; [|easy].
  pose proof (view_rows_flat _ _ _ Hview) as ->.
  destruct (nearest_codes ops vq _) as [idx|] eqn:Hidx; [|easy].
  destruct (length idx =? _); [|easy].
  injection H as Hq Hloss Henc. subst q loss enc.
  cbn [data shape]. repeat split; auto.
Qed.

Lemma flat_features_exact vq x B H W :
  codebook_ok vq -> shape x = [B; embedding_dim vq; H; W] ->
  flat_features (embedding_dim vq) x =
  tabulate (B * H * W)
    (row (embedding_dim vq) (data (permute_0231 fzero x))) /\
  view_rows (embedding_dim vq) (data (permute_0231 fzero x)) =
  Some (flat_features (embedding_dim vq) x).
Proof.
  intros (HK & HK1 & HD & Hrows) Hs.
  destruct (permute_0231_shape fzero x _ _ _ _ Hs) as [Hps Hpl].
  assert (Hf : flat_features (embedding_dim vq) x =
               tabulate (B * H * W)
                 (row (embedding_dim vq) (data (permute_0231 fzero x)))).
  { unfold flat_features. cbv zeta. rewrite Hpl, Nat.div_mul by lia.
    reflexivity. }
  split; [exact Hf|].
  rewrite Hf. apply view_rows_exact; [lia|exact Hpl].
Qed.

Lemma nearest_codes_defined ops vq flat_x :
  1 <= length (embeddings_weight vq) ->
  exists idx, nearest_codes ops vq flat_x = Some idx.
Proof.
  intros HK. apply mapM_total. apply Forall_forall. intros r Hr.
  unfold distances, tabulate in Hr. apply in_map_iff in Hr.
  destruct Hr as (n & <- & _).
  destruct (length (embeddings_weight vq)) as [|K]; [lia|].
  cbn [seq map]. now eexists.
Qed.

Lemma forward_f32_total ops vq x B H W :
  codebook_ok vq -> shape x = [B; embedding_dim vq; H; W] ->
  exists q loss enc, forward ops vq x = Some (q, loss, enc).
Proof.
  intros Hok Hs.
  destruct (flat_features_exact vq x B H W Hok Hs) as [Hflat Hview].
  destruct Hok as (HK & HK1 & HD & Hrows). unfold forward.
  replace (negb (length (shape x) =? 4)) with false by now rewrite Hs.
  destruct (permute_0231_shape fzero x _ _ _ _ Hs) as [Hps Hpl].
  rewrite Hview.
  destruct (nearest_codes_defined ops vq (flat_features (embedding_dim vq) x))
    as [idx Hidx]; [lia|].
  rewrite Hidx, Hps. apply mapM_length in Hidx.
  unfold distances in Hidx. rewrite tabulate_length, Hflat, tabulate_length in Hidx.
  replace (length idx =? numel (firstn 3 [B; H; W; embedding_dim vq])) with true
    by (symmetry; apply Nat.eqb_eq; simpl; lia).
  now do 3 eexists.
Qed.

Lemma forward_f32_codes ops vq x q loss enc B H W :
  codebook_ok vq -> shape x = [B; embedding_dim vq; H; W] ->
  forward ops vq x = Some (q, loss, enc) ->
  shape enc = [B; H; W] /\ length (data enc) = B * H * W /\
  forall n, n < B * H * W ->
    argmin (tabulate (num_embeddings vq)
              (distance ops (flat_features (embedding_dim vq) x)
                        (embeddings_weight vq) n))
    = Some (nth n (data enc) 0).
Proof.
  intros Hok Hs Hf.
  destruct (flat_features_exact vq x B H W Hok Hs) as [Hflat _].
  destruct Hok as (HK & HK1 & HD & Hrows).
  destruct (forward_f32_inv _ _ _ _ _ _ Hf) as (_ & Hidx & Hsh & _).
  destruct (permute_0231_shape fzero x _ _ _ _ Hs) as [Hps Hpl].
  rewrite Hps in Hsh. simpl in Hsh.
  assert (HN : length (flat_features (embedding_dim vq) x) = B * H * W)
    by now rewrite Hflat, tabulate_length.
  pose proof (mapM_length _ _ _ Hidx) as Hlen.
  unfold distances in Hlen. rewrite tabulate_length, HN in Hlen.
  repeat split; auto. intros n Hn.
  unfold nearest_codes in Hidx.
  rewrite <- (mapM_nth _ _ _ n [] 0 Hidx)
    by (unfold distances; rewrite tabulate_length; lia).
  unfold distances. rewrite tabulate_nth by lia. now rewrite HK.
Qed.

Lemma forward_f32_in_range ops vq x q loss enc B H W :
  codebook_ok vq -> shape x = [B; embedding_dim vq; H; W] ->
  forward ops vq x = Some (q, loss, enc) ->
  Forall (fun i => i < length (embeddings_weight vq)) (data enc).
Proof.
  intros Hok Hs Hf.
  destruct (forward_f32_codes ops vq x q loss enc B H W Hok Hs Hf)
    as (_ & Hlen & Hmin).
  destruct Hok as (HK & _). apply Forall_forall. intros i Hi.
  apply (In_nth _ _ 0) in Hi. destruct Hi as (n & Hn & <-).
  rewrite Hlen in Hn. specialize (Hmin n Hn). apply argmin_first in Hmin.
  destruct Hmin as [Hr _]. rewrite tabulate_length in Hr. lia.
Qed.

(** *** The entries of the quantized tensor *)

Lemma fmap2_length f a b :
  length a = length b -> length (fmap2 f a b) = length a.
Proof.
  revert b. induction a as [|x a IH]; intros [|y b]; simpl; intros Hl; try easy.
  f_equal. apply IH. lia.
Qed.

Lemma fmap2_nth f a b m d :
  length a = length b -> m < length a ->
  nth m (fmap2 f a b) d = f (nth m a d) (nth m b d).
Proof.
  revert b m. induction a as [|x a IH]; intros [|y b] m; simpl; intros Hl Hm;
    try easy; try lia.
  destruct m as [|m]; [reflexivity|]. apply IH; lia.
Qed.

Lemma straight_through_nth quantized x m :
  length quantized = length x -> m < length x ->
  nth m (straight_through quantized x) fzero =
  fadd (nth m x fzero) (fsub (nth m quantized fzero) (nth m x fzero)).
Proof.
  intros Hl Hm. unfold straight_through.
  rewrite fmap2_nth.
  - f_equal. apply fmap2_nth; lia.
  - rewrite fmap2_length; lia.
  - exact Hm.
Qed.

Lemma lookup_length weight D idx :
  Forall (fun w => length w = D) weight ->
  Forall (fun i => i < length weight) idx ->
  length (embedding weight idx) = length idx * D.
Proof.
  intros Hw Hidx. unfold embedding.
  induction Hidx as [|i idx Hi _ IH]; simpl; auto.
  rewrite length_app, IH. f_equal.
  rewrite Forall_forall in Hw. apply Hw, nth_In, Hi.
Qed.

Lemma lookup_nth (weight : list (list float32)) (D : nat) (idx : list nat)
    (n c : nat) :
  Forall (fun w => length w = D) weight ->
  Forall (fun i => i < length weight) idx ->
  n < length idx -> c < D ->
  nth (n * D + c) (embedding weight idx) fzero =
  nth c (nth (nth n idx 0) weight []) fzero.
Proof.
  intros Hw Hidx Hn Hc. unfold embedding.
  rewrite (ScheduleFacts.nth_concat_uniform D).
  - f_equal. rewrite (nth_indep _ [] (nth 0 weight [])) by now rewrite length_map.
    now rewrite (map_nth (fun i => nth i weight [])).
  - apply Forall_forall. intros r Hr. apply in_map_iff in Hr.
    destruct Hr as (i & <- & Hi). rewrite Forall_forall in Hw, Hidx.
    apply Hw, nth_In, Hidx, Hi.
  - now rewrite length_map.
  - exact Hc.
Qed.

(** Entry [(b, c, h, w)] of [t.permute(0, 3, 1, 2)] is entry [(b, h, w, c)]
    of [t]. *)
Lemma permute_0312_entry {A : Type} (d : A) (sh : list nat) (l : list A)
    (B C H W b c h w : nat) :
  sh = [B; H; W; C] -> b < B -> c < C -> h < H -> w < W ->
  nth (((b * C + c) * H + h) * W + w) (data (permute_0312 d (mktensor sh l))) d =
  nth (((b * H + h) * W + w) * C + c) l d.
Proof.
  intros -> Hb Hc Hh Hw. unfold permute_0312, dims4. cbn [shape data nth].
  rewrite tabulate_nth by now apply VQFacts.flat_index_bound4.
  destruct (unflatten_bhwc C H W b c h w Hc Hh Hw) as (E1 & E2 & E3 & E4).
  cbv zeta in *. now rewrite E1, E2, E3, E4.
Qed.

Lemma permute_0231_entry {A : Type} (d : A) (x : tensor A)
    (B C H W b c h w : nat) :
  shape x = [B; C; H; W] -> b < B -> c < C -> h < H -> w < W ->
  nth (((b * H + h) * W + w) * C + c) (data (permute_0231 d x)) d =
  nth (((b * C + c) * H + h) * W + w) (data x) d.
Proof.
  intros Hs Hb Hc Hh Hw. unfold permute_0231, dims4. rewrite Hs.
  cbn [shape data nth].
  rewrite tabulate_nth by now apply VQFacts.flat_index_bound4.
  destruct (unflatten_bhwc H W C b h w c Hh Hw Hc) as (E1 & E2 & E3 & E4).
  cbv zeta in *. now rewrite E1, E2, E3, E4.
Qed.

(** The quantized tensor, entry by entry: the rounded sum
    [x + (e - x)] of the input entry [x] and the entry [e] of the tensor of
    looked-up codes at the same position. *)
Lemma forward_entry ops vq x q loss enc B H W b c h w :
  codebook_ok vq -> shape x = [B; embedding_dim vq; H; W] ->
  forward ops vq x = Some (q, loss, enc) ->
  b < B -> c < embedding_dim vq -> h < H -> w < W ->
  let m := ((b * embedding_dim vq + c) * H + h) * W + w in
  let xe := nth m (data x) fzero in
  let ce := nth (((b * H + h) * W + w) * embedding_dim vq + c)
                (embedding (embeddings_weight vq) (data enc)) fzero in
  shape q = [B; embedding_dim vq; H; W] /\
  length (data q) = B * embedding_dim vq * H * W /\
  nth m (data q) fzero = fadd xe (fsub ce xe).
Proof.
  intros Hok Hs Hf Hb Hc Hh Hw m xe ce.
  pose proof (forward_f32_in_range _ _ _ _ _ _ _ _ _ Hok Hs Hf) as Hrange.
  destruct (forward_f32_codes _ _ _ _ _ _ _ _ _ Hok Hs Hf) as (_ & Henc & _).
  destruct (forward_f32_inv _ _ _ _ _ _ Hf) as (_ & _ & _ & _ & Hq).
  destruct (permute_0231_shape fzero x _ _ _ _ Hs) as [Hps Hpl].
  assert (Hlen : length (embedding (embeddings_weight vq) (data enc)) =
                 length (data (permute_0231 fzero x))).
  { destruct Hok as (_ & _ & _ & Hrows).
    rewrite (lookup_length _ (embedding_dim vq)) by auto.
    now rewrite Hpl, Henc. }
  set (D := embedding_dim vq) in *.
  rewrite Hps in Hq. subst q.
  split; [|split].
  - unfold permute_0312, dims4. reflexivity.
  - unfold permute_0312, dims4. cbn [shape data nth]. apply tabulate_length.
  - unfold m. rewrite (permute_0312_entry fzero _ _ B D H W) by auto.
    rewrite straight_through_nth.
    + rewrite (permute_0231_entry fzero x B D H W) by auto. reflexivity.
    + exact Hlen.
    + rewrite Hpl. now apply VQFacts.flat_index_bound4.
Qed.

(** *** Worked inputs *)

(** One feature, the value 4096, and the two codes 4097 and 4095.5. *)
Definition vq_close : VectorQuantizer :=
  {| num_embeddings := 2; embedding_dim := 1; commitment_cost := f32 1 (-2);
     embeddings_weight := [[f32 4097 0]; [f32 8191 (-1)]] |}.

Definition x_4096 : tensor float32 := mktensor [1; 1; 1; 1] [f32 4096 0].

(** One feature, the value 1, and the single code [2^-30]. *)
Definition vq_small : VectorQuantizer :=
  {| num_embeddings := 1; embedding_dim := 1; commitment_cost := f32 1 (-2);
     embeddings_weight := [[f32 1 (-30)]] |}.

Definition x_one : tensor float32 := mktensor [1; 1; 1; 1] [f32 1 0].

Lemma vq_close_ok : codebook_ok vq_close.
Proof.
  unfold codebook_ok. simpl. repeat split; try lia. repeat constructor.
Qed.

Lemma vq_small_ok : codebook_ok vq_small.
Proof.
  unfold codebook_ok. simpl. repeat split; try lia. repeat constructor.
Qed.

Example forward_x_4096 :
  forward sequential vq_close x_4096 =
  Some (mktensor [1; 1; 1; 1] [f32 4097 0], f32 5 (-2), mktensor [1; 1; 1] [0]).
Proof. vm_compute. reflexivity. Qed.

Example forward_x_one :
  forward sequential vq_small x_one =
  Some (mktensor [1; 1; 1; 1] [fzero], f32 5 (-2), mktensor [1; 1; 1] [0]).
Proof. vm_compute. reflexivity. Qed.

(** *** Nearest-code selection *)

(** C6. For an input of shape [[B, D, H, W]] and a codebook of [D]-vectors
    with at least one code, whatever the order in which torch adds up sums
    and products, the quantizer returns encodings of shape [[B, H, W]]. The
    encoding of the feature vector at [(b, h, w)] is an index [i] of the
    codebook chosen by the float32 values [d j] that lines 50-54 compute for
    the codes [j]: every [d j] with [j < i] is a number, and if [d i] is a
    number then all [d j] are, none of them is less than [d i], and [d i] is
    less than every [d j] with [j < i]. The result is a function of the
    input and the codebook: two calls on the same arguments return the same
    encodings. *)
Theorem lowest_computed_distance_selected (ops : Reductions)
    (vq : VectorQuantizer) (x : tensor float32) (B H W : nat) :
  codebook_ok vq -> shape x = [B; embedding_dim vq; H; W] ->
  exists q loss enc,
    forward ops vq x = Some (q, loss, enc) /\
    shape enc = [B; H; W] /\ length (data enc) = B * H * W /\
    (forall b h w, b < B -> h < H -> w < W ->
       let n := (b * H + h) * W + w in
       let i := nth n (data enc) 0 in
       let flat_x := flat_features (embedding_dim vq) x in
       let d := distance ops flat_x (embeddings_weight vq) n in
       nth n flat_x [] =
         tabulate (embedding_dim vq) (fun c =>
           nth (((b * embedding_dim vq + c) * H + h) * W + w) (data x) fzero) /\
       i < num_embeddings vq /\
       (forall j, j < i -> is_nan (d j) = false) /\
       (is_nan (d i) = false ->
          (forall j, j < num_embeddings vq ->
             is_nan (d j) = false /\ fltb (d j) (d i) = false) /\
          (forall j, j < i -> fltb (d i) (d j) = true))) /\
    (forall q' loss' enc',
       forward ops vq x = Some (q', loss', enc') -> enc' = enc).
Proof.
  intros Hok Hs.
  destruct (forward_f32_total ops vq x B H W Hok Hs) as (q & loss & enc & Hf).
  exists q, loss, enc.
  destruct (forward_f32_codes ops vq x q loss enc B H W Hok Hs Hf)
    as (Hsh & Hlen & Hmin).
  destruct (flat_features_exact vq x B H W Hok Hs) as [Hflat _].
  split; [exact Hf|]. split; [exact Hsh|]. split; [exact Hlen|]. split.
  - intros b h w Hb Hh Hw n i flat_x d.
    pose proof (flat_index_bound B H W b h w Hb Hh Hw) as Hn. fold n in Hn.
    split.
    { unfold flat_x. rewrite Hflat, tabulate_nth by exact Hn.
      now apply (permute_0231_row fzero x B _ H W). }
    specialize (Hmin n Hn). fold i flat_x d in Hmin.
    apply argmin_least in Hmin. cbv zeta in Hmin.
    rewrite tabulate_length in Hmin.
    destruct Hmin as (Hi & Hnum & Hleast).
    split; [exact Hi|]. split.
    + intros j Hj. specialize (Hnum j Hj).
      now rewrite tabulate_nth in Hnum by lia.
    + intros Hdi. rewrite tabulate_nth in Hleast by exact Hi.
      destruct (Hleast Hdi) as [Hall Hfirst]. split.
      * intros j Hj. specialize (Hall j Hj).
        now rewrite !tabulate_nth in Hall by lia.
      * intros j Hj. specialize (Hfirst j Hj).
        now rewrite !tabulate_nth in Hfirst by lia.
  - intros q' loss' enc' Hf'. congruence.
Qed.

Lemma lowest_computed_distance_selected_witness :
  exists q loss enc,
    forward sequential vq_close x_4096 = Some (q, loss, enc) /\
    shape enc = [1; 1; 1].
Proof.
  destruct (lowest_computed_distance_selected sequential vq_close x_4096 1 1 1)
    as (q & loss & enc & Hf & Hsh & _).
  - exact vq_close_ok.
  - reflexivity.
  - now exists q, loss, enc.
Defined.

(** C6 as the specification words it fails. The feature 4096 and the
    codes 4097 and 4095.5 are float32 numbers; the squared distance of the
    feature from the second code is 1/4, from the first code it is 1; both
    computed distances are 0, and the quantizer answers with the first
    code. *)
Lemma nearest_code_not_selected :
  let f := f32 4096 0 in
  let e0 := f32 4097 0 in
  let e1 := f32 8191 (-1) in
  representable f = true /\ representable e0 = true /\
  representable e1 = true /\
  F2R f = 4096%R /\ F2R e0 = 4097%R /\ F2R e1 = (8191 / 2)%R /\
  (sq_dist [F2R f] [F2R e1] < sq_dist [F2R f] [F2R e0])%R /\
  distance sequential [[f]] [[e0]; [e1]] 0 0 = fzero /\
  distance sequential [[f]] [[e0]; [e1]] 0 1 = fzero /\
  exists q loss,
    forward sequential vq_close x_4096 = Some (q, loss, mktensor [1; 1; 1] [0]).
Proof.
  cbv zeta.
  assert (Hf : F2R (f32 4096 0) = 4096%R).
  { replace (f32 4096 0) with (SpecFloat.S754_finite false 8388608 (-11))
      by (vm_compute; reflexivity).
    unfold F2R. cbn [Z.leb Z.compare Z.opp Z.pow Z.pow_pos Pos.iter Z.mul Pos.mul].
    lra. }
  assert (He0 : F2R (f32 4097 0) = 4097%R).
  { replace (f32 4097 0) with (SpecFloat.S754_finite false 8390656 (-11))
      by (vm_compute; reflexivity).
    unfold F2R. cbn [Z.leb Z.compare Z.opp Z.pow Z.pow_pos Pos.iter Z.mul Pos.mul].
    lra. }
  assert (He1 : F2R (f32 8191 (-1)) = (8191 / 2)%R).
  { replace (f32 8191 (-1)) with (SpecFloat.S754_finite false 16775168 (-12))
      by (vm_compute; reflexivity).
    unfold F2R. cbn [Z.leb Z.compare Z.opp Z.pow Z.pow_pos Pos.iter Z.mul Pos.mul].
    lra. }
  split; [vm_compute; reflexivity|]. split; [vm_compute; reflexivity|].
  split; [vm_compute; reflexivity|].
  split; [exact Hf|]. split; [exact He0|]. split; [exact He1|].
  split; [rewrite Hf, He0, He1; unfold sq_dist; simpl; lra|].
  split; [vm_compute; reflexivity|]. split; [vm_compute; reflexivity|].
  do 2 eexists. exact forward_x_4096.
Qed.

(** *** The two decoding paths *)

(** C4. When the encoder output [z] has shape [[B, D, H, W]] with
    [D = embedding_dim], whatever the order in which torch adds up sums and
    products, [encode] succeeds, and [decode_from_indices] on its encodings
    applies the decoder to the tensor [codes] of the looked-up codes. The
    quantized tensor that [encode] returns has the shape [[B, D, H, W]] and
    the length of [codes]; its entries are the float32 results of
    [z + (codes - z)]. It is [codes] exactly when that sum gives back the
    code at every entry, and then [decode] of the quantized tensor and
    [decode_from_indices] of the encodings return the same tensor. *)
Theorem decode_paths_agree_when_exact (ops : Reductions)
    (encoder decoder : tensor float32 -> tensor float32)
    (quantizer : VectorQuantizer) (x : tensor float32) (B H W : nat) :
  codebook_ok quantizer ->
  shape (encoder x) = [B; embedding_dim quantizer; H; W] ->
  let N := B * embedding_dim quantizer * H * W in
  let z := fun m => nth m (data (encoder x)) fzero in
  exists quantized encodings,
    let codes := codes_of quantizer encodings in
    let e := fun m => nth m (data codes) fzero in
    encode ops encoder quantizer x = Some (quantized, encodings) /\
    decode_from_indices decoder quantizer encodings = Some (decoder codes) /\
    shape quantized = [B; embedding_dim quantizer; H; W] /\
    shape codes = [B; embedding_dim quantizer; H; W] /\
    length (data quantized) = N /\ length (data codes) = N /\
    (forall m, m < N ->
       nth m (data quantized) fzero = fadd (z m) (fsub (e m) (z m))) /\
    (quantized = codes <->
     forall m, m < N -> fadd (z m) (fsub (e m) (z m)) = e m) /\
    ((forall m, m < N -> fadd (z m) (fsub (e m) (z m)) = e m) ->
     Some (decode decoder quantized) =
     decode_from_indices decoder quantizer encodings).
Proof.
  intros Hok Hs N z.
  destruct (forward_f32_total ops quantizer (encoder x) B H W Hok Hs)
    as (q & loss & enc & Hf).
  exists q, enc. cbv zeta.
  set (codes := codes_of quantizer enc).
  pose proof (forward_f32_in_range _ _ _ _ _ _ _ _ _ Hok Hs Hf) as Hrange.
  destruct (forward_f32_codes _ _ _ _ _ _ _ _ _ Hok Hs Hf)
    as (Hsh3 & Hlen3 & _).
  set (D := embedding_dim quantizer) in *.
  assert (Hcsh : shape codes = [B; D; H; W]).
  { unfold codes, codes_of, permute_0312, dims4. rewrite Hsh3. reflexivity. }
  assert (Hclen : length (data codes) = N).
  { unfold codes, codes_of, permute_0312, dims4. rewrite Hsh3.
    cbn [app shape data nth]. apply tabulate_length. }
  assert (Hdec : decode_from_indices decoder quantizer enc = Some (decoder codes)).
  { unfold decode_from_indices.
    replace (forallb _ (data enc)) with true.
    - unfold codes, codes_of. now rewrite Hsh3.
    - symmetry. apply forallb_forall. intros i Hi. apply Nat.ltb_lt.
      rewrite Forall_forall in Hrange. auto. }
  assert (Hentry : forall m, m < N ->
            nth m (data q) fzero =
            fadd (z m) (fsub (nth m (data codes) fzero) (z m))).
  { intros m Hm.
    destruct (VQFacts.flatten_unflatten B D H W m Hm)
      as (Eflat & Hb & Hc & Hh & Hw). cbv zeta in Eflat, Hb, Hc, Hh, Hw.
    set (w := m mod W) in *. set (h := (m / W) mod H) in *.
    set (c := (m / (W * H)) mod D) in *. set (b := m / (W * H * D)) in *.
    destruct (forward_entry ops quantizer (encoder x) q loss enc B H W b c h w
                Hok Hs Hf Hb Hc Hh Hw) as (_ & _ & Hqe).
    cbv zeta in Hqe. fold D in Hqe. rewrite Eflat in Hqe.
    rewrite Hqe. unfold z. do 2 f_equal.
    rewrite <- Eflat at 1. unfold codes, codes_of. rewrite Hsh3.
    symmetry. apply (permute_0312_entry fzero _ _ B D H W); auto. }
  assert (Hq : shape q = [B; D; H; W] /\ length (data q) = N).
  { destruct (forward_f32_inv _ _ _ _ _ _ Hf) as (_ & _ & _ & _ & Hq).
    destruct (permute_0231_shape fzero (encoder x) _ _ _ _ Hs) as [Hps _].
    rewrite Hps in Hq. subst q. unfold permute_0312, dims4.
    cbn [shape data nth]. split; [reflexivity|apply tabulate_length]. }
  destruct Hq as [Hqs Hql].
  assert (Hiff : q = codes <->
            forall m, m < N ->
              fadd (z m) (fsub (nth m (data codes) fzero) (z m)) =
              nth m (data codes) fzero).
  { split.
    - intros Heq m Hm. rewrite <- (Hentry m Hm). now rewrite Heq.
    - intros Hex. apply VQFacts.tensor_eq; [congruence|].
      apply (nth_ext _ _ fzero fzero); [congruence|].
      intros m Hm. rewrite Hql in Hm.
      rewrite (Hentry m Hm). now apply Hex. }
  split; [unfold encode; now rewrite Hf|].
  split; [exact Hdec|]. split; [exact Hqs|]. split; [exact Hcsh|].
  split; [exact Hql|]. split; [exact Hclen|]. split; [exact Hentry|].
  split; [exact Hiff|].
  intros Hex. rewrite Hdec. unfold decode. f_equal. f_equal.
  now apply Hiff.
Qed.

Lemma decode_paths_agree_when_exact_witness :
  exists quantized encodings,
    encode sequential (fun t => t) vq_close x_4096 = Some (quantized, encodings) /\
    decode_from_indices (fun t => t) vq_close encodings =
    Some (codes_of vq_close encodings) /\
    Some (decode (fun t => t) quantized) =
    decode_from_indices (fun t => t) vq_close encodings.
Proof.
  destruct (decode_paths_agree_when_exact sequential (fun t => t) (fun t => t)
              vq_close x_4096 1 1 1 vq_close_ok eq_refl)
    as (q & enc & He & Hd & _ & _ & _ & _ & _ & _ & Hsame).
  exists q, enc. split; [exact He|]. split; [exact Hd|].
  apply Hsame. intros m Hm.
  unfold encode in He. rewrite forward_x_4096 in He.
  injection He as <- <-.
  replace m with 0 by (simpl in Hm; lia). vm_compute. reflexivity.
Defined.

(** C4 as the specification words it fails. With the identity as encoder
    and decoder, the input 1 and the single code [2^-30], the difference
    [2^-30 - 1] rounds to [-1]: decoding the quantized tensor gives 0,
    decoding the encodings gives the code. *)
Lemma decode_paths_differ :
  exists quantized encodings from_indices,
    encode sequential (fun t => t) vq_small x_one = Some (quantized, encodings) /\
    decode_from_indices (fun t => t) vq_small encodings = Some from_indices /\
    representable (f32 1 0) = true /\ representable (f32 1 (-30)) = true /\
    decode (fun t => t) quantized = mktensor [1; 1; 1; 1] [fzero] /\
    from_indices = mktensor [1; 1; 1; 1] [f32 1 (-30)] /\
    decode (fun t => t) quantized <> from_indices.
Proof.
  exists (mktensor [1; 1; 1; 1] [fzero]), (mktensor [1; 1; 1] [0]),
         (mktensor [1; 1; 1; 1] [f32 1 (-30)]).
  split; [unfold encode; now rewrite forward_x_one|].
  split; [vm_compute; reflexivity|].
  split; [vm_compute; reflexivity|]. split; [vm_compute; reflexivity|].
  split; [reflexivity|]. split; [reflexivity|].
  unfold decode. vm_compute. discriminate.
Qed.

(** X22. The quantized tensor that [VectorQuantizer.forward] returns has
    the shape [[B, D, H, W]] of the input. Its entry [(b, c, h, w)] is the
    float32 result of [x + (e - x)], where [x] is that entry of the input
    and [e] is entry [c] of the code whose index the encodings hold at
    [(b, h, w)]. *)
Theorem quantized_is_straight_through_sum (ops : Reductions)
    (vq : VectorQuantizer) (x q : tensor float32) (loss : float32)
    (enc : tensor nat) (B H W b c h w : nat) :
  codebook_ok vq ->
  shape x = [B; embedding_dim vq; H; W] ->
  forward ops vq x = Some (q, loss, enc) ->
  b < B -> c < embedding_dim vq -> h < H -> w < W ->
  let m := ((b * embedding_dim vq + c) * H + h) * W + w in
  let xe := nth m (data x) fzero in
  let i := nth ((b * H + h) * W + w) (data enc) 0 in
  let e := nth c (nth i (embeddings_weight vq) []) fzero in
  shape q = [B; embedding_dim vq; H; W] /\
  length (data q) = B * embedding_dim vq * H * W /\
  i < num_embeddings vq /\
  nth m (data q) fzero = fadd xe (fsub e xe).
Proof.
  intros Hok Hs Hf Hb Hc Hh Hw m xe i e.
  pose proof (forward_f32_in_range _ _ _ _ _ _ _ _ _ Hok Hs Hf) as Hrange.
  destruct (forward_f32_codes _ _ _ _ _ _ _ _ _ Hok Hs Hf) as (_ & Henc & _).
  destruct (forward_entry ops vq x q loss enc B H W b c h w
              Hok Hs Hf Hb Hc Hh Hw) as (Hqs & Hql & Hqe).
  cbv zeta in Hqe. fold m xe in Hqe.
  pose proof (flat_index_bound B H W b h w Hb Hh Hw) as Hn.
  destruct Hok as (HK & _ & _ & Hrows).
  split; [exact Hqs|]. split; [exact Hql|]. split.
  - rewrite <- HK. rewrite Forall_forall in Hrange. apply Hrange, nth_In.
    now rewrite Henc.
  - rewrite Hqe. do 2 f_equal.
    apply (lookup_nth _ (embedding_dim vq)); auto. now rewrite Henc.
Qed.

Lemma quantized_is_straight_through_sum_witness :
  nth 0 (data (mktensor [1; 1; 1; 1] [fzero])) fzero =
  fadd (f32 1 0) (fsub (f32 1 (-30)) (f32 1 0)).
Proof.
  apply (quantized_is_straight_through_sum sequential vq_small x_one
           (mktensor [1; 1; 1; 1] [fzero]) (f32 5 (-2)) (mktensor [1; 1; 1] [0])
           1 1 1 0 0 0 0 vq_small_ok eq_refl forward_x_one);
    simpl; lia.
Defined.

End VQFloat.

(* ================================================================= *)
(** ** The positional encoding ([utils.py], [positional_encoding_2d]) *)

Module PositionalEncoding.
Import Tensor.
Local Open Scope R_scope.

(** [torch.exp(torch.arange(0, d_model, 2) * (-np.log(10000.0) / d_model))]:
    one entry for each even number below [d_model]. *)
Definition div_term (d_model : nat) : vec :=
  tabulate ((d_model + 1) / 2)
           (fun i => exp (INR (2 * i) * (- ln 10000 / INR d_model))).

(** [positional_encoding_2d(h, w, d_model, device)] for sizes that are
    natural numbers, as a table [pe[y][x][c]]. The even channels receive
    [sin(y_pos * div_term)] and the odd channels [cos(y_pos * div_term)];
    [x_pos] is computed and not read. For an odd [d_model >= 3] the odd
    channels are fewer than the entries of [div_term] and the second
    assignment raises. *)
Definition positional_encoding_2d (h w d_model : nat)
  : option (list (list vec)) :=
  let y_pos :=
    tabulate h (fun y => tabulate w (fun _ => INR y / INR (Nat.max (h - 1) 1))) in
  let x_pos :=
    tabulate h (fun _ => tabulate w (fun x => INR x / INR (Nat.max (w - 1) 1))) in
  let div_term := div_term d_model in
  if Nat.odd d_model && (3 <=? d_model)%nat then None
  else
    Some (tabulate h (fun y => tabulate w (fun x =>
            tabulate d_model (fun c =>
              let angle := nth x (nth y y_pos []) 0 * nth (c / 2) div_term 0 in
              if Nat.even c then sin angle else cos angle)))).

(** X24. [positional_encoding_2d] encodes the row only. For an even
    [d_model] it returns a table of shape [[h, w, d_model]] whose entries
    lie in [[-1, 1]] and do not depend on the column: all positions of one
    row get the same vector, so two cells of a row cannot be told apart.
    For an odd [d_model >= 3] it raises. *)
Theorem positional_encoding_ignores_column (h w d_model : nat) :
  (Nat.even d_model = true ->
   exists pe,
     positional_encoding_2d h w d_model = Some pe /\ length pe = h /\
     forall y x, (y < h)%nat -> (x < w)%nat ->
       length (nth y pe []) = w /\
       length (nth x (nth y pe []) []) = d_model /\
       (forall c, -1 <= nth c (nth x (nth y pe []) []) 0 <= 1) /\
       forall x', (x' < w)%nat ->
         nth x' (nth y pe []) [] = nth x (nth y pe []) []) /\
  (Nat.odd d_model = true -> (3 <= d_model)%nat ->
   positional_encoding_2d h w d_model = None).
Proof.
  split.
  - intros Heven. unfold positional_encoding_2d.
    rewrite <- Nat.negb_even, Heven. cbn [negb andb].
    eexists. split; [reflexivity|]. split; [apply tabulate_length|].
    intros y x Hy Hx. rewrite !tabulate_nth by auto.
    split; [apply tabulate_length|]. split; [apply tabulate_length|]. split.
    + intros c. destruct (Nat.lt_ge_cases c d_model) as [Hc|Hc].
      * rewrite tabulate_nth by auto. cbv zeta.
        destruct (Nat.even c); [apply SIN_bound|apply COS_bound].
      * rewrite nth_overflow by (rewrite tabulate_length; lia). lra.
    + intros x' Hx'. rewrite !tabulate_nth by auto. reflexivity.
  - intros Hodd H3. unfold positional_encoding_2d. rewrite Hodd.
    replace (3 <=? d_model)%nat with true by (symmetry; now apply Nat.leb_le).
    reflexivity.
Qed.

Lemma positional_encoding_ignores_column_witness :
  (exists pe, positional_encoding_2d 2 2 2 = Some pe /\ length pe = 2%nat) /\
  positional_encoding_2d 2 2 3 = None.
Proof.
  destruct (positional_encoding_ignores_column 2 2 2) as [Heven _].
  destruct (positional_encoding_ignores_column 2 2 3) as [_ Hodd].
  split.
  - destruct (Heven eq_refl) as (pe & Hpe & Hlen & _). now exists pe.
  - apply Hodd; [reflexivity|lia].
Defined.

End PositionalEncoding.

(* ================================================================= *)
(** ** Tokens for training ([trainer.py], [VARTrainer.train_epoch]) *)

Module Trainer.
Import Tensor Autograd VARModel.
Local Open Scope nat_scope.

(** Lines 76-78: the images are tokenized by the frozen tokenizer and each
    grid of indices is flattened, [tokens.reshape(tokens.shape[0], -1)];
    torch cannot infer the second size of an empty batch. *)
Definition tokenize (encoder : VQVAE.tensor dual -> VQVAE.tensor dual)
    (quantizer : VQVAE.VectorQuantizer) (images : VQVAE.tensor dual)
  : option (list (list nat)) :=
  match VQVAE.get_codebook_indices encoder quantizer images with
  | None => None
  | Some tokens =>
      let B := nth 0 (VQVAE.shape tokens) 0 in
      let numel := length (VQVAE.data tokens) in
      if (B =? 0) || negb (numel mod B =? 0) then None
      else Some (ScheduleFacts.grid B (numel / B) (VQVAE.data tokens))
  end.

Lemma Forall_chunk {A} (P : A -> Prop) (l : list A) (n k : nat) :
  Forall P l -> Forall P (firstn n (skipn k l)).
Proof.
  intros H. apply Forall_forall. intros x Hx.
  rewrite Forall_forall in H. apply H.
  rewrite <- (firstn_skipn k l). apply in_or_app. right.
  rewrite <- (firstn_skipn n (skipn k l)). apply in_or_app. now left.
Qed.

(** X25. The tokens of a training batch. When the encoder gives features
    of shape [[B, embedding_dim, H, W]] and the codebook is well formed, a
    batch with [B >= 1] is turned into [B] rows of [H * W] tokens, row [b]
    holding the encodings of image [b] in row-major order, every token a
    codebook index; these rows are valid input for a model whose token
    table has at least [num_embeddings] rows and whose position table has
    at least [H * W]. An empty batch ([B = 0]) raises in the reshape. *)
Theorem tokenize_gives_valid_tokens
    (encoder : VQVAE.tensor dual -> VQVAE.tensor dual)
    (quantizer : VQVAE.VectorQuantizer) (images : VQVAE.tensor dual)
    (m : VAR) (B H W : nat) :
  VQVAE.codebook_ok quantizer ->
  VQVAE.shape (encoder images) = [B; VQVAE.embedding_dim quantizer; H; W] ->
  VQVAE.num_embeddings quantizer <= length (token_embedding m) ->
  H * W <= length (pos_embedding m) ->
  (B = 0 -> tokenize encoder quantizer images = None) /\
  (1 <= B ->
   exists encodings tokens,
     VQVAE.get_codebook_indices encoder quantizer images = Some encodings /\
     tokenize encoder quantizer images = Some tokens /\
     length tokens = B /\
     Forall (valid_tokens m) tokens /\
     forall b, b < B ->
       length (nth b tokens []) = H * W /\
       Forall (fun t => t < VQVAE.num_embeddings quantizer) (nth b tokens []) /\
       forall h w, h < H -> w < W ->
         nth (h * W + w) (nth b tokens []) 0 =
         nth ((b * H + h) * W + w) (VQVAE.data encodings) 0).
Proof.
  intros Hok Hs HK Hpos.
  destruct (VQVAE.forward_total quantizer (encoder images) B H W Hok Hs)
    as (q & loss & enc & Hf).
  destruct (VQVAE.forward_codes _ _ _ _ _ _ _ _ Hok Hs Hf) as (Hsh & Hlen & _).
  pose proof (VQVAE.forward_in_range _ _ _ _ _ _ _ _ Hok Hs Hf) as Hrange.
  destruct Hok as (HKl & _).
  unfold tokenize, VQVAE.get_codebook_indices, VQVAE.encode. rewrite Hf.
  rewrite Hsh, Hlen. cbn [nth]. split.
  - intros ->. reflexivity.
  - intros HB.
    replace (B =? 0) with false by (symmetry; apply Nat.eqb_neq; lia).
    replace (B * H * W) with (H * W * B) by lia.
    rewrite Nat.Div0.mod_mul, Nat.div_mul by lia. cbn [Nat.eqb negb orb].
    exists enc. eexists. split; [reflexivity|]. split; [reflexivity|].
    split; [apply ScheduleFacts.grid_length|].
    assert (Hrow : forall b, b < B ->
              length (nth b (ScheduleFacts.grid B (H * W) (VQVAE.data enc)) [])
              = H * W /\
              Forall (fun t => t < VQVAE.num_embeddings quantizer)
                     (nth b (ScheduleFacts.grid B (H * W) (VQVAE.data enc)) [])).
    { intros b Hb. split.
      - apply ScheduleFacts.grid_row_length; auto. rewrite Hlen. lia.
      - unfold ScheduleFacts.grid. rewrite tabulate_nth by auto.
        apply Forall_chunk. rewrite <- HKl. exact Hrange. }
    split.
    + apply Forall_forall. intros row Hin.
      destruct (In_nth _ _ [] Hin) as (b & Hb & <-).
      rewrite ScheduleFacts.grid_length in Hb.
      destruct (Hrow b Hb) as [Hl Hr]. split; [|lia].
      eapply Forall_impl; [|exact Hr]. cbv beta. intros t Hlt. lia.
    + intros b Hb. destruct (Hrow b Hb) as [Hl Hr].
      split; [exact Hl|]. split; [exact Hr|].
      intros h w Hh Hw.
      rewrite ScheduleFacts.grid_nth by (auto; nia).
      f_equal. lia.
Qed.

(** An image of one channel, one row and two columns; both feature values
    are quantized to the single code of [vq_one_code]. *)
Definition image_1x2 : VQVAE.tensor dual :=
  VQVAE.mktensor [1; 1; 1; 2] [mkdual 1 0; mkdual 2 0].

Lemma tokenize_gives_valid_tokens_witness :
  exists encodings tokens,
    VQVAE.get_codebook_indices (fun t => t) VQVAE.vq_one_code image_1x2
    = Some encodings /\
    tokenize (fun t => t) VQVAE.vq_one_code image_1x2 = Some tokens /\
    length tokens = 1 /\
    Forall (valid_tokens (VAR_new cfg_two_scales init_zero)) tokens.
Proof.
  destruct (tokenize_gives_valid_tokens (fun t => t) VQVAE.vq_one_code image_1x2
              (VAR_new cfg_two_scales init_zero) 1 1 2) as [_ Hpos].
  - unfold VQVAE.codebook_ok. simpl. repeat split; try lia. repeat constructor.
  - reflexivity.
  - vm_compute. lia.
  - vm_compute. lia.
  - destruct (Hpos ltac:(lia)) as (enc & tokens & He & Ht & Hl & Hv & _).
    now exists enc, tokens.
Defined.

End Trainer.
